(** * Industrial-safety QA service: retrieval, reranking and answer synthesis

    A shallow embedding of the Python sources under
    [industrial_safety_qa/qa_app] ([utils.py], [embeddings.py],
    [reranker.py], [views.py], [models.py]) together with the properties
    the design document states about them.

    Modelling conventions.
    - A Python [str] is a [list ascii]; the alphabet is 7-bit ASCII
      together with the em dash, which the sources name, so [\s], [\d],
      [\w] and [str.lower] are their ASCII restrictions (other code
      points above 127 are outside the model).
    - A Python [int] is a [Z]; a length or a list position is a [nat].
    - A Python/NumPy [float] is an exact rational [Q]: rounding, overflow
      and NaN are outside the model, equality of scores is [Qeq].
    - The [re] module is modelled by a small backtracking matcher for the
      fragment of regular expressions the sources use.
    - External collaborators (the embedding model, the Chroma collection,
      [BM25Okapi], [np.argsort], the stop-word list, the PDF reader,
      [sources.json]) are parameters. *)

From Stdlib Require Import Ascii String.
From Stdlib Require Import List Bool Arith ZArith Lia.
From Stdlib Require Import QArith Qminmax Lqa.
From Stdlib Require Import Sorting.Sorted Sorting.Permutation.
From Stdlib Require DecimalString DecimalNat.
Import ListNotations.

Local Open Scope nat_scope.

(** ** Python strings *)

Module Py.

Definition str := list ascii.

Definition lit (s : string) : str := list_ascii_of_string s.

Definition code (c : ascii) : nat := nat_of_ascii c.

(** [str.isspace] on ASCII: TAB, LF, VT, FF, CR, FS, GS, RS, US, SPACE. *)
Definition is_space (c : ascii) : bool :=
  let n := code c in
  ((9 <=? n) && (n <=? 13)) || ((28 <=? n) && (n <=? 32)).

Definition is_digit (c : ascii) : bool :=
  let n := code c in (48 <=? n) && (n <=? 57).

Definition is_upper (c : ascii) : bool :=
  let n := code c in (65 <=? n) && (n <=? 90).

Definition is_lower (c : ascii) : bool :=
  let n := code c in (97 <=? n) && (n <=? 122).

(** [\w]: letters, digits and the underscore. *)
Definition is_word (c : ascii) : bool :=
  is_upper c || is_lower c || is_digit c || (code c =? 95).

Definition non_space (c : ascii) : bool := negb (is_space c).

(** The em dash (U+2014), the one character outside ASCII that the
    sources name.  An [ascii] has eight bits: the codes up to 127 are the
    ASCII characters, and the em dash is given the code 151; it is no
    space, no digit, no letter and no word character. *)
Definition em_dash : ascii := "151"%char.

Definition lower_char (c : ascii) : ascii :=
  if is_upper c then ascii_of_nat (code c + 32) else c.

(** [s.lower()] *)
Definition lower (s : str) : str := map lower_char s.

Fixpoint str_eqb (a b : str) : bool :=
  match a, b with
  | [], [] => true
  | x :: a', y :: b' => Ascii.eqb x y && str_eqb a' b'
  | _, _ => false
  end.

(** [s.lstrip()], [s.rstrip()] and [s.strip()] without arguments. *)
Fixpoint lstrip (s : str) : str :=
  match s with
  | [] => []
  | c :: s' => if is_space c then lstrip s' else s
  end.

Definition rstrip (s : str) : str := rev (lstrip (rev s)).

Definition strip (s : str) : str := rstrip (lstrip s).

(** [s.split()] without arguments: the maximal runs of non-whitespace
    characters, in order; [cur] is the run being read, reversed. *)
Fixpoint split_from (cur : str) (s : str) : list str :=
  match s with
  | [] => match cur with [] => [] | _ => [rev cur] end
  | c :: s' =>
      if is_space c
      then match cur with
           | [] => split_from [] s'
           | _ => rev cur :: split_from [] s'
           end
      else split_from (c :: cur) s'
  end.

Definition split (s : str) : list str := split_from [] s.

(** [len(s.split())] *)
Definition word_count (s : str) : nat := length (split s).

(** [sep.join(parts)] *)
Fixpoint join (sep : str) (parts : list str) : str :=
  match parts with
  | [] => []
  | [p] => p
  | p :: rest => p ++ sep ++ join sep rest
  end.

(** [s.rfind(c)] for a one-character needle: the highest index holding
    [c], or [-1]. *)
Fixpoint rfind_from (c : ascii) (i : Z) (s : str) : Z :=
  match s with
  | [] => (-1)%Z
  | x :: s' =>
      let r := rfind_from c (i + 1)%Z s' in
      if (0 <=? r)%Z then r else if Ascii.eqb x c then i else (-1)%Z
  end.

Definition rfind (c : ascii) (s : str) : Z := rfind_from c 0%Z s.

(** [s[:n]] for an integer [n]: a negative bound counts from the end. *)
Definition slice_to {A : Type} (n : Z) (s : list A) : list A :=
  if (0 <=? n)%Z then firstn (Z.to_nat n) s
  else firstn (Z.to_nat (Z.of_nat (length s) + n)) s.

(** [s[n:]] for a non-negative position [n]. *)
Definition slice_from {A : Type} (n : nat) (s : list A) : list A := skipn n s.

End Py.

(** ** The fragment of [re] used by the sources *)

Module Re.
Import Py.

(** One element of a pattern, matched left to right. *)
Inductive item : Type :=
  | WordB                                  (* \b *)
  | LookBehind (cls : ascii -> bool)       (* (?<=[...]) *)
  | Lit (s : str)                          (* literal text *)
  | Rep (cls : ascii -> bool) (min : nat). (* [...]{min,}, greedy *)

Definition pattern := list item.

Definition word_opt (c : option ascii) : bool :=
  match c with Some x => is_word x | None => false end.

Fixpoint strip_prefix (p s : str) : option str :=
  match p, s with
  | [], _ => Some s
  | x :: p', y :: s' => if Ascii.eqb x y then strip_prefix p' s' else None
  | _ :: _, [] => None
  end.

Definition last_opt (p : str) (prev : option ascii) : option ascii :=
  match rev p with c :: _ => Some c | [] => prev end.

(** Greedy repetition [cls{need,}] followed by the continuation [k]: take
    characters of the class while there are some, and give them back one
    by one for as long as [k] fails on what follows. *)
Fixpoint rep_greedy (k : option ascii -> str -> option str)
    (cls : ascii -> bool) (need : nat) (prev : option ascii) (s : str)
  : option str :=
  let stop := match need with O => k prev s | S _ => None end in
  match s with
  | c :: s' =>
      if cls c
      then match rep_greedy k cls (pred need) (Some c) s' with
           | Some r => Some r
           | None => stop
           end
      else stop
  | [] => stop
  end.

(** [match_items pat prev s]: match [pat] at the head of [s], where [prev]
    is the character just before [s] in the subject (if any); the result
    is what is left of [s] after the match. *)
Fixpoint match_items (pat : pattern) : option ascii -> str -> option str :=
  match pat with
  | [] => fun _ s => Some s
  | it :: rest =>
      let k := match_items rest in
      match it with
      | WordB => fun prev s =>
          if xorb (word_opt prev) (word_opt (hd_error s)) then k prev s else None
      | LookBehind cls => fun prev s =>
          match prev with
          | Some c => if cls c then k prev s else None
          | None => None
          end
      | Lit l => fun prev s =>
          match strip_prefix l s with
          | Some s' => k (last_opt l prev) s'
          | None => None
          end
      | Rep cls min => rep_greedy k cls min
      end
  end.

(** [re.sub(pat, repl, s)] for patterns that never match the empty string
    (every pattern of the sources consumes at least one character).
    [skip] counts the characters of the current match still to drop. *)
Fixpoint sub_from (pat : pattern) (repl : str)
    (skip : nat) (prev : option ascii) (s : str) : str :=
  match s with
  | [] => []
  | c :: s' =>
      match skip with
      | S n => sub_from pat repl n (Some c) s'
      | O =>
          match match_items pat prev s with
          | Some rest =>
              repl ++ sub_from pat repl (length s' - length rest) (Some c) s'
          | None => c :: sub_from pat repl 0 (Some c) s'
          end
      end
  end.

Definition sub (pat : pattern) (repl : str) (s : str) : str :=
  sub_from pat repl 0 None s.

(** [re.search(pat, s) is not None], from a given position. *)
Fixpoint search_from (pat : pattern) (prev : option ascii) (s : str) : bool :=
  match s with
  | [] => false
  | c :: s' =>
      match match_items pat prev s with
      | Some _ => true
      | None => search_from pat (Some c) s'
      end
  end.

Definition search (pat : pattern) (s : str) : bool := search_from pat None s.

(** [re.split(pat, s)], same restriction; [cur] is the piece being read,
    reversed. *)
Fixpoint split_from (pat : pattern)
    (skip : nat) (prev : option ascii) (cur : str) (s : str) : list str :=
  match s with
  | [] => [rev cur]
  | c :: s' =>
      match skip with
      | S n => split_from pat n (Some c) cur s'
      | O =>
          match match_items pat prev s with
          | Some rest =>
              rev cur :: split_from pat (length s' - length rest) (Some c) [] s'
          | None => split_from pat 0 (Some c) (c :: cur) s'
          end
      end
  end.

Definition split (pat : pattern) (s : str) : list str :=
  split_from pat 0 None [] s.

(** [re.findall(pat, s)] for a pattern without groups, same restriction:
    the matched pieces of text, left to right. *)
Fixpoint findall_from (pat : pattern)
    (skip : nat) (prev : option ascii) (s : str) : list str :=
  match s with
  | [] => []
  | c :: s' =>
      match skip with
      | S n => findall_from pat n (Some c) s'
      | O =>
          match match_items pat prev s with
          | Some rest =>
              firstn (length s - length rest) s
                :: findall_from pat (length s' - length rest) (Some c) s'
          | None => findall_from pat 0 (Some c) s'
          end
      end
  end.

Definition findall (pat : pattern) (s : str) : list str :=
  findall_from pat 0 None s.

End Re.

(** ** models.py: the relational store *)

Module Models.
Import Py.

(** A row of [Document]; [doc_id] is the primary key Django adds. *)
Record Document : Type := mk_Document {
  doc_id : nat;
  title : str;
  url : str;
  processed : bool
}.

(** A row of [DocumentChunk]; [document] is the foreign key.  The
    [embedding] column is never written by the sources and is left out;
    [chunk_index] only ever receives positions produced by [enumerate]. *)
Record DocumentChunk : Type := mk_DocumentChunk {
  document : nat;
  chunk_text : str;
  chunk_index : nat
}.

Record DB : Type := mk_DB {
  documents : list Document;
  doc_chunks : list DocumentChunk;
  next_doc_id : nat
}.

Definition empty_db : DB := mk_DB [] [] 1.

Inductive exn : Type :=
  | IntegrityError
  | MultipleObjectsReturned.

Inductive outcome (A : Type) : Type :=
  | Return (a : A)
  | Raise (e : exn).
Arguments Return {A} a.
Arguments Raise {A} e.

(** Database code: a state monad over [DB] with exceptions.  Every
    statement is committed on its own (Django's autocommit), so a raised
    exception keeps the state reached so far. *)
Definition M (A : Type) : Type := DB -> outcome A * DB.

Definition ret {A : Type} (a : A) : M A := fun db => (Return a, db).

Definition bind {A B : Type} (m : M A) (k : A -> M B) : M B :=
  fun db =>
    match m db with
    | (Return a, db') => k a db'
    | (Raise e, db') => (Raise e, db')
    end.

Definition raise {A : Type} (e : exn) : M A := fun db => (Raise e, db).

(** [try: m except Exception: pass] *)
Definition try_ (m : M unit) : M unit :=
  fun db => match m db with (_, db') => (Return tt, db') end.

Fixpoint for_each {A : Type} (xs : list A) (body : A -> M unit) : M unit :=
  match xs with
  | [] => ret tt
  | x :: rest => bind (body x) (fun _ => for_each rest body)
  end.

(** [Document.objects.all()] and [Document.objects.filter(processed=False)] *)
Definition all_documents : M (list Document) :=
  fun db => (Return (documents db), db).

Definition unprocessed_documents : M (list Document) :=
  fun db => (Return (filter (fun d => negb (processed d)) (documents db)), db).

(** [Document.objects.get_or_create(title=t, defaults={'url': u,
    'processed': False})] *)
Definition get_or_create (t u : str) : M (Document * bool) :=
  fun db =>
    match filter (fun d => str_eqb (title d) t) (documents db) with
    | [] =>
        let d := mk_Document (next_doc_id db) t u false in
        (Return (d, true),
         mk_DB (documents db ++ [d]) (doc_chunks db) (S (next_doc_id db)))
    | [d] => (Return (d, false), db)
    | _ => (Raise MultipleObjectsReturned, db)
    end.

(** [doc.save()] for a row that exists: every column is written back. *)
Definition save (d : Document) : M unit :=
  fun db =>
    (Return tt,
     mk_DB (map (fun d' => if Nat.eqb (doc_id d') (doc_id d) then d else d')
                (documents db))
           (doc_chunks db) (next_doc_id db)).

(** [unique_together = ('document', 'chunk_index')] *)
Definition same_key (a b : DocumentChunk) : bool :=
  Nat.eqb (document a) (document b) && Nat.eqb (chunk_index a) (chunk_index b).

(** [DocumentChunk.objects.create(document=doc, chunk_text=c,
    chunk_index=i)]: the insert is refused when the key is taken. *)
Definition create_chunk (row : DocumentChunk) : M unit :=
  fun db =>
    if existsb (same_key row) (doc_chunks db)
    then (Raise IntegrityError, db)
    else (Return tt,
          mk_DB (documents db) (doc_chunks db ++ [row]) (next_doc_id db)).

(** [Document.objects.all().delete()]: chunks go with their document
    ([on_delete=CASCADE]). *)
Definition delete_all_documents : M unit :=
  fun db => (Return tt, mk_DB [] [] (next_doc_id db)).

(** [DocumentChunk.objects.all().delete()] *)
Definition delete_all_chunks : M unit :=
  fun db => (Return tt, mk_DB (documents db) [] (next_doc_id db)).

(** The key of every stored chunk is taken once. *)
Definition chunk_key (c : DocumentChunk) : nat * nat :=
  (document c, chunk_index c).

Definition unique_together (db : DB) : Prop :=
  NoDup (map chunk_key (doc_chunks db)).

End Models.

(** ** utils.py: text cleaning and chunking *)

Module Utils.
Import Py.

(** [r'\bPage\s+\d+\b'] *)
Definition pat_page : Re.pattern :=
  [Re.WordB; Re.Lit (lit "Page"); Re.Rep is_space 1; Re.Rep is_digit 1; Re.WordB].

(** [r'\b\d+\s+of\s+\d+\b'] *)
Definition pat_n_of_m : Re.pattern :=
  [Re.WordB; Re.Rep is_digit 1; Re.Rep is_space 1; Re.Lit (lit "of");
   Re.Rep is_space 1; Re.Rep is_digit 1; Re.WordB].

(** [r'http\S+'] *)
Definition pat_url : Re.pattern := [Re.Lit (lit "http"); Re.Rep non_space 1].

(** [r'\S+@\S+'] *)
Definition pat_email : Re.pattern :=
  [Re.Rep non_space 1; Re.Lit (lit "@"); Re.Rep non_space 1].

Definition is_dot (c : ascii) : bool := Ascii.eqb c "."%char.
Definition is_hyphen (c : ascii) : bool := Ascii.eqb c "-"%char.

(** [r'\.{2,}'], [r'-{2,}'] and [r'\s+'] *)
Definition pat_dots : Re.pattern := [Re.Rep is_dot 2].
Definition pat_hyphens : Re.pattern := [Re.Rep is_hyphen 2].
Definition pat_spaces : Re.pattern := [Re.Rep is_space 1].

Definition clean_text (text : str) : str :=
  match text with
  | [] => []
  | _ =>
      let text := Re.sub pat_page [] text in
      let text := Re.sub pat_n_of_m [] text in
      let text := Re.sub pat_url [] text in
      let text := Re.sub pat_email [] text in
      let text := Re.sub pat_dots (lit ".") text in
      let text := Re.sub pat_hyphens (lit "-") text in
      strip (Re.sub pat_spaces (lit " ") text)
  end.

(** *** [chunk_text] *)

Definition is_terminator (c : ascii) : bool :=
  Ascii.eqb c "."%char || Ascii.eqb c "!"%char || Ascii.eqb c "?"%char.

(** [r'(?<=[.!?])\s+'] *)
Definition pat_sentence_gap : Re.pattern :=
  [Re.LookBehind is_terminator; Re.Rep is_space 1].

Definition space : str := lit " ".

(** The loop variables of [chunk_text]. *)
Record chunk_state : Type := mk_chunk_state {
  chunks : list str;
  current_chunk : list str;
  current_length : nat
}.

(** One iteration of [for sentence in sentences]. *)
Definition chunk_step (chunk_size overlap : Z)
    (st : chunk_state) (sentence : str) : chunk_state :=
  let sentence_length := word_count sentence in
  let st :=
    if ((chunk_size <? Z.of_nat (current_length st + sentence_length))%Z
        && negb (Nat.eqb (length (current_chunk st)) 0))%bool
    then
      let overlap_start :=
        Z.max 0 (Z.of_nat (length (current_chunk st)) - overlap) in
      let kept := slice_from (Z.to_nat overlap_start) (current_chunk st) in
      mk_chunk_state (chunks st ++ [join space (current_chunk st)])
                     kept
                     (word_count (join space kept))
    else st in
  mk_chunk_state (chunks st)
                 (current_chunk st ++ [sentence])
                 (current_length st + sentence_length).

(** The loop and the final [if current_chunk: chunks.append(...)]. *)
Definition chunk_sentences (chunk_size overlap : Z) (sentences : list str)
  : list str :=
  let st := fold_left (chunk_step chunk_size overlap) sentences
                      (mk_chunk_state [] [] 0) in
  match current_chunk st with
  | [] => chunks st
  | _ => chunks st ++ [join space (current_chunk st)]
  end.

Definition chunk_text (text : str) (chunk_size overlap : Z) : list str :=
  let text := clean_text text in
  if (match text with [] => true | _ => false end
      || (word_count text <? 20))%bool
  then []
  else chunk_sentences chunk_size overlap (Re.split pat_sentence_gap text).

(** The defaults [chunk_size=300, overlap=50]. *)
Definition chunk_text_default (text : str) : list str :=
  chunk_text text 300 50.

(** *** Ingestion: [load_sources], [extract_text_from_pdf],
    [process_documents] *)

Import Models.

(** An entry of [sources.json]. *)
Record Source : Type := mk_Source {
  src_title : str;
  src_url : str
}.

(** [load_sources]; [sources] is the parsed [sources.json], [None] when
    the file cannot be read.  The whole body sits in a [try], so an
    exception stops the loop and is swallowed. *)
Definition load_sources (sources : option (list Source)) : M (list Document) :=
  bind (try_
    match sources with
    | None => ret tt
    | Some sources =>
        for_each sources (fun source =>
          bind (get_or_create (src_title source) (src_url source)) (fun r =>
            let '(doc, created) := r in
            if created then ret tt
            else save (mk_Document (doc_id doc) (title doc)
                                   (src_url source) false)))
    end)
  (fun _ => all_documents).

(** A file of [settings.PDF_DIR]: its name and what [PyPDF2] reads from
    it, [None] when it cannot be opened, and for each page [None] when
    the page raises or has no text. *)
Record PdfFile : Type := mk_PdfFile {
  name : str;
  pages : option (list (option str))
}.

Definition extract_text_from_pdf (f : PdfFile) : str :=
  match pages f with
  | None => []
  | Some ps =>
      concat (map (fun page =>
                match page with
                | Some (c :: t) =>
                    strip (Re.sub pat_spaces space (c :: t)) ++ lit (String "010"%char EmptyString)
                | _ => []
                end) ps)
  end.

(** [s.replace(old, new)] for a one-character [old]. *)
Definition replace_char (old : ascii) (new : str) (s : str) : str :=
  concat (map (fun c => if Ascii.eqb c old then new else [c]) s).

Fixpoint starts_with (p s : str) : bool :=
  match p, s with
  | [], _ => true
  | x :: p', y :: s' => Ascii.eqb x y && starts_with p' s'
  | _ :: _, [] => false
  end.

(** [p in s] *)
Fixpoint contains (p s : str) : bool :=
  starts_with p s || match s with [] => false | _ :: s' => contains p s' end.

Definition ends_with (p s : str) : bool := starts_with (rev p) (rev s).

Definition dot_pdf : str := lit ".pdf".

(** The file names tried for a title, in order. *)
Definition pdf_filename_patterns (t : str) : list str :=
  [ t ++ dot_pdf;
    replace_char " "%char (lit "_") t ++ dot_pdf;
    replace_char " "%char (lit "-") t ++ dot_pdf;
    replace_char "/"%char (lit "_") t ++ dot_pdf;
    replace_char ":"%char [] t ++ dot_pdf;
    replace_char em_dash (lit "_") t ++ dot_pdf;
    replace_char ")"%char [] (replace_char "("%char [] t) ++ dot_pdf ].

Definition find_file (dir : list PdfFile) (n : str) : option PdfFile :=
  find (fun f => str_eqb (name f) n) dir.

Fixpoint first_existing (dir : list PdfFile) (names : list str)
  : option PdfFile :=
  match names with
  | [] => None
  | n :: rest =>
      match find_file dir n with
      | Some f => Some f
      | None => first_existing dir rest
      end
  end.

(** The PDF chosen for a document: an exact pattern first, then the first
    [*.pdf] file whose name contains the title or is contained in it. *)
Definition find_pdf (dir : list PdfFile) (t : str) : option PdfFile :=
  match first_existing dir (pdf_filename_patterns t) with
  | Some f => Some f
  | None =>
      let pdf_files := filter (fun f => ends_with dot_pdf (name f)) dir in
      let doc_title_lower := lower t in
      find (fun f => contains doc_title_lower (lower (name f))
                     || contains (lower (name f)) doc_title_lower) pdf_files
  end.

(** [enumerate(chunks)] *)
Definition enumerate {A : Type} (l : list A) : list (nat * A) :=
  combine (seq 0 (length l)) l.

(** The rows the inner loop creates for a document, in order: chunks of
    fewer than 10 words are passed over, their position is not reused. *)
Definition chunk_rows (doc : Document) (chunks : list str)
  : list DocumentChunk :=
  map (fun ic => mk_DocumentChunk (doc_id doc) (snd ic) (fst ic))
      (filter (fun ic => negb (word_count (snd ic) <? 10)) (enumerate chunks)).

(** The body of [for doc in documents]; every [continue] leaves the
    document untouched. *)
Definition process_document (dir : list PdfFile) (doc : Document) : M unit :=
  match find_pdf dir (title doc) with
  | None => ret tt
  | Some pdf =>
      let text := extract_text_from_pdf pdf in
      match text with
      | [] => ret tt
      | _ =>
          if word_count text <? 50 then ret tt
          else
            bind (for_each (chunk_rows doc (chunk_text_default text))
                           create_chunk)
                 (fun _ => save (mk_Document (doc_id doc) (title doc)
                                             (url doc) true))
      end
  end.

Definition process_documents (dir : list PdfFile) : M unit :=
  bind unprocessed_documents (fun documents =>
    for_each documents (process_document dir)).

End Utils.


(** ** embeddings.py: the vector retrieval adapter *)

Module Embeddings.
Import Py.

Local Open Scope Q_scope.

(** The metadata stored with a vector by [generate_embeddings]. *)
Record Metadata : Type := mk_Metadata {
  md_document_id : nat;
  md_chunk_index : nat;
  md_document_title : str;
  md_document_url : str;
  md_original_text : str
}.

(** What [collection.query] answers: one inner list per query vector;
    [distances] may be absent. *)
Record QueryResult : Type := mk_QueryResult {
  ids : list (list str);
  documents : list (list str);
  metadatas : list (list Metadata);
  distances : option (list (list Q))
}.

(** The Chroma collection as seen by a query: [query_embeddings] and
    [n_results] in, the answer out, [None] when the call raises. *)
Definition Collection : Type := list (list Q) -> Z -> option QueryResult.

(** A candidate, the dictionary built by [search_embeddings]. *)
Record Candidate : Type := mk_Candidate {
  chunk_text : str;
  cleaned_text : str;
  document_title : str;
  document_url : str;
  chunk_index : nat;
  score : Q
}.

Definition clean_chunk_text (text : str) : str :=
  match text with
  | [] => []
  | _ =>
      let text := strip (Re.sub Utils.pat_spaces (lit " ") text) in
      let text := Re.sub Utils.pat_page [] text in
      Re.sub Utils.pat_n_of_m [] text
  end.

(** [xs[0][i]]; [None] stands for the [IndexError]. *)
Definition at0 {A : Type} (xs : list (list A)) (i : nat) : option A :=
  match xs with
  | [] => None
  | x0 :: _ => nth_error x0 i
  end.

(** The ['score'] entry for position [i]. *)
Definition score_at (r : QueryResult) (i : nat) : option Q :=
  match distances r with
  | Some ((_ :: _) as d0 :: _) =>
      match nth_error d0 i with
      | Some d => Some (1 - d)
      | None => None
      end
  | _ => Some 1
  end.

Definition format_one (r : QueryResult) (i : nat) : option Candidate :=
  match at0 (metadatas r) i, at0 (documents r) i, score_at r i with
  | Some md, Some doc, Some sc =>
      Some (mk_Candidate (md_original_text md) doc (md_document_title md)
                         (md_document_url md) (md_chunk_index md) sc)
  | _, _, _ => None
  end.

(** The loop [for i in range(len(results['ids'][0]))]; [None] when an
    iteration raises. *)
Fixpoint format_all (r : QueryResult) (positions : list nat)
  : option (list Candidate) :=
  match positions with
  | [] => Some []
  | i :: rest =>
      match format_one r i with
      | Some c =>
          match format_all r rest with
          | Some cs => Some (c :: cs)
          | None => None
          end
      | None => None
      end
  end.

Definition format_results (r : QueryResult) : option (list Candidate) :=
  match ids r with
  | (_ :: _) as ids0 :: _ => format_all r (seq 0 (length ids0))
  | _ => Some []
  end.

Section Search.

(** [model.encode(text).tolist()] *)
Variable encode : str -> list Q.

(** The module-level [collection], [None] when Chroma failed to start. *)
Variable collection : option Collection.

Definition search_embeddings (query : str) (k : Z) : list Candidate :=
  match collection with
  | None => []
  | Some coll =>
      let clean_query := clean_chunk_text query in
      let query_embedding := encode clean_query in
      match coll [query_embedding] (k * 2)%Z with
      | None => []
      | Some results =>
          match format_results results with
          | Some formatted_results => formatted_results
          | None => []
          end
      end
  end.

End Search.

End Embeddings.

(** ** reranker.py: the hybrid reranker *)

Module Reranker.
Import Py.
Import Embeddings.

Local Open Scope Q_scope.

(** [np.min] and [np.max] of a non-empty array. *)
Definition np_min (l : list Q) : Q :=
  match l with
  | [] => 0
  | x :: rest => fold_left Qmin rest x
  end.

Definition np_max (l : list Q) : Q :=
  match l with
  | [] => 0
  | x :: rest => fold_left Qmax rest x
  end.

Definition Qltb (a b : Q) : bool := negb (Qle_bool b a).

(** The normalisation block of [rerank], written twice in the source
    (for [bm25_scores] and for [vector_scores]). *)
Definition normalize_scores (scores : list Q) : list Q :=
  if (negb (Nat.eqb (length scores) 0) && Qltb (np_min scores) (np_max scores))%bool
  then map (fun x => (x - np_min scores) / (np_max scores - np_min scores)) scores
  else map (fun _ => 1 * (1 # 2)) scores.

(** [np.argsort] is NumPy's, and the reranker takes it as a parameter
    [argsort].  NumPy's default sort is not stable, so what the code can
    rely on is this: the result lists every position of the array once,
    in ascending order of value; the order of positions that hold equal
    values is left open. *)
Definition sorts_ascending (argsort : list Q -> list nat) : Prop :=
  forall a : list Q,
    Permutation (argsort a) (seq 0 (length a))
    /\ StronglySorted (fun i j => nth i a 0 <= nth j a 0) (argsort a).

(** Stable insertion of [(score, position)] into an ascending list. *)
Fixpoint insert_asc (x : Q * nat) (l : list (Q * nat)) : list (Q * nat) :=
  match l with
  | [] => [x]
  | y :: rest =>
      if Qle_bool (fst x) (fst y) then x :: l else y :: insert_asc x rest
  end.

Fixpoint sort_asc (l : list (Q * nat)) : list (Q * nat) :=
  match l with
  | [] => []
  | x :: rest => insert_asc x (sort_asc rest)
  end.

(** One function that sorts ascending, used where an example needs a
    concrete [argsort]: the stable sort, which leaves the positions of
    equal values in increasing order ([np.argsort(a, kind='stable')]). *)
Definition stable_argsort (a : list Q) : list nat :=
  map snd (sort_asc (combine a (seq 0 (length a)))).

(** A reranked result: the candidate with ['score'] replaced by the
    combined score, and the three scores kept alongside. *)
Record ScoredCandidate : Type := mk_ScoredCandidate {
  candidate : Candidate;
  vector_score : Q;
  bm25_score : Q;
  title_score : Q
}.

Definition with_score (c : Candidate) (s : Q) : Candidate :=
  mk_Candidate (chunk_text c) (cleaned_text c) (document_title c)
               (document_url c) (chunk_index c) s.

(** [set(tokens)]: the distinct tokens. *)
Fixpoint to_set (l : list str) : list str :=
  match l with
  | [] => []
  | x :: rest =>
      if existsb (str_eqb x) rest then to_set rest else x :: to_set rest
  end.

Section HybridReranker.

(** [sklearn]'s [ENGLISH_STOP_WORDS]. *)
Variable stop_words : list str.

(** [BM25Okapi(tokenized_corpus)]: [None] when the constructor raises,
    otherwise the [get_scores] method of the index. *)
Variable BM25Okapi : list (list str) -> option (list str -> list Q).

(** [np.argsort] *)
Variable argsort : list Q -> list nat.

(** [r'\b\w+\b'] *)
Definition pat_word : Re.pattern := [Re.WordB; Re.Rep is_word 1; Re.WordB].

Definition _tokenize (text : str) : list str :=
  filter (fun token => negb (existsb (str_eqb token) stop_words)
                       && (2 <? length token)%nat)
         (Re.findall pat_word (lower text)).

Definition _calculate_title_match (query document_title : str) : Q :=
  let query_words := to_set (_tokenize query) in
  let title_words := to_set (_tokenize document_title) in
  match query_words with
  | [] => 0
  | _ =>
      let intersection :=
        filter (fun w => existsb (str_eqb w) title_words) query_words in
      inject_Z (Z.of_nat (length intersection))
      / inject_Z (Z.of_nat (length query_words))
  end.

(** [min(1.0, len(doc['cleaned_text'].split()) / 100)] *)
Definition length_score (doc : Candidate) : Q :=
  Qmin 1 (inject_Z (Z.of_nat (word_count (cleaned_text doc))) / 100).

(** [alpha * vector_scores_norm + 0.3 * bm25_scores + 0.05 * title_scores
    + 0.05 * length_scores], position by position. *)
Definition combine_scores (alpha : Q)
    (vector_scores_norm bm25_scores title_scores length_scores : list Q)
  : list Q :=
  map (fun i =>
         alpha * nth i vector_scores_norm 0
         + (3 # 10) * nth i bm25_scores 0
         + (5 # 100) * nth i title_scores 0
         + (5 # 100) * nth i length_scores 0)
      (seq 0 (length vector_scores_norm)).

(** The arrays [rerank] computes before sorting. *)
Record scores : Type := mk_scores {
  s_vector : list Q;
  s_bm25 : list Q;
  s_title : list Q;
  s_combined : list Q
}.

(** One reranked result, for position [idx] of the corpus. *)
Definition result_at (corpus : list Candidate) (sc : scores) (idx : nat)
  : option ScoredCandidate :=
  match nth_error corpus idx, nth_error (s_combined sc) idx,
        nth_error (s_vector sc) idx, nth_error (s_bm25 sc) idx,
        nth_error (s_title sc) idx with
  | Some doc, Some c, Some v, Some b, Some t =>
      Some (mk_ScoredCandidate (with_score doc c) v b t)
  | _, _, _, _, _ => None
  end.

Fixpoint collect {A : Type} (l : list (option A)) : option (list A) :=
  match l with
  | [] => Some []
  | Some x :: rest =>
      match collect rest with
      | Some xs => Some (x :: xs)
      | None => None
      end
  | None :: _ => None
  end.

(** The score arrays of [rerank(query, vector_scores, alpha)] over an
    index [get_scores] built from [corpus]. *)
Definition rerank_scores (corpus : list Candidate)
    (get_scores : list str -> list Q)
    (query : str) (vector_scores : list Q) (alpha : Q) : scores :=
  let tokenized_query := _tokenize query in
  let bm25_scores := normalize_scores (get_scores tokenized_query) in
  let vector_scores_norm := normalize_scores vector_scores in
  let title_scores :=
    map (fun doc => _calculate_title_match query (document_title doc)) corpus in
  let length_scores := map length_score corpus in
  mk_scores vector_scores bm25_scores title_scores
            (combine_scores alpha vector_scores_norm bm25_scores
                            title_scores length_scores).

(** [HybridReranker(corpus).rerank(query, vector_scores, alpha)]; [None]
    when the constructor raises, when the arrays do not have the length
    of the corpus, or when a position is out of range. *)
Definition rerank (corpus : list Candidate)
    (query : str) (vector_scores : list Q) (alpha : Q)
  : option (list ScoredCandidate) :=
  match BM25Okapi (map (fun doc => _tokenize (cleaned_text doc)) corpus) with
  | None => None
  | Some get_scores =>
      let sc := rerank_scores corpus get_scores query vector_scores alpha in
      if (Nat.eqb (length vector_scores) (length corpus)
          && Nat.eqb (length (s_bm25 sc)) (length corpus))%bool
      then
        let sorted_indices := rev (argsort (s_combined sc)) in
        collect (map (result_at corpus sc) sorted_indices)
      else None
  end.

(** The default [alpha=0.6]. *)
Definition default_alpha : Q := 6 # 10.

End HybridReranker.

End Reranker.

(** ** views.py: answer synthesis *)

Module Views.
Import Py.
Import Embeddings.

Local Open Scope Q_scope.

Definition truncate_answer (text : str) (max_length : Z) : str :=
  if (Z.of_nat (length text) <=? max_length)%Z then text
  else
    let truncated := slice_to max_length text in
    let last_period := rfind "."%char truncated in
    let last_exclamation := rfind "!"%char truncated in
    let last_question := rfind "?"%char truncated in
    let sentence_end :=
      Z.max (Z.max last_period last_exclamation) last_question in
    if (0 <? sentence_end)%Z
    then slice_to (sentence_end + 1) truncated ++ lit ".."
    else truncated ++ lit "...".

(** An entry of ['contexts']. *)
Record Context : Type := mk_Context {
  ctx_text : str;
  ctx_score : Q;
  ctx_title : str;
  ctx_url : str;
  ctx_chunk_index : nat
}.

(** The JSON body of a successful answer. *)
Record AnswerResult : Type := mk_AnswerResult {
  answer : option str;
  contexts : list Context;
  reranker_used : bool;
  query : str
}.

Inductive Response : Type :=
  | Json (r : AnswerResult)
  | Error (status : nat).

Definition confidence_threshold : Q := 3 # 10.

Definition context_of (result : Candidate) : Context :=
  mk_Context (chunk_text result) (score result) (document_title result)
             (document_url result) (chunk_index result).

(** "Generate answer from top results": the pair [(answer, contexts)]. *)
Definition generate_answer (results : list Candidate)
  : option str * list Context :=
  match results with
  | [] => (None, [])
  | _ =>
      let top_results :=
        filter (fun r => Qle_bool confidence_threshold (score r)) results in
      match top_results with
      | [] => (None, [])
      | _ =>
          let answer_chunks := map chunk_text (slice_to 3 top_results) in
          let answer := truncate_answer (join (lit " ") answer_chunks) 500 in
          (Some answer, map context_of results)
      end
  end.

Section AskApi.

Variable encode : str -> list Q.
Variable collection : option Collection.
Variable stop_words : list str.
Variable BM25Okapi : list (list str) -> option (list str -> list Q).
Variable argsort : list Q -> list nat.

(** [ask_api] on a request whose body parsed to [q], [k] and [mode]; an
    exception below the view becomes status 500. *)
Definition ask_api (method q : str) (k : Z) (mode : str) : Response :=
  if negb (str_eqb method (lit "POST")) then Error 405
  else
    match q with
    | [] => Error 400
    | _ =>
        let baseline_results :=
          search_embeddings encode collection q (k * 2)%Z in
        let ranked : option (list Candidate * bool) :=
          if str_eqb mode (lit "baseline")
          then Some (slice_to k baseline_results, false)
          else
            match baseline_results with
            | [] => Some ([], false)
            | _ =>
                let vector_scores := map score baseline_results in
                match Reranker.rerank stop_words BM25Okapi argsort
                        baseline_results q vector_scores
                        Reranker.default_alpha with
                | Some reranked =>
                    Some (slice_to k (map Reranker.candidate reranked), true)
                | None => None
                end
            end in
        match ranked with
        | None => Error 500
        | Some (results, reranker_used) =>
            let '(answer, contexts) := generate_answer results in
            Json (mk_AnswerResult answer contexts reranker_used q)
        end
    end.

End AskApi.

(** The store part of [initialize_system] on a POST request: clear both
    tables, load the sources and, when [check_pdf_files] finds a PDF,
    process the documents (rendering and [generate_embeddings] are left
    out). *)
Definition initialize_system (sources : option (list Utils.Source))
    (dir : list Utils.PdfFile) : Models.M unit :=
  Models.bind Models.delete_all_documents (fun _ =>
  Models.bind Models.delete_all_chunks (fun _ =>
  Models.bind (Utils.load_sources sources) (fun _ =>
    let pdf_files :=
      filter (fun f => Utils.ends_with Utils.dot_pdf (Utils.name f)) dir in
    match pdf_files with
    | [] => Models.ret tt
    | _ => Utils.process_documents dir
    end))).

End Views.

(** ** rename_pdfs.py: the renaming script *)

Module RenamePdfs.
Import Py Utils.

(** [f"{title}.pdf".replace(" ", "_").replace("/", "_").replace(":", "")
    .replace(em dash, "_")] *)
Definition expected_filename (title : str) : str :=
  replace_char em_dash (lit "_")
    (replace_char ":"%char []
       (replace_char "/"%char (lit "_")
          (replace_char " "%char (lit "_") (title ++ dot_pdf)))).

(** "Check if this PDF might be the right one". *)
Definition might_match (title : str) (pdf_file : PdfFile) : bool :=
  let pdf_name := lower (name pdf_file) in
  let title_lower := lower title in
  existsb (fun word => contains word pdf_name)
          (firstn 3 (Py.split title_lower))
  || starts_with (replace_char " "%char (lit "_") (firstn 10 title_lower))
                 pdf_name.

Definition exists_in (dir : list PdfFile) (n : str) : bool :=
  existsb (fun f => str_eqb (name f) n) dir.

(** [old.rename(new)] in the directory. *)
Definition rename (old new : str) (dir : list PdfFile) : list PdfFile :=
  map (fun f => if str_eqb (name f) old then mk_PdfFile new (pages f) else f)
      dir.

(** The body of [for source in sources]: the first file of the listing
    taken at the start that might match is renamed, unless the expected
    name is taken; a failing rename is reported and changes nothing. *)
Definition rename_one (pdf_files : list PdfFile)
    (dir : list PdfFile) (source : Source) : list PdfFile :=
  let title := src_title source in
  match find (might_match title) pdf_files with
  | None => dir
  | Some pdf_file =>
      if exists_in dir (expected_filename title) then dir
      else if exists_in dir (name pdf_file)
           then rename (name pdf_file) (expected_filename title) dir
           else dir
  end.

(** [rename_pdfs_to_match_titles] on a readable [sources.json]: the
    directory after the run. *)
Definition rename_pdfs_to_match_titles (sources : list Source)
    (dir : list PdfFile) : list PdfFile :=
  let pdf_files := filter (fun f => ends_with dot_pdf (name f)) dir in
  fold_left (rename_one pdf_files) sources dir.

End RenamePdfs.

(** ** embeddings.py: filling the vector store *)

Module GenerateEmbeddings.
Import Py Embeddings.

(** [str(n)] for a number that is not negative. *)
Definition str_of_nat (n : nat) : str :=
  list_ascii_of_string
    (DecimalString.NilEmpty.string_of_uint (Nat.to_uint n)).

(** [f"{chunk.document.id}_{chunk.chunk_index}"] *)
Definition chunk_id (document_id chunk_index : nat) : str :=
  str_of_nat document_id ++ lit "_" ++ str_of_nat chunk_index.

(** What is handed to [collection.add] for one chunk. *)
Record EmbeddingRecord : Type := mk_EmbeddingRecord {
  rec_id : str;
  rec_document : str;
  rec_embedding : list Q;
  rec_metadata : Metadata
}.

(** [chunk.document]: the row the foreign key points to. *)
Definition document_of (db : Models.DB) (chunk : Models.DocumentChunk)
  : option Models.Document :=
  find (fun d => Nat.eqb (Models.doc_id d) (Models.document chunk))
       (Models.documents db).

Section Generate.

(** [model.encode(text).tolist()] *)
Variable encode : str -> list Q.

(** The loop over the chunks; [None] when a foreign key dangles and
    [chunk.document] raises. *)
Fixpoint prepare (db : Models.DB) (chunks : list Models.DocumentChunk)
  : option (list EmbeddingRecord) :=
  match chunks with
  | [] => Some []
  | chunk :: rest =>
      let clean_text := clean_chunk_text (Models.chunk_text chunk) in
      if (match clean_text with [] => true | _ => false end
          || (word_count clean_text <? 5))%bool
      then prepare db rest
      else
        match document_of db chunk with
        | None => None
        | Some doc =>
            let record :=
              mk_EmbeddingRecord
                (chunk_id (Models.doc_id doc) (Models.chunk_index chunk))
                clean_text (encode clean_text)
                (mk_Metadata (Models.doc_id doc) (Models.chunk_index chunk)
                             (Models.title doc) (Models.url doc)
                             (Models.chunk_text chunk)) in
            match prepare db rest with
            | Some records => Some (record :: records)
            | None => None
            end
        end
  end.

(** [[l[i:i+batch_size] for i in range(0, len(l), batch_size)]] *)
Definition batches {A : Type} (batch_size : nat) (l : list A) : list (list A) :=
  map (fun j => firstn batch_size (skipn (j * batch_size) l))
      (seq 0 ((length l + (batch_size - 1)) / batch_size)).

(** A call made on the collection. *)
Inductive call : Type :=
  | Delete                               (* collection.delete(where={}) *)
  | Add (batch : list EmbeddingRecord).  (* collection.add(...) *)

(** [generate_embeddings]: the calls made on the collection, in order
    (whether a call raises makes no difference, each sits in its own
    [try]); [None] when the preparation loop raises.  Without a
    collection nothing is done. *)
Definition generate_embeddings (collection_available : bool)
    (db : Models.DB) : option (list call) :=
  if collection_available
  then match prepare db (Models.doc_chunks db) with
       | Some records => Some (Delete :: map Add (batches 50 records))
       | None => None
       end
  else Some [].

End Generate.

End GenerateEmbeddings.

(** ** forms.py and the [ask] view *)

Module Forms.
Import Py.

(** The data of a submitted [QueryForm]; [None] stands for a field that
    is missing and, for [top_k], also for a value that is not a number. *)
Record QueryData : Type := mk_QueryData {
  raw_query : option str;
  raw_top_k : option Z;
  raw_mode : option str
}.

Record CleanedData : Type := mk_CleanedData {
  cd_query : str;
  cd_top_k : Z;
  cd_mode : str
}.

Definition NUL : ascii := "000"%char.

(** [query = forms.CharField(max_length=500)]: a required field, stripped
    before it is checked. *)
Definition clean_query (raw : option str) : option str :=
  match raw with
  | None => None
  | Some value =>
      let value := strip value in
      match value with
      | [] => None
      | _ =>
          if existsb (Ascii.eqb NUL) value then None
          else if (length value <=? 500)%nat then Some value else None
      end
  end.

(** [top_k = forms.IntegerField(min_value=1, max_value=10)] *)
Definition clean_top_k (raw : option Z) : option Z :=
  match raw with
  | None => None
  | Some value => if ((1 <=? value) && (value <=? 10))%Z then Some value else None
  end.

(** [mode = forms.ChoiceField(choices=mode_choices)] *)
Definition mode_choices : list str := [lit "baseline"; lit "reranked"].

Definition clean_mode (raw : option str) : option str :=
  match raw with
  | None => None
  | Some value => if existsb (str_eqb value) mode_choices then Some value else None
  end.

(** [form.is_valid()] with [form.cleaned_data]. *)
Definition is_valid (data : QueryData) : option CleanedData :=
  match clean_query (raw_query data), clean_top_k (raw_top_k data),
        clean_mode (raw_mode data) with
  | Some q, Some k, Some m => Some (mk_CleanedData q k m)
  | _, _, _ => None
  end.

End Forms.

Module AskView.
Import Py Embeddings Views Forms.

(** What [ask] renders: the results page with its context, or the page
    with the form. *)
Inductive Page : Type :=
  | Results (query : str) (answer : option str) (contexts : list Context)
            (reranker_used : bool) (mode : str)
  | AskForm.

Section Ask.

Variable encode : str -> list Q.
Variable collection : option Collection.
Variable stop_words : list str.
Variable BM25Okapi : list (list str) -> option (list str -> list Q).
Variable argsort : list Q -> list nat.

(** [ask(request)]: a valid POST is passed on to [ask_api] as a POST
    request; the page shows what the JSON answer holds under ['answer'],
    ['contexts'] and ['reranker_used'], with the defaults of [dict.get]
    when the answer is an error. *)
Definition ask (method : str) (data : QueryData) : Page :=
  if str_eqb method (lit "POST")
  then match is_valid data with
       | Some cleaned =>
           match ask_api encode collection stop_words BM25Okapi argsort
                         (lit "POST") (cd_query cleaned) (cd_top_k cleaned)
                         (cd_mode cleaned) with
           | Json r =>
               Results (cd_query cleaned) (answer r) (contexts r)
                       (reranker_used r) (cd_mode cleaned)
           | Error _ =>
               Results (cd_query cleaned) None [] false (cd_mode cleaned)
           end
       | None => AskForm
       end
  else AskForm.

End Ask.

End AskView.

(** * Properties *)

(** ** Score normalisation *)

Module NormalizeFacts.
Import Reranker.

Local Open Scope Q_scope.

Lemma fold_min_le_init (rest : list Q) (x : Q) : fold_left Qmin rest x <= x.
Proof.
  revert x. induction rest as [|y rest IH]; intro x; simpl.
  - apply Qle_refl.
  - eapply Qle_trans; [apply IH | apply Q.le_min_l].
Qed.

Lemma fold_min_le_In (rest : list Q) (x y : Q) :
  In y rest -> fold_left Qmin rest x <= y.
Proof.
  revert x. induction rest as [|z rest IH]; intros x Hin; simpl in *.
  - contradiction.
  - destruct Hin as [->|Hin].
    + eapply Qle_trans; [apply fold_min_le_init | apply Q.le_min_r].
    + now apply IH.
Qed.

Lemma fold_min_attained (rest : list Q) (x : Q) :
  exists y, In y (x :: rest) /\ fold_left Qmin rest x == y.
Proof.
  revert x. induction rest as [|z rest IH]; intro x; simpl.
  - exists x. split; [now left | reflexivity].
  - destruct (IH (Qmin x z)) as [y [[Hy|Hy] Heq]].
    + destruct (Q.min_dec x z) as [H|H].
      * exists x. split; [now left|]. now rewrite Heq, <- Hy.
      * exists z. split; [right; now left|]. now rewrite Heq, <- Hy.
    + exists y. split; [right; now right | exact Heq].
Qed.

Lemma fold_max_ge_init (rest : list Q) (x : Q) : x <= fold_left Qmax rest x.
Proof.
  revert x. induction rest as [|y rest IH]; intro x; simpl.
  - apply Qle_refl.
  - eapply Qle_trans; [apply Q.le_max_l | apply IH].
Qed.

Lemma fold_max_ge_In (rest : list Q) (x y : Q) :
  In y rest -> y <= fold_left Qmax rest x.
Proof.
  revert x. induction rest as [|z rest IH]; intros x Hin; simpl in *.
  - contradiction.
  - destruct Hin as [->|Hin].
    + eapply Qle_trans; [apply Q.le_max_r | apply fold_max_ge_init].
    + now apply IH.
Qed.

Lemma fold_max_attained (rest : list Q) (x : Q) :
  exists y, In y (x :: rest) /\ fold_left Qmax rest x == y.
Proof.
  revert x. induction rest as [|z rest IH]; intro x; simpl.
  - exists x. split; [now left | reflexivity].
  - destruct (IH (Qmax x z)) as [y [[Hy|Hy] Heq]].
    + destruct (Q.max_dec x z) as [H|H].
      * exists x. split; [now left|]. now rewrite Heq, <- Hy.
      * exists z. split; [right; now left|]. now rewrite Heq, <- Hy.
    + exists y. split; [right; now right | exact Heq].
Qed.

Lemma np_min_le (l : list Q) (x : Q) : In x l -> np_min l <= x.
Proof.
  destruct l as [|a rest]; simpl; [contradiction|].
  intros [->|Hin]; [apply fold_min_le_init | now apply fold_min_le_In].
Qed.

Lemma np_max_ge (l : list Q) (x : Q) : In x l -> x <= np_max l.
Proof.
  destruct l as [|a rest]; simpl; [contradiction|].
  intros [->|Hin]; [apply fold_max_ge_init | now apply fold_max_ge_In].
Qed.

Lemma np_min_attained (l : list Q) :
  l <> [] -> exists y, In y l /\ np_min l == y.
Proof.
  destruct l as [|a rest]; [congruence|]. intros _. apply fold_min_attained.
Qed.

Lemma np_max_attained (l : list Q) :
  l <> [] -> exists y, In y l /\ np_max l == y.
Proof.
  destruct l as [|a rest]; [congruence|]. intros _. apply fold_max_attained.
Qed.

Lemma np_min_le_max (l : list Q) : l <> [] -> np_min l <= np_max l.
Proof.
  intro H. destruct (np_min_attained l H) as [y [Hin Heq]].
  rewrite Heq. now apply np_max_ge.
Qed.

Lemma Qltb_true (a b : Q) : Qltb a b = true <-> a < b.
Proof.
  unfold Qltb. rewrite negb_true_iff.
  destruct (Qle_bool b a) eqn:E.
  - apply Qle_bool_iff in E. split; [discriminate | intro; lra].
  - split; [intros _|reflexivity].
    apply Qnot_le_lt. intro H. apply Qle_bool_iff in H. congruence.
Qed.

Lemma Qltb_false (a b : Q) : Qltb a b = false <-> b <= a.
Proof.
  destruct (Qltb a b) eqn:E.
  - apply Qltb_true in E. split; [discriminate | intro; lra].
  - split; [intros _|reflexivity].
    apply Qnot_lt_le. intro H. apply Qltb_true in H. congruence.
Qed.

Lemma length_normalize_scores (l : list Q) :
  length (normalize_scores l) = length l.
Proof.
  unfold normalize_scores.
  destruct (_ && _)%bool; apply length_map.
Qed.

(** The two branches of the normalisation. *)
Lemma normalize_scores_spread (l : list Q) :
  l <> [] -> np_min l < np_max l ->
  normalize_scores l =
  map (fun x => (x - np_min l) / (np_max l - np_min l)) l.
Proof.
  intros Hne Hlt. unfold normalize_scores.
  destruct l as [|a rest]; [congruence|].
  apply Qltb_true in Hlt. cbn [length Nat.eqb negb andb]. now rewrite Hlt.
Qed.

Lemma normalize_scores_flat (l : list Q) :
  np_max l <= np_min l -> normalize_scores l = map (fun _ => 1 # 2) l.
Proof.
  intro Hle. unfold normalize_scores.
  apply Qltb_false in Hle. rewrite Hle, andb_false_r. reflexivity.
Qed.

Lemma nth_map_lt {A B : Type} (f : A -> B) (l : list A) (i : nat) (d : A) (d' : B) :
  (i < length l)%nat -> nth i (map f l) d' = f (nth i l d).
Proof.
  revert i. induction l as [|a l IH]; intros [|i] Hi; simpl in *;
    try lia; [reflexivity | apply IH; lia].
Qed.

Lemma nth_normalize_spread (l : list Q) (i : nat) :
  l <> [] -> np_min l < np_max l -> (i < length l)%nat ->
  nth i (normalize_scores l) 0 ==
  (nth i l 0 - np_min l) / (np_max l - np_min l).
Proof.
  intros Hne Hlt Hi. rewrite normalize_scores_spread by assumption.
  rewrite (nth_map_lt _ l i 0 0 Hi). reflexivity.
Qed.

Lemma nth_normalize_flat (l : list Q) (i : nat) :
  np_max l <= np_min l -> (i < length l)%nat ->
  nth i (normalize_scores l) 0 == 1 # 2.
Proof.
  intros Hle Hi. rewrite normalize_scores_flat by assumption.
  rewrite (nth_map_lt _ l i 0 0 Hi). reflexivity.
Qed.

Lemma Qdiv_unit_interval (a d : Q) : 0 <= a -> a <= d -> 0 < d -> 0 <= a / d <= 1.
Proof.
  intros Ha Had Hd. split.
  - apply Qle_shift_div_l; [exact Hd | lra].
  - apply Qle_shift_div_r; [exact Hd | lra].
Qed.

(** C6. Min-max normalisation of a non-empty score list, as [rerank]
    applies it to the BM25 scores and to the vector scores: when the
    maximum exceeds the minimum every normalised score lies in [0,1], a
    score equal to the minimum becomes 0, a score equal to the maximum
    becomes 1 and both values are reached; when maximum and minimum
    coincide every normalised score is 0.5. *)
Theorem normalize_scores_span (l : list Q) :
  l <> [] ->
  (np_min l < np_max l ->
     (forall x, In x (normalize_scores l) -> 0 <= x <= 1)
     /\ (forall i, (i < length l)%nat -> nth i l 0 == np_min l ->
                   nth i (normalize_scores l) 0 == 0)
     /\ (forall i, (i < length l)%nat -> nth i l 0 == np_max l ->
                   nth i (normalize_scores l) 0 == 1)
     /\ (exists i, (i < length l)%nat /\ nth i (normalize_scores l) 0 == 0)
     /\ (exists j, (j < length l)%nat /\ nth j (normalize_scores l) 0 == 1))
  /\ (np_min l == np_max l ->
      forall x, In x (normalize_scores l) -> x == 1 # 2).
Proof.
  intro Hne. split.
  - intro Hlt.
    assert (Hzero : forall i, (i < length l)%nat -> nth i l 0 == np_min l ->
                              nth i (normalize_scores l) 0 == 0).
    { intros i Hi Heq. rewrite nth_normalize_spread by assumption.
      rewrite Heq. field. lra. }
    assert (Hone : forall i, (i < length l)%nat -> nth i l 0 == np_max l ->
                             nth i (normalize_scores l) 0 == 1).
    { intros i Hi Heq. rewrite nth_normalize_spread by assumption.
      rewrite Heq. field. lra. }
    repeat split.
    + rewrite normalize_scores_spread in H by assumption.
      apply in_map_iff in H. destruct H as [y [<- Hy]].
      apply Qdiv_unit_interval; [| |lra];
        pose proof (np_min_le l y Hy); pose proof (np_max_ge l y Hy); lra.
    + rewrite normalize_scores_spread in H by assumption.
      apply in_map_iff in H. destruct H as [y [<- Hy]].
      apply Qdiv_unit_interval; [| |lra];
        pose proof (np_min_le l y Hy); pose proof (np_max_ge l y Hy); lra.
    + exact Hzero.
    + exact Hone.
    + destruct (np_min_attained l Hne) as [y [Hin Heq]].
      destruct (In_nth l y 0 Hin) as [i [Hi Hnth]].
      exists i. split; [exact Hi|]. apply Hzero; [exact Hi|].
      rewrite Hnth. symmetry. exact Heq.
    + destruct (np_max_attained l Hne) as [y [Hin Heq]].
      destruct (In_nth l y 0 Hin) as [i [Hi Hnth]].
      exists i. split; [exact Hi|]. apply Hone; [exact Hi|].
      rewrite Hnth. symmetry. exact Heq.
  - intros Heq x Hin.
    rewrite normalize_scores_flat in Hin by lra.
    apply in_map_iff in Hin. destruct Hin as [y [<- _]]. reflexivity.
Qed.

Lemma normalize_scores_span_witness :
  let l := [1 # 10; 9 # 10; 1 # 2] in
  l <> [] /\ np_min l < np_max l
  /\ forall x, In x (normalize_scores l) -> 0 <= x <= 1.
Proof.
  split; [discriminate|]. split; [reflexivity|].
  apply (proj1 (normalize_scores_span [1 # 10; 9 # 10; 1 # 2]
                  ltac:(discriminate))).
  reflexivity.
Defined.

End NormalizeFacts.

(** ** Fusion *)

Module FusionFacts.
Import Embeddings Reranker NormalizeFacts.

Local Open Scope Q_scope.

Lemma np_min_le_nth (l : list Q) (j : nat) :
  (j < length l)%nat -> np_min l <= nth j l 0.
Proof. intro Hj. apply np_min_le. now apply nth_In. Qed.

Lemma np_max_ge_nth (l : list Q) (j : nat) :
  (j < length l)%nat -> nth j l 0 <= np_max l.
Proof. intro Hj. apply np_max_ge. now apply nth_In. Qed.

Lemma np_min_at (l : list Q) :
  l <> [] -> exists j, (j < length l)%nat /\ nth j l 0 == np_min l.
Proof.
  intro Hne. destruct (np_min_attained l Hne) as [y [Hin Heq]].
  destruct (In_nth l y 0 Hin) as [j [Hj Hnth]].
  exists j. split; [exact Hj|]. rewrite Hnth. symmetry. exact Heq.
Qed.

Lemma np_max_at (l : list Q) :
  l <> [] -> exists j, (j < length l)%nat /\ nth j l 0 == np_max l.
Proof.
  intro Hne. destruct (np_max_attained l Hne) as [y [Hin Heq]].
  destruct (In_nth l y 0 Hin) as [j [Hj Hnth]].
  exists j. split; [exact Hj|]. rewrite Hnth. symmetry. exact Heq.
Qed.

Lemma Qdiv_le_mono (a b d : Q) : 0 < d -> a <= b -> a / d <= b / d.
Proof.
  intros Hd Hab. unfold Qdiv. apply Qmult_le_compat_r; [exact Hab|].
  apply Qinv_le_0_compat. lra.
Qed.

Section OneScoreRaised.

(** Two score lists that differ only at position [i], where the second
    holds the larger value. *)
Variables (vs vs' : list Q) (i : nat).
Hypothesis same_length : length vs' = length vs.
Hypothesis in_range : (i < length vs)%nat.
Hypothesis others_fixed : forall j, j <> i -> nth j vs' 0 == nth j vs 0.
Hypothesis raised : nth i vs 0 <= nth i vs' 0.

Let vs_nonempty : vs <> [].
Proof. intro E. rewrite E in in_range. simpl in in_range. lia. Qed.

Let vs'_nonempty : vs' <> [].
Proof.
  intro E. rewrite E in same_length. simpl in same_length.
  rewrite <- same_length in in_range. lia.
Qed.

Lemma pointwise_le (j : nat) : (j < length vs)%nat -> nth j vs 0 <= nth j vs' 0.
Proof.
  intros Hj. destruct (Nat.eq_dec j i) as [->|Hne]; [exact raised|].
  rewrite (others_fixed j Hne). apply Qle_refl.
Qed.

Lemma np_min_raised : np_min vs <= np_min vs'.
Proof.
  destruct (np_min_at vs' vs'_nonempty) as [j [Hj Heq]].
  rewrite <- Heq. rewrite same_length in Hj.
  eapply Qle_trans; [apply (np_min_le_nth vs j Hj) | now apply pointwise_le].
Qed.

Lemma np_max_raised : np_max vs <= np_max vs'.
Proof.
  destruct (np_max_at vs vs_nonempty) as [j [Hj Heq]].
  rewrite <- Heq.
  eapply Qle_trans; [now apply pointwise_le|].
  apply np_max_ge_nth. now rewrite same_length.
Qed.

(** Unless position [i] holds the minimum of [vs], the minimum is held
    elsewhere and survives the change. *)
Lemma np_min_kept : np_min vs < nth i vs 0 -> np_min vs' == np_min vs.
Proof.
  intro Hlt. apply Qle_antisym; [|apply np_min_raised].
  destruct (np_min_at vs vs_nonempty) as [j [Hj Heq]].
  assert (Hji : j <> i) by (intros ->; lra).
  rewrite <- Heq, <- (others_fixed j Hji).
  apply np_min_le_nth. now rewrite same_length.
Qed.

Lemma np_max_kept : nth i vs' 0 < np_max vs' -> np_max vs' == np_max vs.
Proof.
  intro Hlt. apply Qle_antisym; [|apply np_max_raised].
  destruct (np_max_at vs' vs'_nonempty) as [j [Hj Heq]].
  assert (Hji : j <> i) by (intros ->; lra).
  rewrite <- Heq, (others_fixed j Hji).
  apply np_max_ge_nth. now rewrite <- same_length.
Qed.

(** The normalised score of the raised candidate does not go down. *)
Lemma normalize_scores_monotone :
  nth i (normalize_scores vs) 0 <= nth i (normalize_scores vs') 0.
Proof.
  assert (in_range' : (i < length vs')%nat) by now rewrite same_length.
  pose proof (np_min_le_nth vs i in_range) as Hmx.
  pose proof (np_max_ge_nth vs i in_range) as HxM.
  pose proof (np_min_le_nth vs' i in_range') as Hmx'.
  pose proof (np_max_ge_nth vs' i in_range') as HxM'.
  pose proof np_min_raised as Hmm. pose proof np_max_raised as HMM.
  destruct (Qlt_le_dec (np_min vs) (np_max vs)) as [Hs|Hf];
    destruct (Qlt_le_dec (np_min vs') (np_max vs')) as [Hs'|Hf'].
  - rewrite !nth_normalize_spread by assumption.
    destruct (Qlt_le_dec (np_min vs) (nth i vs 0)) as [Hlow|Hlow].
    + destruct (Qlt_le_dec (nth i vs' 0) (np_max vs')) as [Hhigh|Hhigh].
      * rewrite (np_min_kept Hlow), (np_max_kept Hhigh).
        apply Qdiv_le_mono; lra.
      * assert (E : nth i vs' 0 == np_max vs') by lra.
        rewrite E.
        setoid_replace ((np_max vs' - np_min vs') / (np_max vs' - np_min vs'))
          with 1 by (field; lra).
        apply Qdiv_unit_interval; lra.
    + assert (E : nth i vs 0 == np_min vs) by lra.
      rewrite E.
      setoid_replace ((np_min vs - np_min vs) / (np_max vs - np_min vs))
        with 0 by (field; lra).
      apply Qdiv_unit_interval; lra.
  - rewrite nth_normalize_spread, nth_normalize_flat by assumption.
    assert (E : nth i vs 0 == np_min vs).
    { destruct (Qlt_le_dec (np_min vs) (nth i vs 0)) as [Hlow|Hlow]; [|lra].
      pose proof (np_min_kept Hlow). lra. }
    rewrite E.
    setoid_replace ((np_min vs - np_min vs) / (np_max vs - np_min vs))
      with 0 by (field; lra).
    lra.
  - rewrite nth_normalize_flat, nth_normalize_spread by assumption.
    assert (E : nth i vs' 0 == np_max vs').
    { destruct (Qlt_le_dec (nth i vs' 0) (np_max vs')) as [Hhigh|Hhigh]; [|lra].
      pose proof (np_max_kept Hhigh). lra. }
    rewrite E.
    setoid_replace ((np_max vs' - np_min vs') / (np_max vs' - np_min vs'))
      with 1 by (field; lra).
    lra.
  - rewrite !nth_normalize_flat by assumption. apply Qle_refl.
Qed.

End OneScoreRaised.

Lemma nth_combine_scores (alpha : Q) (vn b t l : list Q) (i : nat) :
  (i < length vn)%nat ->
  nth i (combine_scores alpha vn b t l) 0 =
  alpha * nth i vn 0 + (3 # 10) * nth i b 0
  + (5 # 100) * nth i t 0 + (5 # 100) * nth i l 0.
Proof.
  intro Hi. unfold combine_scores.
  rewrite (nth_map_lt _ _ i 0%nat) by (now rewrite length_seq).
  rewrite seq_nth by exact Hi. reflexivity.
Qed.

Lemma length_combine_scores (alpha : Q) (vn b t l : list Q) :
  length (combine_scores alpha vn b t l) = length vn.
Proof. unfold combine_scores. now rewrite length_map, length_seq. Qed.

(** C7. Raising the vector similarity of one candidate, with the other
    vector scores and every BM25, title and length input unchanged, does
    not lower that candidate's combined score
    [alpha * vector_norm + 0.3 * bm25_norm + 0.05 * title + 0.05 * length],
    for a weight [alpha] that is not negative (the default is 0.6). *)
Theorem combined_score_monotone
    (stop_words : list Py.str) (corpus : list Candidate)
    (get_scores : list Py.str -> list Q) (query : Py.str) (alpha : Q)
    (vs vs' : list Q) (i : nat) :
  0 <= alpha ->
  length vs' = length vs ->
  (i < length vs)%nat ->
  (forall j, j <> i -> nth j vs' 0 == nth j vs 0) ->
  nth i vs 0 <= nth i vs' 0 ->
  nth i (s_combined (rerank_scores stop_words corpus get_scores query vs alpha)) 0
  <= nth i (s_combined (rerank_scores stop_words corpus get_scores query vs' alpha)) 0.
Proof.
  intros Halpha Hlen Hi Hfix Hup. unfold rerank_scores. cbn [s_combined].
  rewrite !nth_combine_scores
    by (rewrite length_normalize_scores; rewrite ?Hlen; exact Hi).
  pose proof (normalize_scores_monotone vs vs' i Hlen Hi Hfix Hup) as Hn.
  assert (alpha * nth i (normalize_scores vs) 0
          <= alpha * nth i (normalize_scores vs') 0).
  { rewrite !(Qmult_comm alpha). now apply Qmult_le_compat_r. }
  lra.
Qed.

Definition demo_corpus : list Candidate :=
  [ mk_Candidate (Py.lit "Guards protect.") (Py.lit "guards protect")
                 (Py.lit "Machine guarding") (Py.lit "https://example.org/g")
                 0 (2 # 10);
    mk_Candidate (Py.lit "Fixed guards.") (Py.lit "fixed guards")
                 (Py.lit "Machine guarding") (Py.lit "https://example.org/g")
                 1 (5 # 10) ].

Lemma combined_score_monotone_witness :
  nth 0 (s_combined (rerank_scores [] demo_corpus (fun _ => [0; 0])
                       (Py.lit "guards") [2 # 10; 5 # 10] default_alpha)) 0
  <= nth 0 (s_combined (rerank_scores [] demo_corpus (fun _ => [0; 0])
                          (Py.lit "guards") [4 # 10; 5 # 10] default_alpha)) 0.
Proof.
  apply combined_score_monotone.
  - unfold default_alpha, Qle. simpl. lia.
  - reflexivity.
  - simpl. lia.
  - intros [|[|j]] Hj; [contradiction| |]; simpl; try destruct j; reflexivity.
  - unfold Qle. simpl. lia.
Defined.

End FusionFacts.

(** ** Vector retrieval *)

Module EmbeddingsFacts.
Import Py Embeddings.

Local Open Scope Q_scope.

(** The part of Chroma's contract the adapter relies on: at most
    [n_results] hits per query vector, nearest first. *)
Definition honours_contract (coll : Collection) : Prop :=
  forall embs n r,
    coll embs n = Some r ->
    (forall ids0 rest, ids r = ids0 :: rest -> (Z.of_nat (length ids0) <= n)%Z)
    /\ (forall d0 rest, distances r = Some (d0 :: rest) -> StronglySorted Qle d0).

Definition descending (l : list Q) : Prop :=
  StronglySorted (fun a b => b <= a) l.

Lemma format_all_length (r : QueryResult) (ps : list nat) (out : list Candidate) :
  format_all r ps = Some out -> length out = length ps.
Proof.
  revert out. induction ps as [|p ps IH]; intros out H; simpl in H.
  - now inversion H.
  - destruct (format_one r p); [|discriminate].
    destruct (format_all r ps) as [cs|]; [|discriminate].
    inversion H; subst. simpl. f_equal. now apply IH.
Qed.

Lemma format_one_score (r : QueryResult) (i : nat) (c : Candidate) :
  format_one r i = Some c -> score_at r i = Some (score c).
Proof.
  unfold format_one. intro H.
  destruct (at0 (metadatas r) i); [|discriminate].
  destruct (at0 (documents r) i); [|discriminate].
  destruct (score_at r i); [|discriminate].
  now inversion H.
Qed.

(** With distances in the answer, the scores are [1 - d], in order. *)
Lemma format_all_scores (r : QueryResult) (d0 : list Q) (ds : list (list Q))
    (s n : nat) (out : list Candidate) :
  distances r = Some (d0 :: ds) -> d0 <> [] ->
  format_all r (seq s n) = Some out ->
  map score out = map (fun d => 1 - d) (firstn n (skipn s d0)).
Proof.
  intros Hd Hne. revert s out.
  induction n as [|n IH]; intros s out H; simpl in H.
  - inversion H. reflexivity.
  - destruct (format_one r s) as [c|] eqn:Hc; [|discriminate].
    destruct (format_all r (seq (S s) n)) as [cs|] eqn:Hcs; [|discriminate].
    inversion H; subst out. clear H.
    apply format_one_score in Hc. unfold score_at in Hc. rewrite Hd in Hc.
    destruct d0 as [|e d0']; [congruence|].
    destruct (nth_error (e :: d0') s) as [d|] eqn:Hnth; [|discriminate].
    inversion Hc as [Hsc].
    assert (Hskip : skipn s (e :: d0') = d :: skipn (S s) (e :: d0')).
    { clear - Hnth. revert Hnth. generalize (e :: d0') as l.
      induction s as [|s IHs]; intros [|a l] Hn; simpl in Hn; try discriminate.
      - now inversion Hn.
      - change (skipn (S s) (a :: l)) with (skipn s l).
        change (skipn (S (S s)) (a :: l)) with (skipn (S s) l).
        now apply IHs. }
    rewrite Hskip. cbn [firstn map]. f_equal; [now symmetry | now apply IH].
Qed.

(** Without distances every score is the constant 1. *)
Lemma format_all_scores_default (r : QueryResult) (ps : list nat)
    (out : list Candidate) :
  (forall d0 ds, distances r = Some (d0 :: ds) -> d0 = []) ->
  format_all r ps = Some out ->
  Forall (fun c => score c = 1) out.
Proof.
  intros Hd. revert out. induction ps as [|p ps IH]; intros out H; simpl in H.
  - inversion H. constructor.
  - destruct (format_one r p) as [c|] eqn:Hc; [|discriminate].
    destruct (format_all r ps) as [cs|]; [|discriminate].
    inversion H; subst out. constructor; [|now apply IH].
    apply format_one_score in Hc. unfold score_at in Hc.
    destruct (distances r) as [[|[|e d0] ds]|] eqn:E;
      try (now inversion Hc).
    specialize (Hd _ _ eq_refl). discriminate.
Qed.

Lemma descending_all_equal (l : list Q) (v : Q) :
  Forall (fun x => x = v) l -> descending l.
Proof.
  induction 1 as [|x l Hx Hl IH]; constructor; [exact IH|].
  subst x. eapply Forall_impl; [|exact Hl].
  intros a ->. apply Qle_refl.
Qed.

Lemma StronglySorted_firstn {A : Type} (R : A -> A -> Prop) (n : nat) (l : list A) :
  StronglySorted R l -> StronglySorted R (firstn n l).
Proof.
  revert l. induction n as [|n IH]; intros l H; [constructor|].
  destruct H as [|a l Hl Ha]; [constructor|]. simpl.
  constructor; [now apply IH|].
  rewrite Forall_forall in *. intros x Hx. apply Ha.
  rewrite <- (firstn_skipn n l). apply in_or_app. now left.
Qed.

Lemma descending_one_minus (l : list Q) :
  StronglySorted Qle l -> descending (map (fun d => 1 - d) l).
Proof.
  induction 1 as [|a l Hl IH Ha]; simpl; constructor; [exact IH|].
  rewrite Forall_forall in *. intros x Hx.
  apply in_map_iff in Hx. destruct Hx as [d [<- Hd]].
  specialize (Ha d Hd). lra.
Qed.

Lemma format_results_descending (r : QueryResult) (out : list Candidate) :
  (forall d0 rest, distances r = Some (d0 :: rest) -> StronglySorted Qle d0) ->
  format_results r = Some out -> descending (map score out).
Proof.
  intros Hsorted H. unfold format_results in H.
  destruct (ids r) as [|[|i0 ids0] rest]; try (inversion H; constructor).
  destruct (distances r) as [[|[|e d0] ds]|] eqn:E.
  - apply descending_all_equal with (v := 1). rewrite Forall_map.
    eapply format_all_scores_default; [|exact H].
    intros ? ? Heq. rewrite E in Heq. discriminate.
  - apply descending_all_equal with (v := 1). rewrite Forall_map.
    eapply format_all_scores_default; [|exact H].
    intros ? ? Heq. rewrite E in Heq. now inversion Heq.
  - rewrite (format_all_scores r (e :: d0) ds 0 _ out E ltac:(discriminate) H).
    apply descending_one_minus, StronglySorted_firstn.
    apply (Hsorted _ _ eq_refl).
  - apply descending_all_equal with (v := 1). rewrite Forall_map.
    eapply format_all_scores_default; [|exact H].
    intros ? ? Heq. rewrite E in Heq. discriminate.
Qed.

Lemma format_results_length (r : QueryResult) (out : list Candidate) :
  format_results r = Some out ->
  out = [] \/ exists ids0 rest, ids r = ids0 :: rest /\ length out = length ids0.
Proof.
  unfold format_results. intro H.
  destruct (ids r) as [|[|i0 ids0] rest]; try (inversion H; now left).
  right. exists (i0 :: ids0), rest. split; [reflexivity|].
  apply format_all_length in H. now rewrite length_seq in H.
Qed.

(** C4, as the code has it. For every query and every [k >= 1], over a
    store that honours its contract, [search_embeddings] returns at most
    [2 * k] candidates (it asks the store for [k * 2]), in descending
    order of score, the scores being [1 - d] for the distances [d] the
    store returned; when the store is unavailable the result is empty. *)
Theorem search_embeddings_contract
    (encode : str -> list Q) (coll : Collection) (query : str) (k : Z) :
  (1 <= k)%Z ->
  honours_contract coll ->
  let out := search_embeddings encode (Some coll) query k in
  (Z.of_nat (length out) <= 2 * k)%Z
  /\ descending (map score out)
  /\ (forall r d0 ds,
        coll [encode (clean_chunk_text query)] (k * 2)%Z = Some r ->
        distances r = Some (d0 :: ds) -> d0 <> [] ->
        map score out = map (fun d => 1 - d) (firstn (length out) d0))
  /\ search_embeddings encode None query k = [].
Proof.
  intros Hk Hc out. subst out. unfold search_embeddings.
  destruct (coll [encode (clean_chunk_text query)] (k * 2)%Z) as [r|] eqn:Hq.
  - destruct (Hc _ _ _ Hq) as [Hlen Hsorted].
    destruct (format_results r) as [out|] eqn:Hf.
    + repeat split.
      * destruct (format_results_length r out Hf) as [->|[ids0 [rest [Hi Hl]]]].
        -- cbn [length Z.of_nat]. lia.
        -- rewrite Hl. specialize (Hlen _ _ Hi). lia.
      * now apply (format_results_descending r).
      * intros r' d0 ds Hr' Hd Hne. inversion Hr'; subst r'.
        unfold format_results in Hf.
        destruct (ids r) as [|[|i0 ids0] rest].
        -- inversion Hf. reflexivity.
        -- inversion Hf. reflexivity.
        -- pose proof (format_all_length _ _ _ Hf) as Hl.
           rewrite length_seq in Hl. rewrite Hl.
           apply (format_all_scores r d0 ds 0 _ out Hd Hne Hf).
    + repeat split; cbn [length Z.of_nat map]; try lia; constructor.
  - repeat split; cbn [length Z.of_nat map]; try lia; constructor.
Qed.

(** A store with three records, nearest first. *)
Definition demo_metadata (i : nat) (text : string) : Metadata :=
  mk_Metadata 1 i (lit "Machine guarding") (lit "https://example.org/g")
              (lit text).

Definition demo_store : Collection := fun _ n =>
  if (n <=? 0)%Z then None
  else
    let n := Z.to_nat n in
    Some (mk_QueryResult
            [firstn n [lit "1_0"; lit "1_1"; lit "1_2"]]
            [firstn n [lit "guards protect"; lit "fixed guards"; lit "light curtains"]]
            [firstn n [demo_metadata 0 "Guards protect.";
                       demo_metadata 1 "Fixed guards.";
                       demo_metadata 2 "Light curtains."]]
            (Some [firstn n [1 # 10; 2 # 10; 9 # 10]])).

Definition demo_encode : str -> list Q := fun _ => [1; 0].

Lemma demo_store_honours_contract : honours_contract demo_store.
Proof.
  intros embs n r H. unfold demo_store in H.
  destruct (n <=? 0)%Z eqn:Hn; [discriminate|].
  apply Z.leb_gt in Hn. inversion H; subst r; clear H. cbn [ids distances].
  split.
  - intros ids0 rest E. inversion E; subst.
    rewrite length_firstn. lia.
  - intros d0 rest E. inversion E; subst.
    apply StronglySorted_firstn.
    repeat constructor; unfold Qle; simpl; lia.
Qed.

Lemma search_embeddings_contract_witness :
  let out := search_embeddings demo_encode (Some demo_store) (lit "guards") 1 in
  (Z.of_nat (length out) <= 2 * 1)%Z /\ descending (map score out).
Proof.
  pose proof (search_embeddings_contract demo_encode demo_store (lit "guards") 1
                ltac:(lia) demo_store_honours_contract) as H.
  split; [exact (proj1 H) | exact (proj1 (proj2 H))].
Defined.

(** C4, as stated, fails: asked for [k = 1], the adapter hands back two
    candidates. *)
Lemma search_embeddings_returns_more_than_k :
  let out := search_embeddings demo_encode (Some demo_store) (lit "guards") 1 in
  length out = 2%nat /\ ~ (Z.of_nat (length out) <= 1)%Z.
Proof.
  split; [reflexivity|]. vm_compute. intro H. now apply H.
Qed.

End EmbeddingsFacts.

(** ** Answer synthesis *)

Module ViewsFacts.
Import Py Embeddings Views.

Local Open Scope Q_scope.

Lemma filter_none {A : Type} (f : A -> bool) (l : list A) :
  (forall x, In x l -> f x = false) -> filter f l = [].
Proof.
  induction l as [|a l IH]; intro H; simpl; [reflexivity|].
  rewrite (H a (or_introl eq_refl)). apply IH.
  intros x Hx. apply H. now right.
Qed.

Lemma filter_some {A : Type} (f : A -> bool) (l : list A) (x : A) :
  In x l -> f x = true -> filter f l <> [].
Proof.
  intros Hin Hf E.
  assert (H : In x (filter f l)) by (apply filter_In; now split).
  rewrite E in H. exact H.
Qed.

Lemma below_threshold (r : Candidate) :
  score r < confidence_threshold ->
  Qle_bool confidence_threshold (score r) = false.
Proof.
  intro H. destruct (Qle_bool confidence_threshold (score r)) eqn:E;
    [|reflexivity].
  apply Qle_bool_iff in E. lra.
Qed.

(** C1, as the code has it. For a non-empty ranked list: when no score
    reaches the threshold 0.3 the answer is absent and the contexts are
    empty as well; the contexts are filled, one entry per ranked candidate
    and from the unfiltered list, exactly when some candidate reaches the
    threshold, and then an answer is present. *)
Theorem generate_answer_contexts (results : list Candidate) :
  results <> [] ->
  ((forall r, In r results -> score r < confidence_threshold) ->
   generate_answer results = (None, []))
  /\ ((exists r, In r results /\ confidence_threshold <= score r) ->
      exists a, generate_answer results = (Some a, map context_of results)).
Proof.
  intro Hne. unfold generate_answer.
  destruct results as [|c rest]; [congruence|]. split.
  - intro Hlow. rewrite filter_none; [reflexivity|].
    intros r Hr. apply below_threshold. now apply Hlow.
  - intros [r [Hin Hr]].
    apply Qle_bool_iff in Hr.
    pose proof (filter_some (fun r => Qle_bool confidence_threshold (score r))
                  _ r Hin Hr) as Hsome.
    destruct (filter _ (c :: rest)) as [|t ts]; [congruence|].
    eexists. reflexivity.
Qed.

Definition weak_candidate : Candidate :=
  mk_Candidate (lit "Light curtains.") (lit "light curtains")
               (lit "Machine guarding") (lit "https://example.org/g")
               2 (1 # 10).

Lemma generate_answer_contexts_witness :
  generate_answer [weak_candidate] = (None, []).
Proof.
  apply (proj1 (generate_answer_contexts [weak_candidate] ltac:(discriminate))).
  intros r [<-|[]]. reflexivity.
Defined.

(** A store whose only record is far from every query. *)
Definition far_store : Collection := fun _ _ =>
  Some (mk_QueryResult
          [[lit "1_2"]] [[lit "light curtains"]]
          [[mk_Metadata 1 2 (lit "Machine guarding")
                        (lit "https://example.org/g") (lit "Light curtains.")]]
          (Some [[9 # 10]])).

Definition no_bm25 : list (list str) -> option (list str -> list Q) :=
  fun corpus => Some (fun _ => map (fun _ => 0) corpus).

(** C1, as stated, fails: the ranked list holds one candidate, its score
    0.1 is below the threshold, and the response carries no context. *)
Lemma ask_api_low_confidence_has_no_contexts :
  let ranked :=
    slice_to 1 (search_embeddings (fun _ => [1; 0]) (Some far_store)
                                  (lit "guards") (1 * 2)) in
  length ranked = 1%nat
  /\ (forall r, In r ranked -> score r < confidence_threshold)
  /\ ask_api (fun _ => [1; 0]) (Some far_store) [] no_bm25
             Reranker.stable_argsort
             (lit "POST") (lit "guards") 1 (lit "baseline")
     = Json (mk_AnswerResult None [] false (lit "guards"))
  /\ length (@nil Context) <> length ranked.
Proof.
  repeat split.
  - intros r [<-|[]]. reflexivity.
  - discriminate.
Qed.

(** *** [truncate_answer] *)

Lemma truncate_answer_short (text : str) (max_length : Z) :
  (Z.of_nat (length text) <= max_length)%Z ->
  truncate_answer text max_length = text.
Proof.
  intro H. unfold truncate_answer. apply Z.leb_le in H. now rewrite H.
Qed.

Lemma length_slice_to_le {A : Type} (n : Z) (l : list A) :
  (length (slice_to n l) <= length l)%nat.
Proof.
  unfold slice_to. destruct (0 <=? n)%Z; rewrite length_firstn; lia.
Qed.

Lemma length_slice_to_nonneg {A : Type} (n : Z) (l : list A) :
  (0 <= n)%Z -> (Z.of_nat (length (slice_to n l)) <= n)%Z.
Proof.
  intro H. unfold slice_to. apply Z.leb_le in H as Hb. rewrite Hb.
  rewrite length_firstn. lia.
Qed.

(** For a limit that is not negative the result has at most
    [max_length + 3] characters. *)
Lemma truncate_answer_length (text : str) (max_length : Z) :
  (0 <= max_length)%Z ->
  (Z.of_nat (length (truncate_answer text max_length)) <= max_length + 3)%Z.
Proof.
  intro H. unfold truncate_answer.
  destruct (Z.of_nat (length text) <=? max_length)%Z eqn:E.
  - apply Z.leb_le in E. lia.
  - pose proof (length_slice_to_nonneg max_length text H) as Ht.
    destruct (0 <? _)%Z.
    + rewrite length_app.
      pose proof (length_slice_to_le
                    (Z.max (Z.max (rfind "."%char (slice_to max_length text))
                                  (rfind "!"%char (slice_to max_length text)))
                           (rfind "?"%char (slice_to max_length text)) + 1)
                    (slice_to max_length text)).
      simpl length. lia.
    + rewrite length_app. simpl length. lia.
Qed.

(** [rfind] answers [-1] exactly when the character does not occur. *)
Lemma rfind_from_range (c : ascii) (i : Z) (s : str) :
  rfind_from c i s = (-1)%Z
  \/ (i <= rfind_from c i s < i + Z.of_nat (length s))%Z.
Proof.
  revert i. induction s as [|x s IH]; intro i; simpl rfind_from; [now left|].
  destruct (IH (i + 1)%Z) as [E|R].
  - rewrite E. cbn [Z.leb Z.compare].
    destruct (Ascii.eqb x c); [right|now left].
    simpl length. lia.
  - assert (H0 : (0 <=? rfind_from c (i + 1) s)%Z = true \/
                 (0 <=? rfind_from c (i + 1) s)%Z = false)
      by (destruct (0 <=? _)%Z; auto).
    destruct H0 as [H0|H0]; rewrite H0.
    + right. simpl length. lia.
    + destruct (Ascii.eqb x c); [right; simpl length; lia | now left].
Qed.

Lemma rfind_from_absent (c : ascii) (i : Z) (s : str) :
  (0 <= i)%Z -> rfind_from c i s = (-1)%Z -> ~ In c s.
Proof.
  revert i. induction s as [|x s IH]; intros i Hi H;
    cbn [rfind_from In] in *; [tauto|].
  destruct (0 <=? rfind_from c (i + 1) s)%Z eqn:E.
  - apply Z.leb_le in E. exfalso. lia.
  - destruct (Ascii.eqb x c) eqn:Ex; [exfalso; lia|].
    apply Ascii.eqb_neq in Ex. intros [Hx|Hin]; [congruence|].
    destruct (rfind_from_range c (i + 1) s) as [E1|R].
    + apply (IH (i + 1)%Z); [lia | exact E1 | exact Hin].
    + apply Z.leb_gt in E. lia.
Qed.

Lemma rfind_from_present (c : ascii) (i : Z) (s : str) :
  (0 <= i)%Z -> (0 <= rfind_from c i s)%Z -> In c s.
Proof.
  revert i. induction s as [|x s IH]; intros i Hi H;
    cbn [rfind_from In] in *; [lia|].
  destruct (0 <=? rfind_from c (i + 1) s)%Z eqn:E.
  - right. apply Z.leb_le in E. apply (IH (i + 1)%Z); lia.
  - destruct (Ascii.eqb x c) eqn:Ex; [|exfalso; lia].
    apply Ascii.eqb_eq in Ex. now left.
Qed.

(** Without a terminator in the window the text is cut at the limit and
    ["..."] is appended. *)
Lemma truncate_answer_hard_cut (text : str) (max_length : Z) :
  (max_length < Z.of_nat (length text))%Z ->
  (forall c, In c (slice_to max_length text) -> Utils.is_terminator c = false) ->
  truncate_answer text max_length = slice_to max_length text ++ lit "...".
Proof.
  intros Hlong Hnone. unfold truncate_answer.
  apply Z.leb_gt in Hlong. rewrite Hlong.
  assert (Hfind : forall c, Utils.is_terminator c = true ->
                            rfind c (slice_to max_length text) = (-1)%Z).
  { intros c Hc. unfold rfind.
    destruct (rfind_from_range c 0 (slice_to max_length text)) as [E|R];
      [exact E|].
    exfalso.
    assert (Hin : In c (slice_to max_length text))
      by (apply (rfind_from_present c 0); lia).
    specialize (Hnone c Hin). congruence. }
  rewrite (Hfind "."%char eq_refl), (Hfind "!"%char eq_refl),
          (Hfind "?"%char eq_refl).
  reflexivity.
Qed.

Lemma rfind_from_none (c : ascii) (i : Z) (s : str) :
  (0 <= i)%Z -> ~ In c s -> rfind_from c i s = (-1)%Z.
Proof.
  intros Hi Hnot. destruct (rfind_from_range c i s) as [E|R]; [exact E|].
  exfalso. apply Hnot. apply (rfind_from_present c i); lia.
Qed.

(** A terminator at position 0 is never taken as a sentence end: when it
    is the only one in the window, the text is cut at the limit. *)
Lemma truncate_answer_ignores_position_0
    (c : ascii) (rest : str) (max_length : Z) :
  Utils.is_terminator c = true ->
  (1 <= max_length < Z.of_nat (length (c :: rest)))%Z ->
  (forall x, In x (firstn (Z.to_nat max_length - 1) rest) ->
             Utils.is_terminator x = false) ->
  truncate_answer (c :: rest) max_length
  = slice_to max_length (c :: rest) ++ lit "...".
Proof.
  intros Hc Hrange Hnone. unfold truncate_answer.
  assert (E : (Z.of_nat (length (c :: rest)) <=? max_length)%Z = false)
    by (apply Z.leb_gt; lia).
  rewrite E. unfold slice_to.
  assert (E0 : (0 <=? max_length)%Z = true) by (apply Z.leb_le; lia).
  rewrite E0.
  destruct (Z.to_nat max_length) as [|n] eqn:En; [lia|].
  cbn [firstn]. replace (S n - 1)%nat with n in Hnone by lia.
  assert (Hfind : forall t, Utils.is_terminator t = true ->
                            (rfind t (c :: firstn n rest) <= 0)%Z).
  { intros t Ht. unfold rfind. cbn [rfind_from].
    rewrite (rfind_from_none t (0 + 1) (firstn n rest)); [|lia|].
    - cbn [Z.leb Z.compare]. destruct (Ascii.eqb c t); lia.
    - intro Hin. specialize (Hnone t Hin). congruence. }
  pose proof (Hfind "."%char eq_refl) as H1.
  pose proof (Hfind "!"%char eq_refl) as H2.
  pose proof (Hfind "?"%char eq_refl) as H3.
  assert (L : (0 <? Z.max (Z.max (rfind "."%char (c :: firstn n rest))
                                 (rfind "!"%char (c :: firstn n rest)))
                          (rfind "?"%char (c :: firstn n rest)))%Z = false)
    by (apply Z.ltb_ge; lia).
  rewrite L. reflexivity.
Qed.

(** C8, where the code departs from it: the only terminator of the
    window sits at position 0, so cutting just after it would give
    ["..."]; [truncate_answer] takes the position 0 for "not found" and
    cuts at the limit instead, here for the limit 3 and for the limit 500
    that [ask_api] uses. *)
Theorem truncate_answer_terminator_at_start :
  rfind "."%char (slice_to 3 (lit ".abcd")) = 0%Z
  /\ truncate_answer (lit ".abcd") 3 = lit ".ab..."
  /\ truncate_answer (lit ".abcd") 3 <> slice_to (0 + 1) (lit ".abcd") ++ lit ".."
  /\ truncate_answer ("."%char :: repeat "a"%char 600) 500
     = "."%char :: repeat "a"%char 499 ++ lit "..."
  /\ truncate_answer ("."%char :: repeat "a"%char 600) 500 <> lit "...".
Proof.
  repeat split; try (vm_compute; reflexivity); vm_compute; discriminate.
Qed.

End ViewsFacts.

(** ** Ranking *)

Module RerankFacts.
Import Py Embeddings Reranker NormalizeFacts FusionFacts.

Local Open Scope Q_scope.

(** Ascending by value, and by position among equal values. *)
Definition pair_lt (x y : Q * nat) : Prop :=
  fst x < fst y \/ (fst x == fst y /\ (snd x < snd y)%nat).

Lemma pair_lt_fst_le (x y : Q * nat) : pair_lt x y -> fst x <= fst y.
Proof. intros [H|[H _]]; lra. Qed.

Lemma insert_asc_perm (x : Q * nat) (l : list (Q * nat)) :
  Permutation (insert_asc x l) (x :: l).
Proof.
  induction l as [|y l IH]; simpl; [reflexivity|].
  destruct (Qle_bool (fst x) (fst y)); [reflexivity|].
  rewrite IH. apply perm_swap.
Qed.

Lemma sort_asc_perm (l : list (Q * nat)) : Permutation (sort_asc l) l.
Proof.
  induction l as [|x l IH]; simpl; [reflexivity|].
  rewrite insert_asc_perm. now constructor.
Qed.

Lemma insert_asc_sorted (x : Q * nat) (l : list (Q * nat)) :
  StronglySorted pair_lt l ->
  Forall (fun y => (snd x < snd y)%nat) l ->
  StronglySorted pair_lt (insert_asc x l).
Proof.
  induction 1 as [|y l Hl IH Hy]; intro Hidx; simpl.
  - repeat constructor.
  - inversion Hidx as [|? ? Hxy Hrest]; subst.
    destruct (Qle_bool (fst x) (fst y)) eqn:E.
    + apply Qle_bool_iff in E.
      constructor; [now constructor|].
      constructor.
      * destruct (Qlt_le_dec (fst x) (fst y)) as [Hlt|Hge];
          [now left | right; split; [lra | exact Hxy]].
      * rewrite Forall_forall in *. intros z Hz.
        pose proof (pair_lt_fst_le _ _ (Hy z Hz)) as Hyz.
        specialize (Hrest z Hz).
        destruct (Qlt_le_dec (fst x) (fst z)) as [Hlt|Hge];
          [now left | right; split; [lra | exact Hrest]].
    + assert (Hlt : fst y < fst x).
      { apply Qnot_le_lt. intro H. apply Qle_bool_iff in H. congruence. }
      constructor; [now apply IH|].
      rewrite Forall_forall in *. intros z Hz.
      apply (Permutation_in _ (insert_asc_perm x l)) in Hz.
      destruct Hz as [<-|Hz]; [now left | now apply Hy].
Qed.

Lemma sort_asc_sorted (l : list (Q * nat)) :
  StronglySorted (fun a b => (snd a < snd b)%nat) l ->
  StronglySorted pair_lt (sort_asc l).
Proof.
  induction 1 as [|x l Hl IH Hx]; simpl; [constructor|].
  apply insert_asc_sorted; [exact IH|].
  rewrite Forall_forall in *. intros y Hy. apply Hx.
  now apply (Permutation_in _ (sort_asc_perm l)).
Qed.

Lemma combine_seq_In (a : list Q) (s : nat) (q : Q) (i : nat) :
  In (q, i) (combine a (seq s (length a))) ->
  (s <= i < s + length a)%nat /\ nth (i - s) a 0 = q.
Proof.
  revert s. induction a as [|x a IH]; intros s H; simpl in H; [contradiction|].
  destruct H as [H|H].
  - inversion H; subst. rewrite Nat.sub_diag. simpl. split; [lia|reflexivity].
  - destruct (IH (S s) H) as [Hr Hn]. simpl length. split; [lia|].
    replace (i - s)%nat with (S (i - S s)) by lia. exact Hn.
Qed.

Lemma combine_seq_increasing (a : list Q) (s : nat) :
  StronglySorted (fun x y : Q * nat => (snd x < snd y)%nat)
                 (combine a (seq s (length a))).
Proof.
  revert s. induction a as [|x a IH]; intro s; simpl; constructor.
  - apply IH.
  - rewrite Forall_forall. intros [q i] Hin.
    apply combine_seq_In in Hin. simpl. lia.
Qed.

Lemma map_snd_combine_seq (a : list Q) (s : nat) :
  map snd (combine a (seq s (length a))) = seq s (length a).
Proof.
  revert s. induction a as [|x a IH]; intro s; simpl; [reflexivity|].
  now rewrite IH.
Qed.

Lemma stable_argsort_perm (a : list Q) :
  Permutation (stable_argsort a) (seq 0 (length a)).
Proof.
  unfold stable_argsort. rewrite <- (map_snd_combine_seq a 0) at 2.
  apply Permutation_map, sort_asc_perm.
Qed.

(** Position [i] comes before position [j] in the reverse of the stable
    sort: a larger value first and, among equal values, the later
    position first. *)
Definition ranks_before (a : list Q) (i j : nat) : Prop :=
  nth j a 0 < nth i a 0 \/ (nth j a 0 == nth i a 0 /\ (j < i)%nat).

Lemma StronglySorted_map {A B : Type} (f : A -> B)
    (R : A -> A -> Prop) (R' : B -> B -> Prop) (l : list A) :
  (forall x y, In x l -> In y l -> R x y -> R' (f x) (f y)) ->
  StronglySorted R l -> StronglySorted R' (map f l).
Proof.
  intros Hf H. induction H as [|x l Hl IH Hx]; simpl; constructor.
  - apply IH. intros a b Ha Hb. apply Hf; now right.
  - rewrite Forall_forall in *. intros y Hy.
    apply in_map_iff in Hy. destruct Hy as [z [<- Hz]].
    apply Hf; [now left | now right | now apply Hx].
Qed.

Lemma StronglySorted_rev {A : Type} (R : A -> A -> Prop) (l : list A) :
  StronglySorted R l -> StronglySorted (fun x y => R y x) (rev l).
Proof.
  induction 1 as [|x l Hl IH Hx]; simpl; [constructor|].
  assert (Hm : forall m, (forall y, In y m -> R x y) ->
                         StronglySorted (fun a b => R b a) m ->
                         StronglySorted (fun a b => R b a) (m ++ [x])).
  { induction m as [|z m IHm]; intros Hin Hs; simpl.
    - repeat constructor.
    - inversion Hs; subst. constructor.
      + apply IHm; [intros y Hy; apply Hin; now right | assumption].
      + rewrite Forall_forall in *. intros y Hy.
        apply in_app_or in Hy. destruct Hy as [Hy|[<-|[]]]; [auto|].
        apply Hin. now left. }
  apply Hm; [|exact IH].
  intros y Hy. rewrite Forall_forall in Hx. apply Hx. now apply in_rev.
Qed.

Lemma stable_argsort_sorted (a : list Q) :
  StronglySorted (fun i j => ranks_before a j i) (stable_argsort a).
Proof.
  unfold stable_argsort.
  apply (StronglySorted_map snd pair_lt); [|apply sort_asc_sorted,
                                             combine_seq_increasing].
  intros [q i] [q' j] Hx Hy Hlt.
  apply (Permutation_in _ (sort_asc_perm _)) in Hx, Hy.
  apply combine_seq_In in Hx, Hy.
  destruct Hx as [_ Hx], Hy as [_ Hy]. rewrite Nat.sub_0_r in Hx, Hy.
  unfold ranks_before. simpl snd. rewrite Hx, Hy. exact Hlt.
Qed.

Lemma StronglySorted_weaken {A : Type} (R R' : A -> A -> Prop) (l : list A) :
  (forall x y, R x y -> R' x y) ->
  StronglySorted R l -> StronglySorted R' l.
Proof.
  intros HR H. induction H as [|x l Hl IH Hx]; constructor; [exact IH|].
  eapply Forall_impl; [|exact Hx]. intros y Hy. now apply HR.
Qed.

(** The stable sort is one of the functions [rerank] may be run with. *)
Lemma stable_argsort_sorts : sorts_ascending stable_argsort.
Proof.
  intro a. split; [apply stable_argsort_perm|].
  apply (StronglySorted_weaken (fun i j => ranks_before a j i));
    [|apply stable_argsort_sorted].
  intros i j [H|[H _]]; lra.
Qed.

Section SortedIndices.

Variable argsort : list Q -> list nat.
Hypothesis argsort_sorts : sorts_ascending argsort.

(** [np.argsort(a)[::-1]] lists the positions in descending order of
    value. *)
Lemma sorted_indices_sorted (a : list Q) :
  StronglySorted (fun i j => nth j a 0 <= nth i a 0) (rev (argsort a)).
Proof.
  apply (StronglySorted_rev (fun i j => nth i a 0 <= nth j a 0)).
  apply argsort_sorts.
Qed.

Lemma sorted_indices_perm (a : list Q) :
  Permutation (rev (argsort a)) (seq 0 (length a)).
Proof. rewrite <- Permutation_rev. apply argsort_sorts. Qed.

End SortedIndices.

(** Another function that sorts ascending: among equal values the later
    position comes first. *)
Definition backward_argsort (a : list Q) : list nat :=
  rev (stable_argsort (map Qopp a)).

Lemma backward_argsort_sorts : sorts_ascending backward_argsort.
Proof.
  intro a. unfold backward_argsort. split.
  - rewrite <- Permutation_rev, <- (length_map Qopp a).
    apply stable_argsort_perm.
  - apply (StronglySorted_weaken
             (fun i j => nth j (map Qopp a) 0 <= nth i (map Qopp a) 0)).
    + intros i j H.
      change 0 with (Qopp 0) in H. rewrite !map_nth in H. lra.
    + apply (sorted_indices_sorted stable_argsort stable_argsort_sorts).
Qed.

(** The order of tied positions is left open: two functions that both
    sort ascending order the tied positions 2 and 3 differently. *)
Lemma tie_order_open :
  let a := [9 # 10; 5 # 10; 1 # 10; 1 # 10] in
  sorts_ascending stable_argsort /\ sorts_ascending backward_argsort
  /\ rev (stable_argsort a) = [0; 1; 3; 2]%nat
  /\ rev (backward_argsort a) = [0; 1; 2; 3]%nat.
Proof.
  split; [exact stable_argsort_sorts|].
  split; [exact backward_argsort_sorts|].
  split; vm_compute; reflexivity.
Qed.

Lemma collect_map {A B : Type} (f : A -> option B) (l : list A) :
  (forall x, In x l -> exists y, f x = Some y) ->
  exists out, collect (map f l) = Some out
              /\ Forall2 (fun x y => f x = Some y) l out.
Proof.
  induction l as [|a l IH]; intro H; simpl.
  - exists []. split; [reflexivity | constructor].
  - destruct (H a (or_introl eq_refl)) as [y Hy].
    destruct IH as [out [Hc Hf]]; [intros x Hx; apply H; now right|].
    exists (y :: out). rewrite Hy, Hc. split; [reflexivity|].
    now constructor.
Qed.

Lemma nth_error_some {A : Type} (l : list A) (i : nat) :
  (i < length l)%nat -> exists x, nth_error l i = Some x.
Proof.
  intro H. destruct (nth_error l i) eqn:E; [eauto|].
  apply nth_error_None in E. lia.
Qed.

Lemma Forall2_sorted {A B : Type} (P : A -> B -> Prop)
    (R : A -> A -> Prop) (R' : B -> B -> Prop) (l : list A) (l' : list B) :
  (forall x y x' y', P x x' -> P y y' -> R x y -> R' x' y') ->
  Forall2 P l l' -> StronglySorted R l -> StronglySorted R' l'.
Proof.
  intros HR HP. induction HP as [|x x' l l' Hxx' HP IH]; intro Hs;
    [constructor|].
  inversion Hs as [|? ? Hl Hx]; subst. constructor; [now apply IH|].
  clear IH Hs Hl. induction HP as [|y y' l l' Hyy' HP IH]; [constructor|].
  inversion Hx; subst. constructor; [now apply (HR x y) | now apply IH].
Qed.

Section Rerank.

Variable stop_words : list str.
Variable BM25Okapi : list (list str) -> option (list str -> list Q).
Variable argsort : list Q -> list nat.
Variables (corpus : list Candidate) (query : str) (vector_scores : list Q).
Variable alpha : Q.
Variable get_scores : list str -> list Q.

Hypothesis index_built :
  BM25Okapi (map (fun doc => _tokenize stop_words (cleaned_text doc)) corpus)
  = Some get_scores.
Hypothesis bm25_aligned :
  length (get_scores (_tokenize stop_words query)) = length corpus.
Hypothesis vector_aligned : length vector_scores = length corpus.
Hypothesis argsort_sorts : sorts_ascending argsort.

Let sc : scores :=
  rerank_scores stop_words corpus get_scores query vector_scores alpha.

Lemma length_s_combined : length (s_combined sc) = length corpus.
Proof.
  unfold sc, rerank_scores. cbn [s_combined].
  now rewrite length_combine_scores, length_normalize_scores.
Qed.

Lemma result_at_defined (idx : nat) :
  (idx < length corpus)%nat -> exists r, result_at corpus sc idx = Some r.
Proof.
  intro H. unfold result_at.
  destruct (nth_error_some corpus idx H) as [doc ->].
  destruct (nth_error_some (s_combined sc) idx) as [cb ->];
    [now rewrite length_s_combined|].
  destruct (nth_error_some (s_vector sc) idx) as [v ->];
    [unfold sc, rerank_scores; cbn [s_vector]; now rewrite vector_aligned|].
  destruct (nth_error_some (s_bm25 sc) idx) as [b ->];
    [unfold sc, rerank_scores; cbn [s_bm25];
     now rewrite length_normalize_scores, bm25_aligned|].
  destruct (nth_error_some (s_title sc) idx) as [t ->];
    [unfold sc, rerank_scores; cbn [s_title]; now rewrite length_map|].
  eauto.
Qed.

Lemma result_at_score (idx : nat) (r : ScoredCandidate) :
  result_at corpus sc idx = Some r ->
  score (candidate r) = nth idx (s_combined sc) 0.
Proof.
  unfold result_at. intro H.
  destruct (nth_error corpus idx) as [doc|]; [|discriminate].
  destruct (nth_error (s_combined sc) idx) as [cb|] eqn:Ec; [|discriminate].
  destruct (nth_error (s_vector sc) idx); [|discriminate].
  destruct (nth_error (s_bm25 sc) idx); [|discriminate].
  destruct (nth_error (s_title sc) idx); [|discriminate].
  inversion H. simpl. symmetry. now apply nth_error_nth.
Qed.

(** What [rerank] returns on aligned inputs. *)
Lemma rerank_returns :
  exists out,
    rerank stop_words BM25Okapi argsort corpus query vector_scores alpha
    = Some out
    /\ Forall2 (fun idx r => result_at corpus sc idx = Some r)
               (rev (argsort (s_combined sc))) out.
Proof.
  unfold rerank. rewrite index_built. fold sc.
  assert (E1 : Nat.eqb (length vector_scores) (length corpus) = true)
    by (apply Nat.eqb_eq; exact vector_aligned).
  assert (E2 : Nat.eqb (length (s_bm25 sc)) (length corpus) = true).
  { apply Nat.eqb_eq. unfold sc, rerank_scores. cbn [s_bm25].
    now rewrite length_normalize_scores. }
  rewrite E1, E2. cbn [andb].
  apply collect_map. intros idx Hidx. apply result_at_defined.
  apply (Permutation_in _ (sorted_indices_perm argsort argsort_sorts _))
    in Hidx.
  apply in_seq in Hidx. rewrite length_s_combined in Hidx. lia.
Qed.

End Rerank.

(** C3, as the code has it. With an [np.argsort] that sorts ascending,
    on a corpus with aligned score arrays [rerank] returns every
    candidate once, in descending order of combined score.  Nothing more
    is fixed for candidates with equal combined scores: their order is
    the reverse of the one [np.argsort] gives them. *)
Theorem rerank_descending
    (stop_words : list str)
    (BM25Okapi : list (list str) -> option (list str -> list Q))
    (argsort : list Q -> list nat)
    (corpus : list Candidate) (query : str) (vector_scores : list Q)
    (alpha : Q) (get_scores : list str -> list Q) :
  sorts_ascending argsort ->
  BM25Okapi (map (fun doc => _tokenize stop_words (cleaned_text doc)) corpus)
  = Some get_scores ->
  length (get_scores (_tokenize stop_words query)) = length corpus ->
  length vector_scores = length corpus ->
  let sc := rerank_scores stop_words corpus get_scores query vector_scores alpha in
  exists out,
    rerank stop_words BM25Okapi argsort corpus query vector_scores alpha
    = Some out
    /\ Permutation (rev (argsort (s_combined sc))) (seq 0 (length corpus))
    /\ Forall2 (fun idx r => result_at corpus sc idx = Some r)
               (rev (argsort (s_combined sc))) out
    /\ StronglySorted
         (fun a b => score (candidate b) <= score (candidate a)) out.
Proof.
  intros Hsorts Hbuilt Hbm25 Hvec sc.
  destruct (rerank_returns stop_words BM25Okapi argsort corpus query
              vector_scores alpha get_scores Hbuilt Hbm25 Hvec Hsorts)
    as [out [Hout Hall]].
  fold sc in Hall. exists out.
  split; [exact Hout|]. split.
  { rewrite <- (length_s_combined stop_words corpus query vector_scores
                  alpha get_scores Hvec).
    now apply sorted_indices_perm. }
  split; [exact Hall|].
  eapply Forall2_sorted;
    [|exact Hall|apply (sorted_indices_sorted argsort Hsorts)].
  intros i j r r' Hi Hj Hrank. cbv beta in Hi, Hj.
  rewrite (result_at_score _ _ _ _ _ _ i r Hi).
  rewrite (result_at_score _ _ _ _ _ _ j r' Hj).
  fold sc. exact Hrank.
Qed.

Lemma rerank_descending_witness :
  exists out,
    rerank [] ViewsFacts.no_bm25 stable_argsort demo_corpus (lit "guards")
           [2 # 10; 5 # 10] default_alpha = Some out
    /\ StronglySorted
         (fun a b => score (candidate b) <= score (candidate a)) out.
Proof.
  destruct (rerank_descending [] ViewsFacts.no_bm25 stable_argsort
              demo_corpus (lit "guards") [2 # 10; 5 # 10] default_alpha _
              stable_argsort_sorts eq_refl eq_refl eq_refl)
    as [out [H1 [_ [_ H2]]]].
  exists out. split; assumption.
Defined.

(** C3, as stated, fails on ties: the code does not make the sort
    stable.  There is an [np.argsort] that sorts ascending, here the
    stable one, with which two candidates of the same combined score come
    back in the opposite of their original order. *)
Lemma rerank_reverses_ties :
  exists argsort r1 r2,
    sorts_ascending argsort
    /\ rerank [] ViewsFacts.no_bm25 argsort demo_corpus (lit "guards")
              [1 # 2; 1 # 2] default_alpha = Some [r1; r2]
    /\ score (candidate r1) == score (candidate r2)
    /\ map chunk_text demo_corpus = [lit "Guards protect."; lit "Fixed guards."]
    /\ map (fun r => chunk_text (candidate r)) [r1; r2]
       = [lit "Fixed guards."; lit "Guards protect."].
Proof.
  exists stable_argsort. eexists. eexists.
  split; [exact stable_argsort_sorts|].
  split; [vm_compute; reflexivity|].
  repeat split.
Qed.

End RerankFacts.

(** ** Chunking *)

Module ChunkFacts.
Import Py Utils.

Lemma split_from_app_space (a b cur : str) (c : ascii) :
  is_space c = true ->
  Py.split_from cur (a ++ c :: b) = Py.split_from cur a ++ Py.split_from [] b.
Proof.
  intro Hc. revert cur. induction a as [|x a IH]; intro cur; simpl.
  - rewrite Hc. now destruct cur.
  - destruct (is_space x).
    + destruct cur; rewrite IH; reflexivity.
    + apply IH.
Qed.

(** The words of sentences joined by single spaces are the words of the
    sentences. *)
Lemma split_join_space (l : list str) :
  Py.split (join space l) = concat (map Py.split l).
Proof.
  induction l as [|p l IH]; [reflexivity|].
  destruct l as [|q l].
  - simpl. now rewrite app_nil_r.
  - change (join space (p :: q :: l)) with (p ++ " "%char :: join space (q :: l)).
    unfold Py.split at 1. rewrite split_from_app_space by reflexivity.
    fold (Py.split p). fold (Py.split (join space (q :: l))).
    rewrite IH. reflexivity.
Qed.

Lemma word_count_join_space (l : list str) :
  word_count (join space l) = list_sum (map word_count l).
Proof.
  unfold word_count at 1. rewrite split_join_space.
  induction l as [|p l IH]; [reflexivity|].
  simpl. rewrite length_app, IH. reflexivity.
Qed.

Lemma word_count_uniform (w : nat) (l : list str) :
  Forall (fun s => word_count s = w) l ->
  word_count (join space l) = w * length l.
Proof.
  intro H. rewrite word_count_join_space.
  induction H as [|s l Hs Hl IH]; simpl; [lia|]. rewrite IH, Hs. lia.
Qed.

(** The step that closes a chunk: the chunk is emitted, and the next one
    starts from its last [overlap] sentences, or from all of them when it
    has fewer. *)
Lemma chunk_step_closes (chunk_size overlap : Z) (st : chunk_state) (s : str) :
  (chunk_size < Z.of_nat (current_length st + word_count s))%Z ->
  current_chunk st <> [] ->
  (0 <= overlap)%Z ->
  let n := length (current_chunk st) in
  let kept := skipn (n - Nat.min (Z.to_nat overlap) n) (current_chunk st) in
  chunk_step chunk_size overlap st s =
  mk_chunk_state (chunks st ++ [join space (current_chunk st)])
                 (kept ++ [s])
                 (word_count (join space kept) + word_count s).
Proof.
  intros Hbig Hne Hov n kept. unfold chunk_step.
  apply Z.ltb_lt in Hbig. rewrite Hbig.
  destruct (current_chunk st) as [|c cur] eqn:E; [congruence|].
  cbn [length Nat.eqb negb andb]. cbn [chunks current_chunk current_length].
  unfold slice_from.
  replace (Z.to_nat (Z.max 0 (Z.of_nat (S (length cur)) - overlap)))
    with (n - Nat.min (Z.to_nat overlap) n)%nat
    by (subst n; simpl length; lia).
  reflexivity.
Qed.

(** The step that does not close a chunk. *)
Lemma chunk_step_extends (chunk_size overlap : Z) (st : chunk_state) (s : str) :
  (Z.of_nat (current_length st + word_count s) <= chunk_size)%Z ->
  chunk_step chunk_size overlap st s =
  mk_chunk_state (chunks st) (current_chunk st ++ [s])
                 (current_length st + word_count s).
Proof.
  intro H. unfold chunk_step.
  assert (E : (chunk_size <? Z.of_nat (current_length st + word_count s))%Z
              = false) by (apply Z.ltb_ge; exact H).
  rewrite E. reflexivity.
Qed.

Section Scenario.

(** Sentences of 15 words, chunk size 300, overlap 50. *)
Let uniform (l : list str) : Prop := Forall (fun s => word_count s = 15) l.

Lemma fill_phase (rest cur : list str) (cs : list str) :
  uniform rest -> length cur + length rest <= 20 ->
  fold_left (chunk_step 300 50) rest
            (mk_chunk_state cs cur (15 * length cur))
  = mk_chunk_state cs (cur ++ rest) (15 * length (cur ++ rest)).
Proof.
  revert cur. induction rest as [|s rest IH]; intros cur Hu Hlen.
  - simpl. now rewrite app_nil_r.
  - inversion Hu as [|? ? Hs Hrest]; subst. simpl in Hlen.
    cbn [fold_left]. rewrite chunk_step_extends
      by (cbn [current_length]; rewrite Hs; lia).
    cbn [chunks current_chunk current_length]. rewrite Hs.
    replace (15 * length cur + 15) with (15 * length (cur ++ [s]))
      by (rewrite length_app; simpl; lia).
    rewrite IH by (try assumption; rewrite length_app; simpl; lia).
    now rewrite <- app_assoc.
Qed.

Lemma grow_phase (rest cur : list str) (cs : list str) :
  uniform cur -> uniform rest ->
  20 <= length cur -> length cur + length rest <= 51 ->
  fold_left (chunk_step 300 50) rest
            (mk_chunk_state cs cur (15 * length cur))
  = mk_chunk_state
      (cs ++ map (fun j => join space (cur ++ firstn j rest))
                 (seq 0 (length rest)))
      (cur ++ rest) (15 * length (cur ++ rest)).
Proof.
  revert cur cs. induction rest as [|s rest IH]; intros cur cs Hc Hu Hmin Hmax.
  - simpl. now rewrite !app_nil_r.
  - inversion Hu as [|? ? Hs Hrest]; subst. simpl in Hmax.
    cbn [fold_left].
    assert (Hne : cur <> []) by (destruct cur; simpl in Hmin; [lia|discriminate]).
    rewrite chunk_step_closes
      by (cbn [current_length current_chunk]; try rewrite Hs;
          try assumption; lia).
    cbn [chunks current_chunk current_length].
    replace (length cur - Nat.min (Z.to_nat 50) (length cur)) with 0 by lia.
    cbn [skipn]. rewrite (word_count_uniform 15 cur Hc), Hs.
    replace (15 * length cur + 15) with (15 * length (cur ++ [s]))
      by (rewrite length_app; simpl; lia).
    rewrite IH;
      [| apply Forall_app; split; [exact Hc | now constructor]
       | exact Hrest
       | rewrite length_app; simpl; lia
       | rewrite length_app; simpl; lia ].
    f_equal.
    + rewrite <- app_assoc. f_equal. cbn [length seq map firstn app].
      rewrite app_nil_r. f_equal.
      rewrite <- seq_shift, map_map.
      apply map_ext. intro j. cbn [firstn]. now rewrite <- app_assoc.
    + now rewrite <- app_assoc.
    + now rewrite <- !app_assoc.
Qed.

Lemma firstn_then_firstn {A : Type} (n j : nat) (l : list A) :
  firstn n l ++ firstn j (skipn n l) = firstn (n + j) l.
Proof.
  revert l. induction n as [|n IH]; intro l; [reflexivity|].
  destruct l as [|a l]; simpl; [now destruct j|]. now rewrite IH.
Qed.

Lemma chunk_sentences_scenario (ss : list str) :
  length ss = 25 -> uniform ss ->
  chunk_sentences 300 50 ss =
  map (fun n => join space (firstn n ss)) [20; 21; 22; 23; 24; 25].
Proof.
  intros Hlen Hu.
  assert (Hu1 : uniform (firstn 20 ss)).
  { unfold uniform in *. rewrite Forall_forall in *. intros x Hx. apply Hu.
    rewrite <- (firstn_skipn 20 ss). apply in_or_app. now left. }
  assert (Hu2 : uniform (skipn 20 ss)).
  { unfold uniform in *. rewrite Forall_forall in *. intros x Hx. apply Hu.
    rewrite <- (firstn_skipn 20 ss). apply in_or_app. now right. }
  assert (Hl1 : length (firstn 20 ss) = 20) by (rewrite length_firstn; lia).
  assert (Hl2 : length (skipn 20 ss) = 5) by (rewrite length_skipn; lia).
  assert (Hfold :
    fold_left (chunk_step 300 50) ss (mk_chunk_state [] [] 0)
    = mk_chunk_state
        (map (fun j => join space (firstn 20 ss ++ firstn j (skipn 20 ss)))
             (seq 0 5))
        ss (15 * length ss)).
  { rewrite <- (firstn_skipn 20 ss) at 1.
    rewrite fold_left_app.
    change (mk_chunk_state [] [] 0)
      with (mk_chunk_state [] [] (15 * length (@nil str))).
    rewrite fill_phase by (try assumption; cbn [length]; lia).
    cbn [app]. rewrite grow_phase by (try assumption; lia).
    cbn [app]. rewrite Hl2. now rewrite (firstn_skipn 20 ss). }
  unfold chunk_sentences. rewrite Hfold. cbn [chunks current_chunk].
  destruct ss as [|s0 ss'] eqn:Ess; [discriminate|]. rewrite <- Ess in *.
  cbn [seq map]. rewrite !firstn_then_firstn.
  cbn [Nat.add app].
  replace (join space ss) with (join space (firstn 25 ss))
    by (rewrite <- Hlen; now rewrite firstn_all).
  reflexivity.
Qed.

End Scenario.

(** A text of 25 sentences of 15 words each. *)
Definition sample_sentence (n : nat) : str :=
  let w := [ascii_of_nat (97 + n)] in
  join space (repeat w 14 ++ [w ++ lit "."]).

Definition sample_sentences : list str := map sample_sentence (seq 0 25).

Definition sample_text : str := join space sample_sentences.

Lemma sample_text_sentences :
  word_count sample_text = 375
  /\ Re.split pat_sentence_gap (clean_text sample_text) = sample_sentences
  /\ chunk_text_default sample_text = chunk_sentences 300 50 sample_sentences.
Proof. repeat split; vm_compute; reflexivity. Qed.

(** C2, as the code has it. A chunk is closed when the next sentence
    would take it past [chunk_size] words, and the next chunk starts from
    the last [overlap] sentences of the closed one, which is the whole
    closed chunk when it has at most [overlap] sentences.  Hence 25
    sentences of 15 words with chunk size 300 and overlap 50 give six
    chunks: the first 20 sentences, then the first 21, and so on up to
    all 25; the second chunk begins with the entire first chunk. *)
Theorem chunk_text_overlap :
  (forall (chunk_size overlap : Z) (st : chunk_state) (s : str),
     (chunk_size < Z.of_nat (current_length st + word_count s))%Z ->
     current_chunk st <> [] ->
     (0 <= overlap)%Z ->
     let n := length (current_chunk st) in
     let st' := chunk_step chunk_size overlap st s in
     chunks st' = chunks st ++ [join space (current_chunk st)]
     /\ current_chunk st' =
        skipn (n - Nat.min (Z.to_nat overlap) n) (current_chunk st) ++ [s])
  /\ (forall ss : list str,
        length ss = 25 ->
        Forall (fun s => word_count s = 15) ss ->
        chunk_sentences 300 50 ss =
        map (fun n => join space (firstn n ss)) [20; 21; 22; 23; 24; 25]).
Proof.
  split.
  - intros chunk_size overlap st s Hbig Hne Hov n st'. subst st'.
    rewrite chunk_step_closes by assumption. split; reflexivity.
  - apply chunk_sentences_scenario.
Qed.

Lemma chunk_text_overlap_witness :
  chunk_text_default sample_text =
  map (fun n => join space (firstn n sample_sentences)) [20; 21; 22; 23; 24; 25]
  /\ current_chunk
       (chunk_step 300 50
          (mk_chunk_state [] (firstn 20 sample_sentences) 300)
          (sample_sentence 20))
     = firstn 20 sample_sentences ++ [sample_sentence 20].
Proof.
  split.
  - rewrite (proj2 (proj2 sample_text_sentences)).
    apply (proj2 chunk_text_overlap sample_sentences).
    + reflexivity.
    + repeat constructor.
  - apply (proj1 chunk_text_overlap 300%Z 50%Z
             (mk_chunk_state [] (firstn 20 sample_sentences) 300)
             (sample_sentence 20)).
    + vm_compute. reflexivity.
    + discriminate.
    + lia.
Defined.

(** C2, as stated, fails: the scenario yields six chunks, not two, and
    the second chunk repeats all 20 sentences of the first. *)
Lemma chunk_text_scenario_six_chunks :
  word_count sample_text = 375
  /\ Forall (fun s => word_count s = 15) sample_sentences
  /\ length (chunk_text_default sample_text) = 6
  /\ length (chunk_text_default sample_text) <> 2
  /\ nth 1 (chunk_text_default sample_text) []
     = join space (firstn 20 sample_sentences ++ [sample_sentence 20]).
Proof.
  split; [vm_compute; reflexivity|].
  split; [repeat constructor|].
  split; [vm_compute; reflexivity|].
  split; [vm_compute; discriminate|].
  vm_compute; reflexivity.
Qed.

End ChunkFacts.

(** ** Ingestion *)

Module IngestFacts.
Import Py Models Utils.

Lemma map_fst_enumerate {A : Type} (l : list A) :
  map fst (enumerate l) = seq 0 (length l).
Proof.
  unfold enumerate. generalize 0. induction l as [|a l IH]; intro s; simpl;
    [reflexivity | now rewrite IH].
Qed.

Lemma NoDup_map_filter {A B : Type} (g : A -> B) (f : A -> bool) (l : list A) :
  NoDup (map g l) -> NoDup (map g (filter f l)).
Proof.
  induction l as [|a l IH]; simpl; intro H; [constructor|].
  inversion H as [|? ? Hnotin Hnd]; subst.
  destruct (f a); simpl; [constructor|]; try now apply IH.
  intro Hin. apply Hnotin.
  apply in_map_iff in Hin. destruct Hin as [x [Hx Hin]].
  apply filter_In in Hin. apply in_map_iff. exists x. tauto.
Qed.

Lemma chunk_rows_indices (doc : Document) (chunks : list str) :
  map Models.chunk_index (chunk_rows doc chunks)
  = map fst (filter (fun ic => negb (word_count (snd ic) <? 10))
                    (enumerate chunks)).
Proof. unfold chunk_rows. rewrite map_map. reflexivity. Qed.

(** The positions written for one document are pairwise distinct. *)
Lemma chunk_rows_NoDup (doc : Document) (chunks : list str) :
  NoDup (map Models.chunk_index (chunk_rows doc chunks)).
Proof.
  rewrite chunk_rows_indices. apply NoDup_map_filter.
  rewrite map_fst_enumerate. apply seq_NoDup.
Qed.

(** *** The uniqueness constraint is an invariant of the store *)

Definition preserves {A : Type} (m : M A) : Prop :=
  forall db, unique_together db -> unique_together (snd (m db)).

Lemma preserves_ret {A : Type} (a : A) : preserves (ret a).
Proof. intros db H. exact H. Qed.

Lemma preserves_bind {A B : Type} (m : M A) (k : A -> M B) :
  preserves m -> (forall a, preserves (k a)) -> preserves (bind m k).
Proof.
  intros Hm Hk db H. unfold bind. specialize (Hm db H).
  destruct (m db) as [[a|e] db']; simpl in *; [now apply Hk | exact Hm].
Qed.

Lemma preserves_for_each {A : Type} (xs : list A) (body : A -> M unit) :
  (forall x, preserves (body x)) -> preserves (for_each xs body).
Proof.
  intro Hb. induction xs as [|x xs IH]; simpl.
  - apply preserves_ret.
  - apply preserves_bind; [apply Hb | intros _; exact IH].
Qed.

Lemma preserves_try (m : M unit) : preserves m -> preserves (try_ m).
Proof.
  intros Hm db H. unfold try_. specialize (Hm db H).
  now destruct (m db) as [o db'].
Qed.

Lemma preserves_save (d : Document) : preserves (save d).
Proof. intros db H. exact H. Qed.

Lemma preserves_get_or_create (t u : str) : preserves (get_or_create t u).
Proof.
  intros db H. unfold get_or_create.
  destruct (filter _ (documents db)) as [|d [|d' ds]]; exact H.
Qed.

Lemma existsb_same_key (row : DocumentChunk) (rows : list DocumentChunk) :
  existsb (same_key row) rows = false -> ~ In (chunk_key row) (map chunk_key rows).
Proof.
  intros Hex Hin. apply in_map_iff in Hin. destruct Hin as [r [Hk Hr]].
  assert (Ht : existsb (same_key row) rows = true).
  { apply existsb_exists. exists r. split; [exact Hr|].
    unfold chunk_key in Hk. inversion Hk as [[Hd Hi]].
    unfold same_key. now rewrite Hd, Hi, !Nat.eqb_refl. }
  congruence.
Qed.

Lemma preserves_create_chunk (row : DocumentChunk) : preserves (create_chunk row).
Proof.
  intros db H. unfold create_chunk.
  destruct (existsb (same_key row) (doc_chunks db)) eqn:E; [exact H|].
  unfold unique_together in *. cbn [snd doc_chunks].
  rewrite map_app. cbn [map].
  apply (Permutation_NoDup (Permutation_cons_append _ _)).
  constructor; [now apply existsb_same_key | exact H].
Qed.

Lemma preserves_process_document (dir : list PdfFile) (doc : Document) :
  preserves (process_document dir doc).
Proof.
  unfold process_document.
  destruct (find_pdf dir (title doc)); [|apply preserves_ret].
  destruct (extract_text_from_pdf p); [apply preserves_ret|].
  destruct (word_count _ <? 50); [apply preserves_ret|].
  apply preserves_bind; [|intros _; apply preserves_save].
  apply preserves_for_each. apply preserves_create_chunk.
Qed.

Lemma process_documents_unique (dir : list PdfFile) :
  preserves (process_documents dir).
Proof.
  unfold process_documents. apply preserves_bind.
  - intros db H. exact H.
  - intro docs. apply preserves_for_each. apply preserves_process_document.
Qed.

Lemma load_sources_unique (sources : option (list Source)) :
  preserves (load_sources sources).
Proof.
  unfold load_sources. apply preserves_bind.
  - apply preserves_try. destruct sources as [srcs|]; [|apply preserves_ret].
    apply preserves_for_each. intro src. apply preserves_bind.
    + apply preserves_get_or_create.
    + intros [doc [|]]; [apply preserves_ret | apply preserves_save].
  - intros _ db H. exact H.
Qed.

(** A two-sentence text: three characters, then 300 words. *)
Definition long_sentence : str :=
  join space (repeat (lit "guard") 299 ++ [lit "guard."]).

Definition gap_text : str := join space [lit "Hi."; long_sentence].

Definition manual : Source :=
  mk_Source (lit "Manual") (lit "https://example.org/manual").

Definition gap_dir : list PdfFile :=
  [mk_PdfFile (lit "Manual.pdf") (Some [Some gap_text])].

(** A four-sentence manual of 60 words. *)
Definition manual_text : str :=
  join space (map ChunkFacts.sample_sentence (seq 0 4)).

Definition manual_dir : list PdfFile :=
  [mk_PdfFile (lit "Manual.pdf") (Some [None; Some manual_text])].

(** One ingestion run: [load_sources()] then [process_documents()]. *)
Definition ingest (sources : option (list Source)) (dir : list PdfFile)
  : M unit :=
  bind (load_sources sources) (fun _ => process_documents dir).

Lemma ingest_unique (sources : option (list Source)) (dir : list PdfFile) :
  preserves (ingest sources dir).
Proof.
  unfold ingest. apply preserves_bind; [apply load_sources_unique|].
  intros _. apply process_documents_unique.
Qed.

(** C10. The positions [process_documents] writes for a document are
    pairwise distinct, and the pair (document, position) stays unique in
    the store; the positions need not start at 0 nor be contiguous: a
    chunk of fewer than 10 words is passed over and its position is not
    reused.  In the example the first chunk has one word, and the only
    stored chunk of the document has position 1. *)
Theorem stored_chunk_indices :
  (forall (doc : Document) (chunks : list str),
     NoDup (map Models.chunk_index (chunk_rows doc chunks)))
  /\ (forall (sources : option (list Source)) (dir : list PdfFile) (db : DB),
        unique_together db -> unique_together (snd (ingest sources dir db)))
  /\ (let run := ingest (Some [manual]) gap_dir empty_db in
      fst run = Return tt
      /\ map word_count (chunk_text_default gap_text) = [1; 301]
      /\ map chunk_key (doc_chunks (snd run)) = [(1, 1)]).
Proof.
  split; [exact chunk_rows_NoDup|].
  split; [exact ingest_unique|].
  repeat split; vm_compute; reflexivity.
Qed.

Lemma stored_chunk_indices_witness :
  unique_together empty_db
  /\ unique_together (snd (ingest (Some [manual]) gap_dir empty_db)).
Proof.
  assert (H : unique_together empty_db) by constructor.
  split; [exact H|].
  apply (proj1 (proj2 stored_chunk_indices) (Some [manual]) gap_dir empty_db).
  exact H.
Defined.

(** *** Running the ingestion again *)

Lemma for_each_create_ok (rows : list DocumentChunk) (db db1 : DB) :
  for_each rows create_chunk db = (Return tt, db1) ->
  db1 = mk_DB (documents db) (doc_chunks db ++ rows) (next_doc_id db).
Proof.
  revert db. induction rows as [|r rows IH]; intros db H; simpl in H.
  - inversion H; subst. rewrite app_nil_r. now destruct db1.
  - unfold bind, create_chunk in H.
    destruct (existsb (same_key r) (doc_chunks db)); [discriminate|].
    apply IH in H. rewrite H. cbn [documents doc_chunks next_doc_id].
    now rewrite <- app_assoc.
Qed.

Lemma existsb_same_key_self (r : DocumentChunk) (before after : list DocumentChunk) :
  existsb (same_key r) (before ++ r :: after) = true.
Proof.
  apply existsb_exists. exists r. split; [apply in_elt|].
  unfold same_key. now rewrite !Nat.eqb_refl.
Qed.

(** When processing a document stored at least one chunk, processing the
    same document again is stopped by the uniqueness constraint at the
    first insert: nothing is replaced and nothing is added. *)
Lemma process_document_again (dir : list PdfFile) (doc : Document) (db db' : DB) :
  process_document dir doc db = (Return tt, db') ->
  length (doc_chunks db) < length (doc_chunks db') ->
  process_document dir doc db' = (Raise IntegrityError, db').
Proof.
  unfold process_document.
  destruct (find_pdf dir (title doc)) as [pdf|];
    [|intros H Hl; inversion H; subst; lia].
  destruct (extract_text_from_pdf pdf) as [|c text];
    [intros H Hl; inversion H; subst; lia|].
  destruct (word_count (c :: text) <? 50);
    [intros H Hl; inversion H; subst; lia|].
  generalize (chunk_rows doc (chunk_text_default (c :: text))) as rows.
  intros rows H Hl. unfold bind in H.
  destruct (for_each rows create_chunk db) as [[[]|e] db1] eqn:E;
    [|discriminate].
  apply for_each_create_ok in E. subst db1.
  unfold save in H. inversion H as [Hdb']. clear H.
  rewrite <- Hdb' in Hl. cbn [doc_chunks] in Hl. rewrite length_app in Hl.
  destruct rows as [|r rows]; [simpl in Hl; lia|].
  rewrite Hdb'. unfold bind. cbn [for_each]. unfold bind, create_chunk.
  replace (doc_chunks db') with (doc_chunks db ++ r :: rows)
    by (now rewrite <- Hdb').
  now rewrite existsb_same_key_self.
Qed.

(** The sibling path: [initialize_system] clears the tables before it
    ingests, so running it twice succeeds and leaves one chunk. *)
Lemma initialize_system_twice :
  let first := Views.initialize_system (Some [manual]) manual_dir empty_db in
  let second := Views.initialize_system (Some [manual]) manual_dir (snd first) in
  fst first = Return tt
  /\ fst second = Return tt
  /\ map Models.chunk_index (doc_chunks (snd second)) = [0]
  /\ map processed (documents (snd second)) = [true].
Proof. repeat split; vm_compute; reflexivity. Qed.

(** C9, where the code departs from it: a manual of 60 words is ingested
    (one chunk, position 0) and then ingested again. [load_sources] puts
    the document back to unprocessed, [process_documents] tries to insert
    position 0 once more and the uniqueness constraint raises: the run
    fails, the old chunk is still the stored one, and the document stays
    unprocessed. *)
Theorem reingest_raises_integrity_error :
  let first := ingest (Some [manual]) manual_dir empty_db in
  let second := ingest (Some [manual]) manual_dir (snd first) in
  fst first = Return tt
  /\ map chunk_key (doc_chunks (snd first)) = [(1, 0)]
  /\ map processed (documents (snd first)) = [true]
  /\ fst second = Raise IntegrityError
  /\ doc_chunks (snd second) = doc_chunks (snd first)
  /\ map processed (documents (snd second)) = [false].
Proof. repeat split; vm_compute; reflexivity. Qed.

End IngestFacts.

(** ** Text cleaning *)

Module CleanFacts.
Import Py Utils.

(** A text without a match is left alone by [re.sub]. *)
Lemma sub_from_no_match (pat : Re.pattern) (repl : str)
    (prev : option ascii) (s : str) :
  Re.search_from pat prev s = false -> Re.sub_from pat repl 0 prev s = s.
Proof.
  revert prev. induction s as [|c s IH]; intros prev H; [reflexivity|].
  cbn [Re.search_from] in H. cbn [Re.sub_from].
  destruct (Re.match_items pat prev (c :: s)); [discriminate|].
  now rewrite IH.
Qed.

Lemma sub_no_match (pat : Re.pattern) (repl : str) (s : str) :
  Re.search pat s = false -> Re.sub pat repl s = s.
Proof. apply sub_from_no_match. Qed.

(** *** Runs of one character class *)

(** The length of the leading run of [cls], and what follows it. *)
Fixpoint run (cls : ascii -> bool) (s : str) : nat :=
  match s with
  | c :: s' => if cls c then S (run cls s') else 0
  | [] => 0
  end.

Fixpoint drop (cls : ascii -> bool) (s : str) : str :=
  match s with
  | c :: s' => if cls c then drop cls s' else s
  | [] => []
  end.

(** The first character, if any, is outside [cls]. *)
Definition head_not (cls : ascii -> bool) (s : str) : Prop :=
  match s with
  | [] => True
  | d :: _ => cls d = false
  end.

(** Every character of [cls] is [r] and is followed by a character
    outside [cls]: the runs of [cls] are single occurrences of [r]. *)
Fixpoint nf (cls : ascii -> bool) (r : ascii) (s : str) : Prop :=
  match s with
  | [] => True
  | c :: s' => (cls c = true -> c = r /\ head_not cls s') /\ nf cls r s'
  end.

Lemma length_drop (cls : ascii -> bool) (s : str) :
  length (drop cls s) + run cls s = length s.
Proof.
  induction s as [|c s IH]; simpl; [reflexivity|].
  destruct (cls c); simpl; lia.
Qed.

Lemma skipn_run (cls : ascii -> bool) (s : str) :
  skipn (run cls s) s = drop cls s.
Proof.
  induction s as [|c s IH]; simpl; [reflexivity|].
  destruct (cls c); simpl; [exact IH | reflexivity].
Qed.

Lemma head_not_drop (cls : ascii -> bool) (s : str) : head_not cls (drop cls s).
Proof.
  induction s as [|c s IH]; simpl; [exact I|].
  destruct (cls c) eqn:E; [exact IH | exact E].
Qed.

Lemma head_not_run (cls : ascii -> bool) (s : str) :
  head_not cls s <-> run cls s = 0.
Proof.
  destruct s as [|c s]; simpl; [tauto|].
  destruct (cls c); split; intro H; congruence.
Qed.

Lemma drop_head_not (cls : ascii -> bool) (s : str) :
  head_not cls s -> drop cls s = s.
Proof.
  destruct s as [|c s]; simpl; [reflexivity|]. now intros ->.
Qed.

Lemma nf_app_r (cls : ascii -> bool) (r : ascii) (a b : str) :
  nf cls r (a ++ b) -> nf cls r b.
Proof. induction a as [|c a IH]; simpl; [tauto|]. intros [_ H]. now apply IH. Qed.

Lemma head_not_app_l (cls : ascii -> bool) (a b : str) :
  head_not cls (a ++ b) -> head_not cls a.
Proof. destruct a; simpl; tauto. Qed.

Lemma nf_app_l (cls : ascii -> bool) (r : ascii) (a b : str) :
  nf cls r (a ++ b) -> nf cls r a.
Proof.
  induction a as [|c a IH]; simpl; [tauto|].
  intros [Hc H]. split; [|now apply IH].
  intro E. destruct (Hc E) as [-> Hh]. split; [reflexivity|].
  now apply head_not_app_l in Hh.
Qed.

Lemma drop_suffix (cls : ascii -> bool) (s : str) :
  exists a, s = a ++ drop cls s.
Proof.
  induction s as [|c s [a IH]]; simpl; [now exists []|].
  destruct (cls c); [|now exists []].
  exists (c :: a). simpl. now f_equal.
Qed.

Lemma nf_drop (cls cls' : ascii -> bool) (r : ascii) (s : str) :
  nf cls' r s -> nf cls' r (drop cls s).
Proof.
  intro H. destruct (drop_suffix cls s) as [a E]. rewrite E in H.
  now apply nf_app_r in H.
Qed.

(** The matcher on a pattern that is one repetition. *)
Lemma match_rep (cls : ascii -> bool) (m : nat) (prev : option ascii) (s : str) :
  Re.match_items [Re.Rep cls m] prev s =
  if m <=? run cls s then Some (drop cls s) else None.
Proof.
  cbn [Re.match_items]. revert m prev.
  induction s as [|c s IH]; intros m prev; cbn [Re.rep_greedy run drop].
  - now destruct m.
  - destruct (cls c) eqn:E.
    + rewrite IH.
      destruct (pred m <=? run cls s) eqn:L.
      * apply Nat.leb_le in L.
        assert (L' : (m <=? S (run cls s)) = true) by (apply Nat.leb_le; lia).
        now rewrite L'.
      * apply Nat.leb_gt in L.
        assert (L' : (m <=? S (run cls s)) = false) by (apply Nat.leb_gt; lia).
        rewrite L'. destruct m; [lia | reflexivity].
    + now destruct m.
Qed.

Section Collapse.

(** [re.sub(r'[cls]{m,}', r, s)] for [m] 1 or 2, where for [m = 2] the
    class is the single character [r]. *)
Variable cls : ascii -> bool.
Variable r : ascii.
Variable m : nat.
Hypothesis m_range : 1 <= m <= 2.
Hypothesis single : m = 2 -> forall c, cls c = true -> c = r.

Definition collapse (s : str) : str := Re.sub [Re.Rep cls m] [r] s.

Lemma sub_from_skip (n : nat) (prev prev' : option ascii) (s : str) :
  n <= length s ->
  Re.sub_from [Re.Rep cls m] [r] n prev s
  = Re.sub_from [Re.Rep cls m] [r] 0 prev' (skipn n s).
Proof.
  revert prev prev' s. induction n as [|n IH]; intros prev prev' s Hn.
  - cbn [skipn]. destruct s as [|c s]; [reflexivity|].
    cbn [Re.sub_from]. now rewrite !match_rep.
  - destruct s as [|c s]; [simpl in Hn; lia|].
    cbn [Re.sub_from skipn]. apply IH. simpl in Hn. lia.
Qed.

(** The scanning loop, one decision at a time. *)
Lemma collapse_cons (c : ascii) (s : str) :
  collapse (c :: s) =
  if m <=? run cls (c :: s)
  then r :: collapse (drop cls (c :: s))
  else c :: collapse s.
Proof.
  unfold collapse, Re.sub. cbn [Re.sub_from]. rewrite match_rep.
  destruct (m <=? run cls (c :: s)) eqn:L.
  - apply Nat.leb_le in L. cbn [app]. f_equal.
    assert (E : cls c = true).
    { simpl in L. destruct (cls c); [reflexivity | lia]. }
    cbn [drop]. rewrite E.
    pose proof (length_drop cls s) as Hl.
    rewrite (sub_from_skip _ (Some c) None) by lia.
    replace (length s - length (drop cls s)) with (run cls s) by lia.
    now rewrite skipn_run.
  - f_equal. apply (sub_from_skip 0 (Some c) None s). lia.
Qed.

Lemma collapse_head_not (cls' : ascii -> bool) (s : str) :
  cls' r = false -> head_not cls' s -> head_not cls' (collapse s).
Proof.
  intros Hr H. destruct s as [|c s]; [exact I|].
  rewrite collapse_cons. destruct (m <=? run cls (c :: s)); simpl; assumption.
Qed.

Lemma collapse_head_not_self (s : str) :
  head_not cls s -> head_not cls (collapse s).
Proof.
  intro H. destruct s as [|c s]; [exact I|].
  rewrite collapse_cons. simpl in H. cbn [run]. rewrite H.
  assert (L : (m <=? 0) = false) by (apply Nat.leb_gt; lia).
  rewrite L. exact H.
Qed.

(** The result has no run left. *)
Lemma collapse_nf (s : str) : nf cls r (collapse s).
Proof.
  remember (length s) as n eqn:Hn. revert s Hn.
  induction n as [n IH] using lt_wf_ind. intros s Hn.
  destruct s as [|c s]; [exact I|].
  rewrite collapse_cons.
  destruct (m <=? run cls (c :: s)) eqn:L.
  - apply Nat.leb_le in L. cbn [nf]. split.
    + intros _. split; [reflexivity|].
      apply collapse_head_not_self, head_not_drop.
    + apply (IH (length (drop cls (c :: s)))); [|reflexivity].
      pose proof (length_drop cls (c :: s)). lia.
  - apply Nat.leb_gt in L. cbn [nf]. split.
    + intro E. cbn [run] in L. rewrite E in L.
      assert (m = 2) by lia. split; [now apply single|].
      apply collapse_head_not_self. apply head_not_run. lia.
    + apply (IH (length s)); [subst n; simpl; lia | reflexivity].
Qed.

(** A text without runs is left alone. *)
Lemma collapse_fixed (s : str) : nf cls r s -> collapse s = s.
Proof.
  induction s as [|c s IH]; [reflexivity|].
  cbn [nf]. intros [Hc Hs]. rewrite collapse_cons. cbn [run drop].
  destruct (cls c) eqn:E.
  - destruct (Hc eq_refl) as [-> Hh].
    apply head_not_run in Hh as Hrun. rewrite Hrun.
    destruct (m <=? 1) eqn:L.
    + rewrite (drop_head_not cls s Hh). now rewrite IH.
    + now rewrite IH.
  - assert (L : (m <=? 0) = false) by (apply Nat.leb_gt; lia).
    rewrite L. now rewrite IH.
Qed.

(** Collapsing the runs of one class does not create a run of a class
    disjoint from it. *)
Lemma collapse_keeps_nf (cls' : ascii -> bool) (r' : ascii) (s : str) :
  cls' r = false -> nf cls' r' s -> nf cls' r' (collapse s).
Proof.
  intro Hr.
  remember (length s) as n eqn:Hn. revert s Hn.
  induction n as [n IH] using lt_wf_ind. intros s Hn H.
  destruct s as [|c s]; [exact I|].
  rewrite collapse_cons.
  destruct (m <=? run cls (c :: s)) eqn:L.
  - apply Nat.leb_le in L. cbn [nf]. split; [intro E; congruence|].
    apply (IH (length (drop cls (c :: s)))); [|reflexivity|now apply nf_drop].
    pose proof (length_drop cls (c :: s)). lia.
  - cbn [nf] in *. destruct H as [Hc Hs]. split.
    + intro E. destruct (Hc E) as [-> Hh]. split; [reflexivity|].
      now apply collapse_head_not.
    + apply (IH (length s)); [subst n; simpl; lia | reflexivity | exact Hs].
Qed.

End Collapse.

(** *** Stripping *)

Lemma lstrip_suffix (s : str) : exists a, s = a ++ lstrip s.
Proof.
  induction s as [|c s [a IH]]; simpl; [now exists []|].
  destruct (is_space c); [|now exists []].
  exists (c :: a). simpl. now f_equal.
Qed.

Lemma rstrip_prefix (s : str) : exists b, s = rstrip s ++ b.
Proof.
  destruct (lstrip_suffix (rev s)) as [a E]. exists (rev a).
  unfold rstrip. rewrite <- rev_app_distr, <- E. now rewrite rev_involutive.
Qed.

Lemma head_not_lstrip (s : str) : head_not is_space (lstrip s).
Proof.
  induction s as [|c s IH]; simpl; [exact I|].
  destruct (is_space c) eqn:E; [exact IH | exact E].
Qed.

Lemma lstrip_fixed (s : str) : head_not is_space s -> lstrip s = s.
Proof. destruct s as [|c s]; simpl; [reflexivity|]. now intros ->. Qed.

Lemma strip_fixed (s : str) :
  head_not is_space s -> head_not is_space (rev s) -> strip s = s.
Proof.
  intros H1 H2. unfold strip, rstrip.
  rewrite (lstrip_fixed s H1), (lstrip_fixed (rev s) H2).
  apply rev_involutive.
Qed.

Lemma strip_ends (s : str) :
  head_not is_space (strip s) /\ head_not is_space (rev (strip s)).
Proof.
  split.
  - destruct (rstrip_prefix (lstrip s)) as [b E]. fold (strip s) in E.
    pose proof (head_not_lstrip s) as H. rewrite E in H.
    now apply head_not_app_l in H.
  - unfold strip, rstrip. rewrite rev_involutive. apply head_not_lstrip.
Qed.

Lemma nf_strip (cls : ascii -> bool) (r : ascii) (s : str) :
  nf cls r s -> nf cls r (strip s).
Proof.
  intro H.
  destruct (lstrip_suffix s) as [a Ea]. rewrite Ea in H. apply nf_app_r in H.
  destruct (rstrip_prefix (lstrip s)) as [b Eb]. rewrite Eb in H.
  now apply nf_app_l in H.
Qed.

(** *** The shape of a cleaned text *)

(** No run of dots, of hyphens or of whitespace, single spaces as the
    only whitespace, and no whitespace at either end. *)
Definition cleaned (y : str) : Prop :=
  nf is_dot "."%char y
  /\ nf is_hyphen "-"%char y
  /\ nf is_space " "%char y
  /\ head_not is_space y
  /\ head_not is_space (rev y).

Lemma is_dot_eq (c : ascii) : is_dot c = true -> c = "."%char.
Proof. apply Ascii.eqb_eq. Qed.

Lemma is_hyphen_eq (c : ascii) : is_hyphen c = true -> c = "-"%char.
Proof. apply Ascii.eqb_eq. Qed.

Lemma sub_dots_collapse (s : str) :
  Re.sub pat_dots (lit ".") s = collapse is_dot "."%char 2 s.
Proof. reflexivity. Qed.

Lemma sub_hyphens_collapse (s : str) :
  Re.sub pat_hyphens (lit "-") s = collapse is_hyphen "-"%char 2 s.
Proof. reflexivity. Qed.

Lemma sub_spaces_collapse (s : str) :
  Re.sub pat_spaces (lit " ") s = collapse is_space " "%char 1 s.
Proof. reflexivity. Qed.

Lemma normalise_cleaned (z : str) :
  cleaned (strip (Re.sub pat_spaces (lit " ")
            (Re.sub pat_hyphens (lit "-") (Re.sub pat_dots (lit ".") z)))).
Proof.
  rewrite sub_dots_collapse, sub_hyphens_collapse, sub_spaces_collapse.
  assert (D1 : nf is_dot "."%char (collapse is_dot "."%char 2 z)).
  { apply collapse_nf; [lia | intros _; exact is_dot_eq]. }
  set (d1 := collapse is_dot "."%char 2 z) in *.
  assert (H2 : nf is_hyphen "-"%char (collapse is_hyphen "-"%char 2 d1)).
  { apply collapse_nf; [lia | intros _; exact is_hyphen_eq]. }
  assert (D2 : nf is_dot "."%char (collapse is_hyphen "-"%char 2 d1)).
  { apply collapse_keeps_nf;
      [lia | intros _; exact is_hyphen_eq | reflexivity | exact D1]. }
  set (d2 := collapse is_hyphen "-"%char 2 d1) in *.
  assert (S3 : nf is_space " "%char (collapse is_space " "%char 1 d2)).
  { apply collapse_nf; [lia | intros E; discriminate]. }
  assert (D3 : nf is_dot "."%char (collapse is_space " "%char 1 d2)).
  { apply collapse_keeps_nf;
      [lia | intros E; discriminate | reflexivity | exact D2]. }
  assert (H3 : nf is_hyphen "-"%char (collapse is_space " "%char 1 d2)).
  { apply collapse_keeps_nf;
      [lia | intros E; discriminate | reflexivity | exact H2]. }
  set (d3 := collapse is_space " "%char 1 d2) in *.
  unfold cleaned. repeat split; try (now apply nf_strip); apply strip_ends.
Qed.

(** What [clean_text] returns is always of that shape. *)
Lemma clean_text_cleaned (x : str) : cleaned (clean_text x).
Proof.
  destruct x as [|c x]; [repeat split|].
  unfold clean_text. apply normalise_cleaned.
Qed.

(** On a text of that shape the three normalisation steps and the final
    strip change nothing. *)
Lemma normalise_fixed (y : str) :
  cleaned y ->
  strip (Re.sub pat_spaces (lit " ")
           (Re.sub pat_hyphens (lit "-") (Re.sub pat_dots (lit ".") y))) = y.
Proof.
  intros [D [H [S [E1 E2]]]].
  rewrite sub_dots_collapse.
  rewrite (collapse_fixed is_dot "."%char 2)
    by (try lia; try assumption; intros _; exact is_dot_eq).
  rewrite sub_hyphens_collapse.
  rewrite (collapse_fixed is_hyphen "-"%char 2)
    by (try lia; try assumption; intros _; exact is_hyphen_eq).
  rewrite sub_spaces_collapse.
  rewrite (collapse_fixed is_space " "%char 1)
    by (try lia; try assumption; intros E; discriminate).
  now apply strip_fixed.
Qed.

(** C5, as the code has it. A second pass of [clean_text] changes its
    own output only by removing a match of one of the four removal
    patterns (Page N, N of M, URL, e-mail address) that the first pass
    left or formed: when the cleaned text holds no such match,
    [clean_text (clean_text x) = clean_text x]. *)
Theorem clean_text_idempotent_without_match (x : str) :
  Re.search pat_page (clean_text x) = false ->
  Re.search pat_n_of_m (clean_text x) = false ->
  Re.search pat_url (clean_text x) = false ->
  Re.search pat_email (clean_text x) = false ->
  clean_text (clean_text x) = clean_text x.
Proof.
  intros Hpage Hnofm Hurl Hemail.
  pose proof (clean_text_cleaned x) as Hc.
  destruct (clean_text x) as [|c y] eqn:E; [reflexivity|].
  unfold clean_text at 1.
  rewrite (sub_no_match pat_page) by exact Hpage.
  rewrite (sub_no_match pat_n_of_m) by exact Hnofm.
  rewrite (sub_no_match pat_url) by exact Hurl.
  rewrite (sub_no_match pat_email) by exact Hemail.
  now apply normalise_fixed.
Qed.

Definition notice : str :=
  lit "  Wear   gloves... always -- see Page 12 or mail ehs@example.org  ".

Lemma clean_text_idempotent_without_match_witness :
  clean_text notice = lit "Wear gloves. always - see or mail"
  /\ clean_text (clean_text notice) = clean_text notice.
Proof.
  split; [vm_compute; reflexivity|].
  apply (clean_text_idempotent_without_match notice); vm_compute; reflexivity.
Defined.

(** C5, as stated, fails: removing [Page 1] from between [Page] and [2]
    leaves [Page 2], which a second pass removes. *)
Lemma clean_text_not_idempotent :
  clean_text (lit "Page Page 1 2") = lit "Page 2"
  /\ clean_text (clean_text (lit "Page Page 1 2")) = []
  /\ clean_text (clean_text (lit "Page Page 1 2"))
     <> clean_text (lit "Page Page 1 2").
Proof.
  split; [vm_compute; reflexivity|].
  split; [vm_compute; reflexivity|].
  vm_compute. discriminate.
Qed.

End CleanFacts.

(** * Further properties of the sources *)

(** ** [truncate_answer] and [ask_api] *)

Module AnswerFacts.
Import Py Embeddings Views ViewsFacts.

Local Open Scope Z_scope.

(** [rfind] answers the last position of the character. *)
Lemma rfind_from_spec (c : ascii) (i0 : Z) (s : str) :
  0 <= i0 ->
  (rfind_from c i0 s = -1 /\ ~ In c s)
  \/ exists n : nat,
       rfind_from c i0 s = i0 + Z.of_nat n
       /\ nth_error s n = Some c
       /\ forall j : nat, (n < j)%nat -> nth_error s j <> Some c.
Proof.
  revert i0. induction s as [|x s IH]; intros i0 Hi0.
  - left. split; [reflexivity | intros []].
  - cbn [rfind_from].
    destruct (IH (i0 + 1) ltac:(lia)) as [[E Hnot]|[n [E [Hn Hlast]]]].
    + rewrite E. cbn [Z.leb Z.compare].
      destruct (Ascii.eqb x c) eqn:Ex.
      * apply Ascii.eqb_eq in Ex. subst x. right. exists 0%nat.
        split; [lia|]. split; [reflexivity|].
        intros [|j] Hj; [lia|]. cbn [nth_error]. intro Hc.
        apply Hnot. eapply nth_error_In. exact Hc.
      * apply Ascii.eqb_neq in Ex. left. split; [reflexivity|].
        intros [Hx|Hin]; [congruence | now apply Hnot].
    + assert (L : (0 <=? rfind_from c (i0 + 1) s) = true)
        by (apply Z.leb_le; lia).
      rewrite L. right. exists (S n).
      split; [lia|]. split; [exact Hn|].
      intros [|j] Hj; [lia|]. cbn [nth_error]. apply Hlast. lia.
Qed.

Lemma rfind_last (c : ascii) (s : str) (i : nat) :
  nth_error s i = Some c ->
  (forall j : nat, (i < j)%nat -> nth_error s j <> Some c) ->
  rfind c s = Z.of_nat i.
Proof.
  intros Hi Hlast. unfold rfind.
  destruct (rfind_from_spec c 0 s ltac:(lia)) as [[_ Hnot]|[n [E [Hn Hl]]]].
  - exfalso. apply Hnot. eapply nth_error_In. exact Hi.
  - rewrite E. destruct (Nat.lt_trichotomy n i) as [H|[H|H]].
    + exfalso. now apply (Hl i H).
    + subst. lia.
    + exfalso. now apply (Hlast n H).
Qed.

Lemma rfind_at_most (c : ascii) (s : str) (i : nat) :
  (forall j : nat, (i < j)%nat -> nth_error s j <> Some c) ->
  rfind c s <= Z.of_nat i.
Proof.
  intros Hlast. unfold rfind.
  destruct (rfind_from_spec c 0 s ltac:(lia)) as [[E _]|[n [E [Hn Hl]]]].
  - rewrite E. lia.
  - rewrite E. destruct (Nat.le_gt_cases n i) as [H|H]; [lia|].
    exfalso. now apply (Hlast n H).
Qed.

Lemma nth_error_firstn_lt {A : Type} (l : list A) (n j : nat) :
  (j < n)%nat -> nth_error (firstn n l) j = nth_error l j.
Proof.
  revert l j. induction n as [|n IH]; intros l j H; [lia|].
  destruct l as [|a l]; [now destruct j|].
  destruct j as [|j]; [reflexivity|]. cbn. apply IH. lia.
Qed.

Lemma nth_error_firstn_ge {A : Type} (l : list A) (n j : nat) :
  (n <= j)%nat -> nth_error (firstn n l) j = None.
Proof.
  intro H. apply nth_error_None. rewrite length_firstn. lia.
Qed.

(** X1. The sentence cut. When the text is longer than the limit and the
    last sentence terminator among its first [max_length] characters is
    at a position [i >= 1], the result is the text up to and including
    that terminator, followed by two dots. *)
Theorem truncate_answer_sentence_cut
    (text : str) (max_length : Z) (i : nat) (c : ascii) :
  max_length < Z.of_nat (length text) ->
  (1 <= i)%nat -> Z.of_nat i < max_length ->
  nth_error text i = Some c ->
  Utils.is_terminator c = true ->
  (forall (j : nat) (d : ascii),
     (i < j)%nat -> Z.of_nat j < max_length ->
     nth_error text j = Some d -> Utils.is_terminator d = false) ->
  truncate_answer text max_length = firstn (S i) text ++ lit "..".
Proof.
  intros Hlong Hi Him Hc Hterm Hlast. unfold truncate_answer.
  assert (E : (Z.of_nat (length text) <=? max_length) = false)
    by (apply Z.leb_gt; lia).
  rewrite E. unfold slice_to.
  assert (E0 : (0 <=? max_length) = true) by (apply Z.leb_le; lia).
  rewrite E0. set (w := firstn (Z.to_nat max_length) text).
  assert (Hw : forall j, (j < Z.to_nat max_length)%nat ->
                         nth_error w j = nth_error text j)
    by (intros j Hj; apply nth_error_firstn_lt; exact Hj).
  assert (Hw' : forall j, (Z.to_nat max_length <= j)%nat ->
                          nth_error w j = None)
    by (intros j Hj; apply nth_error_firstn_ge; exact Hj).
  assert (Hnone : forall t, Utils.is_terminator t = true ->
                            forall j, (i < j)%nat -> nth_error w j <> Some t).
  { intros t Ht j Hj Hnth.
    destruct (Nat.lt_ge_cases j (Z.to_nat max_length)) as [Hlt|Hge].
    - rewrite Hw in Hnth by exact Hlt.
      specialize (Hlast j t Hj ltac:(lia) Hnth). congruence.
    - rewrite Hw' in Hnth by exact Hge. discriminate. }
  assert (Hci : rfind c w = Z.of_nat i).
  { apply rfind_last; [rewrite Hw by lia; exact Hc | now apply Hnone]. }
  pose proof (rfind_at_most "."%char w i (Hnone "."%char eq_refl)) as H1.
  pose proof (rfind_at_most "!"%char w i (Hnone "!"%char eq_refl)) as H2.
  pose proof (rfind_at_most "?"%char w i (Hnone "?"%char eq_refl)) as H3.
  assert (Hmax : Z.max (Z.max (rfind "."%char w) (rfind "!"%char w))
                       (rfind "?"%char w) = Z.of_nat i).
  { unfold Utils.is_terminator in Hterm.
    destruct (Ascii.eqb c ".") eqn:Ed;
      [apply Ascii.eqb_eq in Ed; subst c; lia|].
    destruct (Ascii.eqb c "!") eqn:Ee;
      [apply Ascii.eqb_eq in Ee; subst c; lia|].
    destruct (Ascii.eqb c "?") eqn:Eq;
      [apply Ascii.eqb_eq in Eq; subst c; lia | discriminate]. }
  rewrite Hmax.
  assert (L : (0 <? Z.of_nat i) = true) by (apply Z.ltb_lt; lia).
  rewrite L.
  assert (L' : (0 <=? Z.of_nat i + 1) = true) by (apply Z.leb_le; lia).
  rewrite L'. replace (Z.to_nat (Z.of_nat i + 1)) with (S i) by lia.
  unfold w. rewrite firstn_firstn.
  replace (Nat.min (S i) (Z.to_nat max_length)) with (S i) by lia.
  reflexivity.
Qed.

Lemma truncate_answer_sentence_cut_witness :
  truncate_answer (lit "Wear gloves. Keep the guard closed") 20
  = lit "Wear gloves...".
Proof.
  apply (truncate_answer_sentence_cut
           (lit "Wear gloves. Keep the guard closed") 20 11 "."%char).
  - vm_compute. reflexivity.
  - lia.
  - lia.
  - reflexivity.
  - reflexivity.
  - intros j d Hj Hm Hd.
    assert (Hcases : (j = 12 \/ j = 13 \/ j = 14 \/ j = 15 \/ j = 16
                      \/ j = 17 \/ j = 18 \/ j = 19)%nat) by lia.
    destruct Hcases as [->|[->|[->|[->|[->|[->|[->| ->]]]]]]];
      inversion Hd; reflexivity.
Defined.

(** X2. For a limit that is not negative, the result is a prefix of the
    text of at most [max_length] characters followed by nothing, by two
    dots or by three dots; it has at most [max_length + 3] characters. *)
Theorem truncate_answer_prefix (text : str) (max_length : Z) :
  0 <= max_length ->
  exists (n : nat) (dots : str),
    truncate_answer text max_length = firstn n text ++ dots
    /\ Z.of_nat n <= max_length
    /\ (dots = [] \/ dots = lit ".." \/ dots = lit "...")
    /\ Z.of_nat (length (truncate_answer text max_length)) <= max_length + 3.
Proof.
  intro H. pose proof (truncate_answer_length text max_length H) as Hlen.
  unfold truncate_answer in *.
  destruct (Z.of_nat (length text) <=? max_length) eqn:E.
  - apply Z.leb_le in E. exists (length text), [].
    split; [now rewrite firstn_all, app_nil_r|].
    split; [lia|]. split; [auto | exact Hlen].
  - unfold slice_to in *.
    assert (E0 : (0 <=? max_length) = true) by (apply Z.leb_le; lia).
    rewrite E0 in *.
    set (w := firstn (Z.to_nat max_length) text) in *.
    set (e := Z.max (Z.max (rfind "."%char w) (rfind "!"%char w))
                    (rfind "?"%char w)) in *.
    destruct (0 <? e) eqn:L.
    + apply Z.ltb_lt in L.
      assert (L' : (0 <=? e + 1) = true) by (apply Z.leb_le; lia).
      rewrite L' in *.
      exists (Nat.min (Z.to_nat (e + 1)) (Z.to_nat max_length)), (lit "..").
      split; [unfold w; now rewrite firstn_firstn|].
      split; [lia|]. split; [auto | exact Hlen].
    + exists (Z.to_nat max_length), (lit "...").
      split; [reflexivity|]. split; [lia|]. split; [auto | exact Hlen].
Qed.

Lemma truncate_answer_prefix_witness :
  exists (n : nat) (dots : str),
    truncate_answer (lit "Lock out the machine before any repair") 12
    = firstn n (lit "Lock out the machine before any repair") ++ dots
    /\ Z.of_nat n <= 12
    /\ (dots = [] \/ dots = lit ".." \/ dots = lit "...")
    /\ Z.of_nat (length (truncate_answer
                           (lit "Lock out the machine before any repair") 12))
       <= 12 + 3.
Proof.
  apply (truncate_answer_prefix
           (lit "Lock out the machine before any repair") 12).
  lia.
Defined.

(** *** The response of [ask_api] *)

Lemma generate_answer_bounds (results : list Candidate) :
  (length (snd (generate_answer results)) <= length results)%nat
  /\ (forall a, fst (generate_answer results) = Some a ->
                (length a <= 503)%nat)
  /\ (fst (generate_answer results) = None ->
      snd (generate_answer results) = []).
Proof.
  unfold generate_answer. destruct results as [|c rest].
  - cbn. repeat split; auto. intros a Ha. discriminate.
  - destruct (filter _ (c :: rest)) as [|t ts].
    + cbn. repeat split; auto; try lia. intros a Ha. discriminate.
    + cbn [fst snd]. repeat split.
      * now rewrite length_map.
      * intros a Ha. inversion Ha as [Ha']. apply Nat2Z.inj_le.
        eapply Z.le_trans; [apply truncate_answer_length|]; lia.
      * intro Hn. discriminate.
Qed.

Lemma ask_api_json
    (encode : str -> list Q) (collection : option Collection)
    (stop_words : list str)
    (BM25Okapi : list (list str) -> option (list str -> list Q))
    (argsort : list Q -> list nat)
    (method q : str) (k : Z) (mode : str) (r : AnswerResult) :
  0 <= k ->
  ask_api encode collection stop_words BM25Okapi argsort method q k mode
  = Json r ->
  Z.of_nat (length (contexts r)) <= k
  /\ (forall a, answer r = Some a -> (length a <= 503)%nat)
  /\ (answer r = None -> contexts r = [])
  /\ query r = q
  /\ method = lit "POST" /\ q <> [].
Proof.
  intros Hk. unfold ask_api.
  destruct (str_eqb method (lit "POST")) eqn:Em; cbn [negb]; [|discriminate].
  assert (Hm : method = lit "POST").
  { clear - Em. revert Em. generalize (lit "POST") as p.
    induction method as [|x m IH]; intros [|y p] E; simpl in E;
      try discriminate; [reflexivity|].
    apply andb_prop in E. destruct E as [E1 E2].
    apply Ascii.eqb_eq in E1. subst. f_equal. now apply IH. }
  destruct q as [|c0 q0] eqn:Eq; [discriminate|]. rewrite <- Eq.
  set (baseline := search_embeddings encode collection q (k * 2)).
  assert (Hgen : forall results used,
            Z.of_nat (length results) <= k ->
            (let '(answer, contexts) := generate_answer results in
             Json (mk_AnswerResult answer contexts used q)) = Json r ->
            Z.of_nat (length (contexts r)) <= k
            /\ (forall a, answer r = Some a -> (length a <= 503)%nat)
            /\ (answer r = None -> contexts r = [])
            /\ query r = q /\ method = lit "POST" /\ q <> []).
  { intros results used Hlen H.
    pose proof (generate_answer_bounds results) as [B1 [B2 B3]].
    destruct (generate_answer results) as [a cs]. cbn [fst snd] in *.
    inversion H; subst r. cbn [contexts answer query].
    repeat split; auto; try lia. rewrite Eq. discriminate. }
  destruct (str_eqb mode (lit "baseline")).
  - apply Hgen. apply length_slice_to_nonneg. exact Hk.
  - destruct baseline as [|b bs] eqn:Eb.
    + apply Hgen. cbn. lia.
    + destruct (Reranker.rerank _ _ _ _ _ _ _) as [reranked|];
        [|discriminate].
      apply Hgen. apply length_slice_to_nonneg. exact Hk.
Qed.

(** X3. A successful response to a request with [k >= 0] carries at
    most [k] contexts and echoes the query; its answer, when there is
    one, has at most 503 characters; without an answer it has no
    context.  A response can only be successful for a POST request with
    a query that is not empty. *)
Theorem ask_api_response_bounds
    (encode : str -> list Q) (collection : option Collection)
    (stop_words : list str)
    (BM25Okapi : list (list str) -> option (list str -> list Q))
    (argsort : list Q -> list nat)
    (method q : str) (k : Z) (mode : str) (r : AnswerResult) :
  0 <= k ->
  ask_api encode collection stop_words BM25Okapi argsort method q k mode
  = Json r ->
  Z.of_nat (length (contexts r)) <= k
  /\ (forall a, answer r = Some a -> (length a <= 503)%nat)
  /\ (answer r = None -> contexts r = [])
  /\ query r = q
  /\ method = lit "POST" /\ q <> [].
Proof. apply ask_api_json. Qed.

Lemma ask_api_response_bounds_witness :
  exists r,
    ask_api EmbeddingsFacts.demo_encode (Some EmbeddingsFacts.demo_store)
            [] no_bm25 Reranker.stable_argsort
            (lit "POST") (lit "guards") 2 (lit "baseline") = Json r
    /\ Z.of_nat (length (contexts r)) <= 2
    /\ (forall a, answer r = Some a -> (length a <= 503)%nat).
Proof.
  eexists. split; [vm_compute; reflexivity|].
  match goal with
  | |- Z.of_nat (length (contexts ?r)) <= _ /\ _ =>
      pose proof (ask_api_response_bounds
                    EmbeddingsFacts.demo_encode
                    (Some EmbeddingsFacts.demo_store)
                    [] no_bm25 Reranker.stable_argsort
                    (lit "POST") (lit "guards") 2 (lit "baseline")
                    r ltac:(lia) ltac:(vm_compute; reflexivity)) as H
  end.
  split; [exact (proj1 H) | exact (proj1 (proj2 H))].
Defined.

(** *** Reranked mode *)

Lemma rerank_scores_descending
    (stop_words : list str)
    (BM25Okapi : list (list str) -> option (list str -> list Q))
    (argsort : list Q -> list nat)
    (corpus : list Candidate) (q : str) (vs : list Q) (alpha : Q)
    (get_scores : list str -> list Q) :
  Reranker.sorts_ascending argsort ->
  BM25Okapi (map (fun doc => Reranker._tokenize stop_words (cleaned_text doc))
                 corpus) = Some get_scores ->
  length (get_scores (Reranker._tokenize stop_words q)) = length corpus ->
  length vs = length corpus ->
  exists out,
    Reranker.rerank stop_words BM25Okapi argsort corpus q vs alpha = Some out
    /\ length out = length corpus
    /\ StronglySorted (fun a b => (score b <= score a)%Q)
                      (map Reranker.candidate out).
Proof.
  intros Hsorts Hb Ha Hv.
  destruct (RerankFacts.rerank_returns stop_words BM25Okapi argsort corpus q
              vs alpha get_scores Hb Ha Hv Hsorts) as [out [Hout Hall]].
  exists out. split; [exact Hout|]. split.
  - apply Forall2_length in Hall. rewrite <- Hall, length_rev.
    rewrite (Permutation_length (proj1 (Hsorts _))), length_seq.
    apply (RerankFacts.length_s_combined stop_words corpus q vs alpha
             get_scores Hv).
  - apply (RerankFacts.StronglySorted_map Reranker.candidate
             (fun a b => (score (Reranker.candidate b)
                          <= score (Reranker.candidate a))%Q));
      [intros x y _ _ H; exact H|].
    eapply RerankFacts.Forall2_sorted;
      [|exact Hall|apply (RerankFacts.sorted_indices_sorted argsort Hsorts)].
    intros i j r r' Hi Hj Hrank. cbv beta in Hi, Hj.
    rewrite (RerankFacts.result_at_score _ _ _ _ _ _ i r Hi).
    rewrite (RerankFacts.result_at_score _ _ _ _ _ _ j r' Hj).
    exact Hrank.
Qed.

Lemma slice_to_sorted {A : Type} (R : A -> A -> Prop) (n : Z) (l : list A) :
  StronglySorted R l -> StronglySorted R (slice_to n l).
Proof.
  intro H. unfold slice_to.
  destruct (0 <=? n); now apply EmbeddingsFacts.StronglySorted_firstn.
Qed.

Lemma generate_answer_sorted (results : list Candidate) :
  StronglySorted (fun a b => (score b <= score a)%Q) results ->
  StronglySorted (fun a b => (ctx_score b <= ctx_score a)%Q)
                 (snd (generate_answer results)).
Proof.
  intro H. unfold generate_answer. destruct results as [|c rest];
    [constructor|].
  destruct (filter _ (c :: rest)); [constructor|]. cbn [snd].
  apply (RerankFacts.StronglySorted_map context_of
           (fun a b => (score b <= score a)%Q)); [|exact H].
  intros x y _ _ Hxy. exact Hxy.
Qed.

(** X4. In reranked mode, with an [np.argsort] that sorts ascending,
    when the BM25 index can be built over the retrieved candidates and
    scores each of them, a POST request with a query is answered
    successfully, [reranker_used] tells whether any
    candidate was retrieved, and the contexts come in descending order
    of their (combined) score. *)
Theorem ask_api_reranked_sorted
    (encode : str -> list Q) (collection : option Collection)
    (stop_words : list str)
    (BM25Okapi : list (list str) -> option (list str -> list Q))
    (argsort : list Q -> list nat)
    (q : str) (k : Z) (mode : str) :
  Reranker.sorts_ascending argsort ->
  q <> [] ->
  str_eqb mode (lit "baseline") = false ->
  (forall corpus,
     corpus = search_embeddings encode collection q (k * 2) ->
     corpus <> [] ->
     exists get_scores,
       BM25Okapi (map (fun doc => Reranker._tokenize stop_words
                                    (cleaned_text doc)) corpus)
       = Some get_scores
       /\ length (get_scores (Reranker._tokenize stop_words q))
          = length corpus) ->
  exists r,
    ask_api encode collection stop_words BM25Okapi argsort
            (lit "POST") q k mode
    = Json r
    /\ reranker_used r
       = negb (Nat.eqb (length (search_embeddings encode collection q (k * 2))) 0)
    /\ StronglySorted (fun a b => (ctx_score b <= ctx_score a)%Q)
                      (contexts r).
Proof.
  intros Hsorts Hq Hmode Hindex. unfold ask_api.
  change (str_eqb (lit "POST") (lit "POST")) with true. cbn [negb].
  destruct q as [|c0 q0] eqn:Eq; [congruence|]. rewrite <- Eq in *.
  rewrite Hmode.
  destruct (search_embeddings encode collection q (k * 2)) as [|b bs] eqn:Eb.
  - eexists. split; [reflexivity|]. split; [reflexivity | constructor].
  - destruct (Hindex (b :: bs) eq_refl ltac:(discriminate))
      as [gs [Hbuilt Haligned]].
    destruct (rerank_scores_descending stop_words BM25Okapi argsort
                (b :: bs) q (map score (b :: bs)) Reranker.default_alpha gs
                Hsorts Hbuilt Haligned (length_map _ _))
      as [out [Hout [_ Hsorted]]].
    rewrite Hout.
    pose proof (generate_answer_sorted
                  (slice_to k (map Reranker.candidate out))
                  (slice_to_sorted _ k _ Hsorted)) as Hctx.
    destruct (generate_answer (slice_to k (map Reranker.candidate out)))
      as [a cs].
    eexists. split; [reflexivity|]. split; [reflexivity | exact Hctx].
Qed.

Lemma ask_api_reranked_sorted_witness :
  exists r,
    ask_api EmbeddingsFacts.demo_encode (Some EmbeddingsFacts.demo_store)
            [] no_bm25 Reranker.stable_argsort
            (lit "POST") (lit "guards") 2 (lit "reranked") = Json r
    /\ reranker_used r = true
    /\ StronglySorted (fun a b => (ctx_score b <= ctx_score a)%Q)
                      (contexts r).
Proof.
  apply (ask_api_reranked_sorted
           EmbeddingsFacts.demo_encode (Some EmbeddingsFacts.demo_store)
           [] no_bm25 Reranker.stable_argsort
           (lit "guards") 2 (lit "reranked")).
  - exact RerankFacts.stable_argsort_sorts.
  - discriminate.
  - reflexivity.
  - intros corpus -> _. eexists. split; [reflexivity|].
    vm_compute. reflexivity.
Defined.

End AnswerFacts.

(** ** Tokens, title match and score range *)

Module TokenFacts.
Import Py Embeddings Reranker NormalizeFacts FusionFacts.

Lemma lower_char_idempotent (c : ascii) :
  lower_char (lower_char c) = lower_char c.
Proof.
  destruct c as [[] [] [] [] [] [] [] []]; reflexivity.
Qed.

Lemma lower_char_not_upper (c : ascii) : is_upper (lower_char c) = false.
Proof.
  destruct c as [[] [] [] [] [] [] [] []]; reflexivity.
Qed.

Lemma lower_idempotent (s : str) : lower (lower s) = lower s.
Proof.
  unfold lower. rewrite map_map. apply map_ext. apply lower_char_idempotent.
Qed.

(** What a greedy repetition consumed. *)
Lemma rep_greedy_some (k : option ascii -> str -> option str)
    (cls : ascii -> bool) (need : nat) (prev : option ascii)
    (s rest : str) :
  Re.rep_greedy k cls need prev s = Some rest ->
  exists (n : nat) (prev' : option ascii),
    need <= n /\ n <= length s
    /\ Forall (fun c => cls c = true) (firstn n s)
    /\ k prev' (skipn n s) = Some rest.
Proof.
  revert need prev. induction s as [|c s IH]; intros need prev H;
    cbn [Re.rep_greedy] in H.
  - destruct need; [|discriminate].
    exists 0, prev. repeat split; auto.
  - assert (Hstop : match need with
                    | 0 => k prev (c :: s)
                    | S _ => None
                    end = Some rest ->
                    exists (n : nat) (prev' : option ascii),
                      need <= n /\ n <= length (c :: s)
                      /\ Forall (fun c => cls c = true) (firstn n (c :: s))
                      /\ k prev' (skipn n (c :: s)) = Some rest).
    { intro Hs. destruct need; [|discriminate].
      exists 0, prev. repeat split; auto. simpl. lia. }
    destruct (cls c) eqn:E; [|now apply Hstop].
    destruct (Re.rep_greedy k cls (pred need) (Some c) s) as [r|] eqn:Er;
      [|now apply Hstop].
    inversion H; subst r.
    destruct (IH _ _ Er) as [n [prev' [Hn [Hlen [Hall Hk]]]]].
    exists (S n), prev'. repeat split; try (simpl; lia).
    + cbn [firstn]. now constructor.
    + exact Hk.
Qed.

Lemma match_word_some (prev : option ascii) (s rest : str) :
  Re.match_items pat_word prev s = Some rest ->
  exists n, 1 <= n /\ n <= length s
            /\ Forall (fun c => is_word c = true) (firstn n s)
            /\ rest = skipn n s.
Proof.
  unfold pat_word. cbn [Re.match_items]. intro H.
  destruct (xorb _ _); [|discriminate].
  apply rep_greedy_some in H.
  destruct H as [n [prev' [Hn [Hlen [Hall Hk]]]]].
  exists n. repeat split; auto.
  destruct (xorb _ _); [|discriminate]. now inversion Hk.
Qed.

(** The pieces [re.findall(r'\b\w+\b', s)] returns are non-empty runs of
    word characters taken from [s]. *)
Lemma findall_word_pieces (skip : nat) (prev : option ascii) (s : str) :
  Forall (fun p => p <> []
                   /\ Forall (fun c => is_word c = true) p
                   /\ Forall (fun c => In c s) p)
         (Re.findall_from pat_word skip prev s).
Proof.
  revert skip prev. induction s as [|c s IH]; intros skip prev;
    cbn [Re.findall_from]; [constructor|].
  assert (Htail : forall sk pv,
            Forall (fun p => p <> []
                             /\ Forall (fun c => is_word c = true) p
                             /\ Forall (fun c0 => In c0 (c :: s)) p)
                   (Re.findall_from pat_word sk pv s)).
  { intros sk pv. eapply Forall_impl; [|apply IH].
    intros p [H1 [H2 H3]]. repeat split; auto.
    eapply Forall_impl; [|exact H3]. intros x Hx. now right. }
  destruct skip as [|n]; [|apply Htail].
  destruct (Re.match_items pat_word prev (c :: s)) as [rest|] eqn:E;
    [|apply Htail].
  constructor; [|apply Htail].
  apply match_word_some in E. destruct E as [n [Hn [Hlen [Hall ->]]]].
  rewrite length_skipn.
  replace (length (c :: s) - (length (c :: s) - n)) with n by lia.
  repeat split.
  - destruct n; [lia|]. discriminate.
  - exact Hall.
  - apply Forall_forall. intros x Hx.
    rewrite <- (firstn_skipn n (c :: s)). apply in_or_app. now left.
Qed.

Lemma str_eqb_eq (a b : str) : str_eqb a b = true <-> a = b.
Proof.
  revert b. induction a as [|x a IH]; intros [|y b]; simpl;
    try (split; [discriminate | congruence]); [tauto|].
  rewrite andb_true_iff, Ascii.eqb_eq, IH. split.
  - intros [-> ->]. reflexivity.
  - intro H. inversion H. auto.
Qed.

(** X5. Every token is made of at least three word characters, has no
    upper-case letter and is not a stop word; and the tokens of a text do
    not change when the text is put in lower case first. *)
Theorem tokenize_tokens (stop_words : list str) (text : str) :
  Forall (fun token =>
            3 <= length token
            /\ Forall (fun c => is_word c = true /\ is_upper c = false) token
            /\ ~ In token stop_words)
         (_tokenize stop_words text)
  /\ _tokenize stop_words (lower text) = _tokenize stop_words text.
Proof.
  split.
  - unfold _tokenize. apply Forall_forall. intros token Hin.
    apply filter_In in Hin. destruct Hin as [Hin Hf].
    apply andb_prop in Hf. destruct Hf as [Hstop Hlen].
    pose proof (findall_word_pieces 0 None (lower text)) as Hp.
    rewrite Forall_forall in Hp. destruct (Hp token Hin) as [_ [Hw Hsrc]].
    split; [apply Nat.ltb_lt in Hlen; lia|]. split.
    + rewrite Forall_forall in *. intros c Hc. split; [now apply Hw|].
      specialize (Hsrc c Hc). unfold lower in Hsrc.
      apply in_map_iff in Hsrc. destruct Hsrc as [x [<- _]].
      apply lower_char_not_upper.
    + intro Hstopped. apply negb_true_iff in Hstop.
      assert (Ht : existsb (str_eqb token) stop_words = true).
      { apply existsb_exists. exists token. split; [exact Hstopped|].
        now apply str_eqb_eq. }
      congruence.
  - unfold _tokenize. now rewrite lower_idempotent.
Qed.

(** *** Title match *)

Lemma length_filter_le {A : Type} (f : A -> bool) (l : list A) :
  length (filter f l) <= length l.
Proof.
  induction l as [|a l IH]; simpl; [lia|]. destruct (f a); simpl; lia.
Qed.

Lemma filter_all {A : Type} (f : A -> bool) (l : list A) :
  (forall x, In x l -> f x = true) -> filter f l = l.
Proof.
  induction l as [|a l IH]; intro H; simpl; [reflexivity|].
  rewrite (H a (or_introl eq_refl)). f_equal. apply IH.
  intros x Hx. apply H. now right.
Qed.

Lemma to_set_In (l : list str) (x : str) : In x (to_set l) <-> In x l.
Proof.
  induction l as [|a l IH]; simpl; [tauto|].
  destruct (existsb (str_eqb a) l) eqn:E.
  - rewrite IH. split; [tauto|]. intros [<-|H]; [|exact H].
    apply existsb_exists in E. destruct E as [y [Hy Heq]].
    apply str_eqb_eq in Heq. now subst.
  - simpl. now rewrite IH.
Qed.

Local Open Scope Q_scope.

Lemma ratio_unit_interval (a b : nat) :
  (a <= b)%nat -> (0 < b)%nat ->
  0 <= inject_Z (Z.of_nat a) / inject_Z (Z.of_nat b) <= 1.
Proof.
  intros Hab Hb.
  assert (Hb' : 0 < inject_Z (Z.of_nat b))
    by (rewrite <- (Zlt_Qlt 0); lia).
  apply Qdiv_unit_interval; [| |exact Hb'].
  - change 0 with (inject_Z 0). rewrite <- Zle_Qle. lia.
  - rewrite <- Zle_Qle. lia.
Qed.

Lemma title_match_unit (stop_words : list str) (query title : str) :
  0 <= _calculate_title_match stop_words query title <= 1.
Proof.
  unfold _calculate_title_match.
  destruct (to_set (_tokenize stop_words query)) as [|w ws] eqn:E; [lra|].
  apply ratio_unit_interval; [apply length_filter_le | simpl; lia].
Qed.

(** X6. The title match lies between 0 and 1; it is 0 for a query
    without tokens and 1 when every token of a query that has some is a
    token of the title. *)
Theorem title_match_range (stop_words : list str) (query title : str) :
  0 <= _calculate_title_match stop_words query title <= 1
  /\ (_tokenize stop_words query = [] ->
      _calculate_title_match stop_words query title = 0)
  /\ (_tokenize stop_words query <> [] ->
      (forall t, In t (_tokenize stop_words query) ->
                 In t (_tokenize stop_words title)) ->
      _calculate_title_match stop_words query title == 1).
Proof.
  split; [apply title_match_unit|].
  unfold _calculate_title_match.
  set (qw := to_set (_tokenize stop_words query)).
  set (tw := to_set (_tokenize stop_words title)).
  split.
  - intro Hnone. subst qw. rewrite Hnone. reflexivity.
  - intros Hsome Hall.
    assert (Hq : qw <> []).
    { destruct (_tokenize stop_words query) as [|t ts] eqn:Et; [congruence|].
      intro Hnil. assert (Hin : In t qw)
        by (subst qw; apply to_set_In; now left).
      rewrite Hnil in Hin. exact Hin. }
    destruct qw as [|w ws] eqn:E; [congruence|].
    rewrite filter_all.
    + field. change 0 with (inject_Z 0). rewrite inject_Z_injective.
      simpl length. lia.
    + intros x Hx. apply existsb_exists. exists x.
      split; [|now apply str_eqb_eq].
      subst tw. apply to_set_In. apply Hall.
      apply (to_set_In (_tokenize stop_words query)).
      fold qw. rewrite E. exact Hx.
Qed.

Lemma title_match_range_witness :
  _calculate_title_match [lit "the"] (lit "The machine guarding")
                         (lit "Machine Guarding rules") == 1.
Proof.
  apply (proj2 (proj2 (title_match_range
                         [lit "the"] (lit "The machine guarding")
                         (lit "Machine Guarding rules")))).
  - vm_compute. discriminate.
  - vm_compute. intros t [<-|[<-|[]]]; auto.
Defined.

(** *** The range of the scores *)

Definition unit_interval (x : Q) : Prop := 0 <= x <= 1.

Lemma normalize_scores_unit (l : list Q) :
  Forall unit_interval (normalize_scores l).
Proof.
  destruct l as [|a l]; [constructor|].
  assert (Hne : a :: l <> []) by discriminate.
  destruct (Qlt_le_dec (np_min (a :: l)) (np_max (a :: l))) as [Hs|Hf].
  - rewrite normalize_scores_spread by assumption.
    apply Forall_forall. intros x Hx.
    apply in_map_iff in Hx. destruct Hx as [y [<- Hy]].
    pose proof (np_min_le _ y Hy). pose proof (np_max_ge _ y Hy).
    apply Qdiv_unit_interval; lra.
  - rewrite normalize_scores_flat by assumption.
    apply Forall_forall. intros x Hx.
    apply in_map_iff in Hx. destruct Hx as [y [<- Hy]].
    unfold unit_interval. lra.
Qed.

Lemma nth_unit (l : list Q) (i : nat) :
  Forall unit_interval l -> unit_interval (nth i l 0).
Proof.
  intro H. destruct (Nat.lt_ge_cases i (length l)) as [Hi|Hi].
  - rewrite Forall_forall in H. apply H. now apply nth_In.
  - rewrite nth_overflow by exact Hi. unfold unit_interval. lra.
Qed.

Lemma length_score_unit (doc : Candidate) : unit_interval (length_score doc).
Proof.
  unfold length_score, unit_interval.
  assert (H : 0 <= inject_Z (Z.of_nat (word_count (cleaned_text doc))) / 100).
  { apply Qle_shift_div_l; [reflexivity|].
    change (0 * 100) with (inject_Z 0). rewrite <- Zle_Qle. lia. }
  split.
  - apply Q.min_glb; [lra | exact H].
  - apply Q.le_min_l.
Qed.

Lemma combine_scores_range (alpha : Q) (vn b t l : list Q) :
  0 <= alpha ->
  Forall unit_interval vn -> Forall unit_interval b ->
  Forall unit_interval t -> Forall unit_interval l ->
  Forall (fun c => 0 <= c <= alpha + (4 # 10)) (combine_scores alpha vn b t l).
Proof.
  intros Ha Hvn Hb Ht Hl. unfold combine_scores.
  apply Forall_forall. intros c Hc.
  apply in_map_iff in Hc. destruct Hc as [i [<- _]].
  pose proof (nth_unit vn i Hvn) as [V0 V1].
  pose proof (nth_unit b i Hb) as [B0 B1].
  pose proof (nth_unit t i Ht) as [T0 T1].
  pose proof (nth_unit l i Hl) as [L0 L1].
  assert (A0 : 0 <= alpha * nth i vn 0) by now apply Qmult_le_0_compat.
  assert (A1 : alpha * nth i vn 0 <= alpha).
  { rewrite <- (Qmult_1_r alpha) at 2.
    rewrite !(Qmult_comm alpha). now apply Qmult_le_compat_r. }
  lra.
Qed.

Lemma collect_In {A : Type} (l : list (option A)) (out : list A) (x : A) :
  Reranker.collect l = Some out -> In x out -> In (Some x) l.
Proof.
  revert out. induction l as [|[a|] l IH]; intros out H Hin; simpl in H.
  - inversion H; subst. contradiction.
  - destruct (collect l) as [xs|]; [|discriminate].
    inversion H; subst. destruct Hin as [->|Hin]; [now left|].
    right. now apply (IH xs).
  - discriminate.
Qed.

(** X7. For a weight [alpha >= 0] every result of [rerank] carries a
    combined score between 0 and [alpha + 0.4] (between 0 and 1 for the
    default 0.6), and a BM25 score and a title score between 0 and 1. *)
Theorem rerank_score_range
    (stop_words : list str)
    (BM25Okapi : list (list str) -> option (list str -> list Q))
    (argsort : list Q -> list nat)
    (corpus : list Candidate) (query : str) (vector_scores : list Q)
    (alpha : Q) (out : list ScoredCandidate) :
  0 <= alpha ->
  rerank stop_words BM25Okapi argsort corpus query vector_scores alpha
  = Some out ->
  Forall (fun r => 0 <= score (candidate r) <= alpha + (4 # 10)
                   /\ unit_interval (bm25_score r)
                   /\ unit_interval (title_score r)) out.
Proof.
  intros Ha H. unfold rerank in H.
  destruct (BM25Okapi _) as [gs|]; [|discriminate].
  destruct (_ && _)%bool; [|discriminate].
  set (sc := rerank_scores stop_words corpus gs query vector_scores alpha) in *.
  assert (Hb : Forall unit_interval (s_bm25 sc))
    by apply normalize_scores_unit.
  assert (Ht : Forall unit_interval (s_title sc)).
  { unfold sc, rerank_scores. cbn [s_title].
    apply Forall_forall. intros x Hx. apply in_map_iff in Hx.
    destruct Hx as [doc [<- _]]. apply title_match_unit. }
  assert (Hc : Forall (fun c => 0 <= c <= alpha + (4 # 10)) (s_combined sc)).
  { unfold sc, rerank_scores. cbn [s_combined].
    apply combine_scores_range; auto using normalize_scores_unit.
    apply Forall_forall. intros x Hx. apply in_map_iff in Hx.
    destruct Hx as [doc [<- _]]. apply length_score_unit. }
  apply Forall_forall. intros r Hr.
  apply (collect_In _ _ _ H) in Hr. apply in_map_iff in Hr.
  destruct Hr as [idx [Hres _]]. unfold result_at in Hres.
  destruct (nth_error corpus idx) as [doc|]; [|discriminate].
  destruct (nth_error (s_combined sc) idx) as [cb|] eqn:Ec; [|discriminate].
  destruct (nth_error (s_vector sc) idx) as [v|]; [|discriminate].
  destruct (nth_error (s_bm25 sc) idx) as [b|] eqn:Eb; [|discriminate].
  destruct (nth_error (s_title sc) idx) as [t|] eqn:Et; [|discriminate].
  inversion Hres; subst r. cbn [candidate bm25_score title_score with_score score].
  rewrite Forall_forall in Hc, Hb, Ht.
  split; [apply Hc; eapply nth_error_In; exact Ec|].
  split; [apply Hb; eapply nth_error_In; exact Eb
         | apply Ht; eapply nth_error_In; exact Et].
Qed.

Lemma rerank_score_range_witness :
  exists out,
    rerank [] ViewsFacts.no_bm25 stable_argsort demo_corpus (lit "guards")
           [2 # 10; 5 # 10] default_alpha = Some out
    /\ Forall (fun r => 0 <= score (candidate r) <= 1) out.
Proof.
  eexists. split; [vm_compute; reflexivity|].
  eapply Forall_impl;
    [|apply (rerank_score_range [] ViewsFacts.no_bm25 stable_argsort
               demo_corpus (lit "guards") [2 # 10; 5 # 10] default_alpha);
      [unfold default_alpha; lra | vm_compute; reflexivity]].
  intros r [[H0 H1] _]. unfold default_alpha in H1. lra.
Defined.

End TokenFacts.

(** ** More on cleaning and chunking *)

Module TextFacts.
Import Py Utils CleanFacts ChunkFacts.

Lemma nf_adjacent (cls : ascii -> bool) (r : ascii) (a b : str) (c d : ascii) :
  nf cls r (a ++ c :: d :: b) -> cls c = true -> cls d = false.
Proof.
  intros H Hc. apply nf_app_r in H. cbn [nf] in H.
  destruct H as [H _]. destruct (H Hc) as [_ Hd]. exact Hd.
Qed.

Lemma nf_member (cls : ascii -> bool) (r : ascii) (s : str) (c : ascii) :
  nf cls r s -> In c s -> cls c = true -> c = r.
Proof.
  intros H Hin Hc. apply in_split in Hin. destruct Hin as [a [b ->]].
  apply nf_app_r in H. cbn [nf] in H. destruct H as [H _].
  now destruct (H Hc).
Qed.

(** X8. A cleaned text has no two dots in a row and no two hyphens in a
    row; its only whitespace characters are single spaces, never two in
    a row and never at the beginning or at the end. *)
Theorem clean_text_shape (x : str) :
  (forall a b, clean_text x <> a ++ "."%char :: "."%char :: b)
  /\ (forall a b, clean_text x <> a ++ "-"%char :: "-"%char :: b)
  /\ (forall c, In c (clean_text x) -> is_space c = true -> c = " "%char)
  /\ (forall a b c d, clean_text x = a ++ c :: d :: b ->
                      is_space c = true -> is_space d = false)
  /\ (forall c rest, clean_text x = c :: rest -> is_space c = false)
  /\ (forall init c, clean_text x = init ++ [c] -> is_space c = false).
Proof.
  destruct (clean_text_cleaned x) as [D [H [S [E1 E2]]]].
  repeat split.
  - intros a b E. rewrite E in D.
    pose proof (nf_adjacent _ _ _ _ _ _ D eq_refl). discriminate.
  - intros a b E. rewrite E in H.
    pose proof (nf_adjacent _ _ _ _ _ _ H eq_refl). discriminate.
  - intros c Hin Hc. now apply (nf_member is_space " "%char (clean_text x)).
  - intros a b c d E Hc. rewrite E in S. now apply (nf_adjacent _ _ _ _ _ _ S).
  - intros c rest E. rewrite E in E1. exact E1.
  - intros init c E. rewrite E, rev_app_distr in E2. exact E2.
Qed.

(** *** Cleaning never adds characters *)

Lemma sub_from_length (pat : Re.pattern) (repl : str)
    (skip : nat) (prev : option ascii) (s : str) :
  length repl <= 1 ->
  length (Re.sub_from pat repl skip prev s) <= length s.
Proof.
  intro Hr. revert skip prev. induction s as [|c s IH]; intros skip prev;
    cbn [Re.sub_from]; [lia|].
  destruct skip as [|n].
  - destruct (Re.match_items pat prev (c :: s)) as [rest|].
    + rewrite length_app. specialize (IH (length s - length rest) (Some c)).
      simpl length. lia.
    + specialize (IH 0 (Some c)). simpl length. lia.
  - specialize (IH n (Some c)). simpl length. lia.
Qed.

Lemma sub_length (pat : Re.pattern) (repl : str) (s : str) :
  length repl <= 1 -> length (Re.sub pat repl s) <= length s.
Proof. apply sub_from_length. Qed.

Lemma strip_length (s : str) : length (strip s) <= length s.
Proof.
  destruct (lstrip_suffix s) as [a Ea].
  destruct (rstrip_prefix (lstrip s)) as [b Eb]. fold (strip s) in Eb.
  apply (f_equal (@length ascii)) in Ea, Eb.
  rewrite length_app in Ea, Eb. lia.
Qed.

(** X9. Cleaning never makes a text longer, and the same holds for the
    cleaning applied to a chunk before it is embedded. *)
Theorem clean_text_length (x : str) :
  length (clean_text x) <= length x
  /\ length (Embeddings.clean_chunk_text x) <= length x.
Proof.
  split.
  - unfold clean_text. destruct x as [|c x]; [simpl; lia|].
    eapply Nat.le_trans; [apply strip_length|].
    repeat (eapply Nat.le_trans; [apply sub_length; simpl; lia|]).
    lia.
  - unfold Embeddings.clean_chunk_text. destruct x as [|c x]; [simpl; lia|].
    repeat (eapply Nat.le_trans; [apply sub_length; simpl; lia|]).
    eapply Nat.le_trans; [apply strip_length|].
    apply sub_length. simpl. lia.
Qed.

(** *** When [chunk_text] returns nothing *)

Lemma re_split_from_nonempty (pat : Re.pattern) (skip : nat)
    (prev : option ascii) (cur s : str) :
  Re.split_from pat skip prev cur s <> [].
Proof.
  revert skip prev cur. induction s as [|c s IH]; intros skip prev cur;
    cbn [Re.split_from]; [discriminate|].
  destruct skip; [|apply IH].
  destruct (Re.match_items pat prev (c :: s)); [discriminate | apply IH].
Qed.

Lemma chunk_step_current (chunk_size overlap : Z) (st : chunk_state) (s : str) :
  exists kept, current_chunk (chunk_step chunk_size overlap st s) = kept ++ [s].
Proof.
  unfold chunk_step. destruct (_ && _)%bool; cbn [current_chunk]; eauto.
Qed.

Lemma chunk_sentences_nonempty (chunk_size overlap : Z) (ss : list str) :
  ss <> [] -> chunk_sentences chunk_size overlap ss <> [].
Proof.
  intro Hne. destruct (exists_last Hne) as [init [s ->]].
  unfold chunk_sentences. rewrite fold_left_app. cbn [fold_left].
  destruct (chunk_step_current chunk_size overlap
              (fold_left (chunk_step chunk_size overlap) init
                         (mk_chunk_state [] [] 0)) s) as [kept ->].
  destruct (kept ++ [s]) eqn:E; [now destruct kept|].
  intro H. apply app_eq_nil in H. destruct H. discriminate.
Qed.

(** X10. [chunk_text] returns no chunk exactly when the cleaned text has
    fewer than 20 words, whatever the chunk size and the overlap. *)
Theorem chunk_text_empty_iff (text : str) (chunk_size overlap : Z) :
  chunk_text text chunk_size overlap = [] <-> word_count (clean_text text) < 20.
Proof.
  unfold chunk_text.
  destruct (clean_text text) as [|c y] eqn:E.
  - cbn. split; [lia | reflexivity].
  - cbn [orb]. destruct (word_count (c :: y) <? 20) eqn:L.
    + apply Nat.ltb_lt in L. tauto.
    + apply Nat.ltb_ge in L. split; [|lia].
      intro H. exfalso. revert H. apply chunk_sentences_nonempty.
      apply re_split_from_nonempty.
Qed.

(** *** Chunks are runs of whole sentences *)

(** [b] is a run of consecutive elements of [l]. *)
Definition run_of {A : Type} (b l : list A) : Prop :=
  exists before after, l = before ++ b ++ after.

Lemma run_of_app_r {A : Type} (b l m : list A) :
  run_of b l -> run_of b (l ++ m).
Proof.
  intros [a [c ->]]. exists a, (c ++ m). now rewrite <- !app_assoc.
Qed.

(** The chunks closed so far are [blocks], the sentences read so far are
    [p]: every block is a run of [p], the open chunk is the end of [p],
    and every sentence read is in a block or in the open chunk. *)
Definition chunk_inv (st : chunk_state) (blocks : list (list str))
    (p : list str) : Prop :=
  chunks st = map (join space) blocks
  /\ Forall (fun b => b <> [] /\ run_of b p) blocks
  /\ (exists a, p = a ++ current_chunk st)
  /\ (forall s, In s p ->
        (exists b, In b blocks /\ In s b) \/ In s (current_chunk st))
  /\ length blocks + match current_chunk st with [] => 0 | _ => 1 end
     <= length p.

Lemma chunk_step_inv (chunk_size overlap : Z) (st : chunk_state)
    (blocks : list (list str)) (p : list str) (s : str) :
  chunk_inv st blocks p ->
  exists blocks',
    chunk_inv (chunk_step chunk_size overlap st s) blocks' (p ++ [s]).
Proof.
  intros [Hc [Hb [[a Ha] [Hcov Hlen]]]]. unfold chunk_step.
  destruct (_ && _)%bool eqn:E.
  - apply andb_prop in E. destruct E as [_ Hne].
    assert (Hcur : current_chunk st <> []).
    { intro H0. rewrite H0 in Hne. discriminate. }
    exists (blocks ++ [current_chunk st]).
    unfold chunk_inv. cbn [chunks current_chunk].
    set (m := Z.to_nat (Z.max 0 (Z.of_nat (length (current_chunk st)) - overlap))).
    unfold slice_from. repeat split.
    + rewrite Hc, map_app. reflexivity.
    + apply Forall_app. split.
      * eapply Forall_impl; [|exact Hb]. intros b [H1 H2].
        split; [exact H1 | now apply run_of_app_r].
      * constructor; [|constructor]. split; [exact Hcur|].
        exists a, [s]. rewrite Ha. now rewrite <- app_assoc.
    + exists (a ++ firstn m (current_chunk st)).
      rewrite Ha at 1. rewrite <- !app_assoc. f_equal.
      rewrite app_assoc, firstn_skipn. reflexivity.
    + intros s' Hin. apply in_app_or in Hin. destruct Hin as [Hin|[<-|[]]].
      * left. destruct (Hcov s' Hin) as [[b [Hb1 Hb2]]|Hcur'].
        -- exists b. split; [apply in_or_app; now left | exact Hb2].
        -- exists (current_chunk st).
           split; [apply in_or_app; right; now left | exact Hcur'].
      * right. apply in_or_app. right. now left.
    + rewrite !length_app. cbn [length].
      destruct (current_chunk st) as [|c0 cs0]; [congruence|].
      destruct (skipn m (c0 :: cs0) ++ [s]) eqn:E'; lia.
  - exists blocks. unfold chunk_inv. cbn [chunks current_chunk]. repeat split.
    + exact Hc.
    + eapply Forall_impl; [|exact Hb]. intros b [H1 H2].
      split; [exact H1 | now apply run_of_app_r].
    + exists a. rewrite Ha at 1. now rewrite <- app_assoc.
    + intros s' Hin. apply in_app_or in Hin. destruct Hin as [Hin|[<-|[]]].
      * destruct (Hcov s' Hin) as [Hbl|Hcur']; [now left|].
        right. apply in_or_app. now left.
      * right. apply in_or_app. right. now left.
    + rewrite length_app. cbn [length].
      destruct (current_chunk st ++ [s]) eqn:E';
        destruct (current_chunk st); lia.
Qed.

Lemma chunk_fold_inv (chunk_size overlap : Z) (rest : list str)
    (st : chunk_state) (blocks : list (list str)) (p : list str) :
  chunk_inv st blocks p ->
  exists blocks',
    chunk_inv (fold_left (chunk_step chunk_size overlap) rest st)
              blocks' (p ++ rest).
Proof.
  revert st blocks p. induction rest as [|s rest IH]; intros st blocks p H.
  - exists blocks. now rewrite app_nil_r.
  - cbn [fold_left].
    destruct (chunk_step_inv chunk_size overlap st blocks p s H) as [b' H'].
    destruct (IH _ _ _ H') as [b'' H'']. exists b''.
    now rewrite <- app_assoc in H''.
Qed.

(** X11. Whatever the chunk size and the overlap, the chunks built from
    a list of sentences are runs of consecutive whole sentences joined by
    single spaces; none is empty, every sentence is in some chunk, and
    there are at most as many chunks as sentences. *)
Theorem chunk_sentences_blocks (chunk_size overlap : Z) (ss : list str) :
  exists blocks : list (list str),
    chunk_sentences chunk_size overlap ss = map (join space) blocks
    /\ Forall (fun b => b <> [] /\ run_of b ss) blocks
    /\ (forall s, In s ss -> exists b, In b blocks /\ In s b)
    /\ length blocks <= length ss.
Proof.
  assert (H0 : chunk_inv (mk_chunk_state [] [] 0) [] []).
  { unfold chunk_inv. cbn. split; [reflexivity|]. split; [constructor|].
    split; [now exists []|]. split; [intros s [] | lia]. }
  destruct (chunk_fold_inv chunk_size overlap ss _ _ _ H0)
    as [blocks [Hc [Hb [[a Ha] [Hcov Hlen]]]]].
  cbn [app] in *. unfold chunk_sentences.
  set (st := fold_left (chunk_step chunk_size overlap) ss
                       (mk_chunk_state [] [] 0)) in *.
  destruct (current_chunk st) as [|c cur] eqn:E.
  - exists blocks. repeat split; auto; [|lia].
    intros s Hs. destruct (Hcov s Hs) as [Hbl|[]]. exact Hbl.
  - exists (blocks ++ [c :: cur]). repeat split.
    + rewrite Hc, map_app. reflexivity.
    + apply Forall_app. split; [exact Hb|].
      constructor; [|constructor]. split; [discriminate|].
      exists a, []. now rewrite app_nil_r.
    + intros s Hs. destruct (Hcov s Hs) as [[b [Hb1 Hb2]]|Hcur].
      * exists b. split; [apply in_or_app; now left | exact Hb2].
      * exists (c :: cur). split; [apply in_or_app; right; now left|exact Hcur].
    + rewrite length_app. cbn [length]. lia.
Qed.

(** *** Chunking without overlap *)

Section NoOverlap.

Variable chunk_size : Z.

(** A chunk within the size, or a single sentence. *)
Let fits (b : list str) : Prop :=
  length b = 1 \/ (Z.of_nat (list_sum (map word_count b)) <= chunk_size)%Z.

Let inv0 (st : chunk_state) (blocks : list (list str)) (p : list str) : Prop :=
  chunks st = map (join space) blocks
  /\ concat blocks ++ current_chunk st = p
  /\ current_length st = list_sum (map word_count (current_chunk st))
  /\ Forall fits blocks
  /\ (current_chunk st = [] \/ fits (current_chunk st)).

Lemma chunk_step_inv0 (st : chunk_state) (blocks : list (list str))
    (p : list str) (s : str) :
  inv0 st blocks p ->
  exists blocks', inv0 (chunk_step chunk_size 0 st s) blocks' (p ++ [s]).
Proof.
  intros [Hc [Hp [Hl [Hb Hcur]]]]. unfold chunk_step.
  destruct (_ && _)%bool eqn:E.
  - apply andb_prop in E. destruct E as [_ Hne].
    assert (Hcur' : current_chunk st <> []).
    { intro H0. rewrite H0 in Hne. discriminate. }
    exists (blocks ++ [current_chunk st]).
    unfold inv0. cbn [chunks current_chunk current_length].
    unfold slice_from.
    replace (Z.to_nat (Z.max 0 (Z.of_nat (length (current_chunk st)) - 0)))
      with (length (current_chunk st)) by lia.
    rewrite skipn_all. cbn [app].
    split; [rewrite Hc, map_app; reflexivity|].
    split; [rewrite concat_app; cbn [concat]; rewrite app_nil_r, <- Hp;
            now rewrite <- app_assoc|].
    split; [cbn; lia|].
    split; [|right; left; reflexivity].
    apply Forall_app. split; [exact Hb|].
    constructor; [|constructor]. destruct Hcur as [H0|H0]; [congruence|exact H0].
  - exists blocks. unfold inv0. cbn [chunks current_chunk current_length].
    split; [exact Hc|].
    split; [rewrite <- Hp; now rewrite <- app_assoc|].
    split; [rewrite map_app, list_sum_app, Hl; cbn; lia|].
    split; [exact Hb|]. right.
    apply andb_false_iff in E. destruct E as [E|E].
    + right. apply Z.ltb_ge in E.
      rewrite map_app, list_sum_app. cbn [map].
      rewrite <- Hl. cbn [list_sum fold_right]. lia.
    + left. apply negb_false_iff, Nat.eqb_eq in E.
      rewrite length_app, E. reflexivity.
Qed.

Lemma chunk_fold_inv0 (rest : list str) (st : chunk_state)
    (blocks : list (list str)) (p : list str) :
  inv0 st blocks p ->
  exists blocks',
    inv0 (fold_left (chunk_step chunk_size 0) rest st) blocks' (p ++ rest).
Proof.
  revert st blocks p. induction rest as [|s rest IH]; intros st blocks p H.
  - exists blocks. now rewrite app_nil_r.
  - cbn [fold_left].
    destruct (chunk_step_inv0 st blocks p s H) as [b' H'].
    destruct (IH _ _ _ H') as [b'' H'']. exists b''.
    now rewrite <- app_assoc in H''.
Qed.

(** X12. With [overlap = 0] the chunks split the sentences, in order
    and without repetition, and a chunk of more than [chunk_size] words
    is a single sentence. *)
Theorem chunk_sentences_no_overlap (ss : list str) :
  exists blocks : list (list str),
    chunk_sentences chunk_size 0 ss = map (join space) blocks
    /\ concat blocks = ss
    /\ Forall (fun b => length b = 1
                        \/ (Z.of_nat (word_count (join space b))
                            <= chunk_size)%Z) blocks.
Proof.
  assert (H0 : inv0 (mk_chunk_state [] [] 0) [] []).
  { unfold inv0. cbn. repeat split; auto. }
  destruct (chunk_fold_inv0 ss _ _ _ H0) as [blocks [Hc [Hp [Hl [Hb Hcur]]]]].
  cbn [app] in *. unfold chunk_sentences.
  set (st := fold_left (chunk_step chunk_size 0) ss
                       (mk_chunk_state [] [] 0)) in *.
  assert (Hfits : forall b, fits b ->
            length b = 1
            \/ (Z.of_nat (word_count (join space b)) <= chunk_size)%Z).
  { intros b [H|H]; [now left | right].
    now rewrite word_count_join_space. }
  destruct (current_chunk st) as [|c cur] eqn:E.
  - exists blocks. rewrite app_nil_r in Hp.
    split; [exact Hc|]. split; [exact Hp|].
    eapply Forall_impl; [exact Hfits | exact Hb].
  - exists (blocks ++ [c :: cur]).
    split; [rewrite Hc, map_app; reflexivity|].
    split; [rewrite concat_app; cbn [concat]; now rewrite app_nil_r|].
    apply Forall_app. split; [eapply Forall_impl; [exact Hfits | exact Hb]|].
    constructor; [|constructor]. apply Hfits.
    destruct Hcur as [H|H]; [discriminate | exact H].
Qed.

End NoOverlap.

End TextFacts.

(** ** More on ingestion *)

Module StoreFacts.
Import Py Models Utils IngestFacts.

(** *** What [process_documents] writes *)

(** A computation that only appends chunks satisfying [P], and keeps the
    identifiers of the documents and the identifier counter. *)
Definition appends {A : Type} (P : DocumentChunk -> Prop) (m : M A) : Prop :=
  forall db, exists new,
    doc_chunks (snd (m db)) = doc_chunks db ++ new
    /\ Forall P new
    /\ map doc_id (documents (snd (m db))) = map doc_id (documents db)
    /\ next_doc_id (snd (m db)) = next_doc_id db.

Lemma appends_ret {A : Type} (P : DocumentChunk -> Prop) (a : A) :
  appends P (ret a).
Proof. intro db. exists []. cbn. now rewrite app_nil_r. Qed.

Lemma appends_bind {A B : Type} (P : DocumentChunk -> Prop)
    (m : M A) (k : A -> M B) :
  appends P m -> (forall a, appends P (k a)) -> appends P (bind m k).
Proof.
  intros Hm Hk db. unfold bind.
  destruct (Hm db) as [n1 [H1 [H2 [H3 H4]]]].
  destruct (m db) as [[a|e] db1]; cbn [snd] in *.
  - destruct (Hk a db1) as [n2 [K1 [K2 [K3 K4]]]].
    exists (n1 ++ n2). rewrite K1, H1, K3, H3, K4, H4, app_assoc.
    repeat split; auto. apply Forall_app. now split.
  - exists n1. auto.
Qed.

Lemma appends_for_each {A : Type} (P : DocumentChunk -> Prop)
    (xs : list A) (body : A -> M unit) :
  (forall x, In x xs -> appends P (body x)) -> appends P (for_each xs body).
Proof.
  induction xs as [|x xs IH]; intro Hb; cbn [for_each].
  - apply appends_ret.
  - apply appends_bind; [apply Hb; now left|].
    intros _. apply IH. intros y Hy. apply Hb. now right.
Qed.

Lemma appends_save (P : DocumentChunk -> Prop) (d : Document) :
  appends P (save d).
Proof.
  intro db. exists []. cbn. rewrite app_nil_r. repeat split; auto.
  rewrite map_map. apply map_ext_in. intros d' _.
  destruct (Nat.eqb (doc_id d') (doc_id d)) eqn:E; [|reflexivity].
  apply Nat.eqb_eq in E. now rewrite E.
Qed.

Lemma appends_create_chunk (P : DocumentChunk -> Prop) (row : DocumentChunk) :
  P row -> appends P (create_chunk row).
Proof.
  intros Hrow db. unfold create_chunk.
  destruct (existsb (same_key row) (doc_chunks db)).
  - exists []. cbn. now rewrite app_nil_r.
  - exists [row]. cbn. repeat split; auto.
Qed.

Lemma chunk_rows_spec (doc : Document) (chunks : list str) (row : DocumentChunk) :
  In row (chunk_rows doc chunks) ->
  document row = doc_id doc
  /\ 10 <= word_count (Models.chunk_text row)
  /\ nth_error chunks (Models.chunk_index row) = Some (Models.chunk_text row).
Proof.
  unfold chunk_rows. intro H. apply in_map_iff in H.
  destruct H as [[i c] [<- Hin]]. apply filter_In in Hin.
  destruct Hin as [Hin Hf]. cbn [document Models.chunk_text Models.chunk_index fst snd] in *.
  split; [reflexivity|]. split.
  - apply negb_true_iff, Nat.ltb_ge in Hf. exact Hf.
  - unfold enumerate in Hin. clear Hf.
    assert (Hgen : forall (l : list str) (s : nat),
              In (i, c) (combine (seq s (length l)) l) ->
              s <= i /\ nth_error l (i - s) = Some c).
    { induction l as [|x l IH]; intros s0 H; cbn in H; [contradiction|].
      destruct H as [H|H].
      - inversion H; subst. rewrite Nat.sub_diag. split; [lia|reflexivity].
      - destruct (IH (S s0) H) as [Hle Hn]. split; [lia|].
        replace (i - s0) with (S (i - S s0)) by lia. exact Hn. }
    destruct (Hgen chunks 0 Hin) as [_ Hn].
    now rewrite Nat.sub_0_r in Hn.
Qed.

Lemma appends_process_document (P : DocumentChunk -> Prop)
    (dir : list PdfFile) (doc : Document) :
  (forall row, document row = doc_id doc ->
               10 <= word_count (Models.chunk_text row) -> P row) ->
  appends P (process_document dir doc).
Proof.
  intro HP. unfold process_document.
  destruct (find_pdf dir (title doc)) as [pdf|]; [|apply appends_ret].
  destruct (extract_text_from_pdf pdf) as [|c text]; [apply appends_ret|].
  destruct (word_count (c :: text) <? 50); [apply appends_ret|].
  apply appends_bind; [|intros _; apply appends_save].
  apply appends_for_each. intros row Hrow. apply appends_create_chunk.
  destruct (chunk_rows_spec _ _ _ Hrow) as [H1 [H2 _]]. now apply HP.
Qed.

(** X13. [process_documents] only ever appends to the chunk table: no
    stored chunk is removed or changed, also when the run ends in an
    exception.  Every chunk it adds has at least 10 words and belongs to
    a document that was unprocessed when the run began; the documents
    keep their identifiers and none is created. *)
Theorem process_documents_appends (dir : list PdfFile) (db : DB) :
  exists new,
    doc_chunks (snd (process_documents dir db)) = doc_chunks db ++ new
    /\ Forall (fun c =>
                 10 <= word_count (Models.chunk_text c)
                 /\ exists d, In d (documents db) /\ processed d = false
                              /\ doc_id d = document c) new
    /\ map doc_id (documents (snd (process_documents dir db)))
       = map doc_id (documents db)
    /\ next_doc_id (snd (process_documents dir db)) = next_doc_id db.
Proof.
  unfold process_documents, bind, unprocessed_documents.
  apply (appends_for_each
           (fun c => 10 <= word_count (Models.chunk_text c)
                     /\ exists d, In d (documents db) /\ processed d = false
                                  /\ doc_id d = document c)).
  intros doc Hdoc. apply filter_In in Hdoc. destruct Hdoc as [Hin Hun].
  apply appends_process_document. intros row Hrow Hwords.
  split; [exact Hwords|]. exists doc.
  apply negb_true_iff in Hun. auto.
Qed.

(** *** The text read from a PDF *)

Definition LF : ascii := "010"%char.

Definition has_text (page : option str) : bool :=
  match page with
  | Some (_ :: _) => true
  | _ => false
  end.

Lemma count_occ_absent (s : str) (c : ascii) :
  ~ In c s -> count_occ ascii_dec s c = 0.
Proof. apply count_occ_not_In. Qed.

Lemma page_line_no_LF (page : str) :
  ~ In LF (strip (Re.sub pat_spaces space page)).
Proof.
  intro Hin.
  assert (Hnf : CleanFacts.nf is_space " "%char
                  (strip (Re.sub pat_spaces space page))).
  { apply CleanFacts.nf_strip.
    change (Re.sub pat_spaces space page)
      with (CleanFacts.collapse is_space " "%char 1 page).
    apply CleanFacts.collapse_nf; [lia | intro E; discriminate]. }
  pose proof (TextFacts.nf_member _ _ _ _ Hnf Hin eq_refl) as H.
  discriminate.
Qed.

(** X14. The text read from a PDF holds one line per page that has
    text, each ended by a line feed, pages without text or that fail to
    read being passed over; a file that cannot be opened gives the empty
    text. *)
Theorem extract_text_lines (f : PdfFile) :
  (pages f = None -> extract_text_from_pdf f = [])
  /\ (forall ps, pages f = Some ps ->
        count_occ ascii_dec (extract_text_from_pdf f) LF
        = length (filter has_text ps)).
Proof.
  unfold extract_text_from_pdf. split.
  - intros ->. reflexivity.
  - intros ps ->. induction ps as [|page ps IH]; [reflexivity|].
    cbn [map concat filter]. rewrite count_occ_app, IH.
    destruct page as [[|c t]|]; cbn [has_text length]; try reflexivity.
    rewrite count_occ_app.
    rewrite (count_occ_absent _ LF (page_line_no_LF (c :: t))).
    reflexivity.
Qed.

Lemma extract_text_lines_witness :
  count_occ ascii_dec (extract_text_from_pdf (hd (mk_PdfFile [] None) manual_dir))
            LF = 1.
Proof.
  apply (proj2 (extract_text_lines (hd (mk_PdfFile [] None) manual_dir))
               [None; Some manual_text]).
  reflexivity.
Defined.

(** *** Which PDF is chosen *)

Lemma find_file_spec (dir : list PdfFile) (n : str) :
  match find_file dir n with
  | Some f => In f dir /\ name f = n
  | None => forall f, In f dir -> name f <> n
  end.
Proof.
  unfold find_file. destruct (find _ dir) as [f|] eqn:E.
  - apply find_some in E. destruct E as [Hin Heq].
    split; [exact Hin | now apply TokenFacts.str_eqb_eq].
  - intros f Hin Heq. pose proof (find_none _ _ E f Hin) as H.
    cbv beta in H. apply TokenFacts.str_eqb_eq in Heq. congruence.
Qed.

Lemma first_existing_spec (dir : list PdfFile) (names : list str) :
  match first_existing dir names with
  | Some f => In f dir /\ In (name f) names
  | None => forall f, In f dir -> ~ In (name f) names
  end.
Proof.
  induction names as [|n names IH]; cbn [first_existing].
  - intros f _ [].
  - pose proof (find_file_spec dir n) as Hn.
    destruct (find_file dir n) as [f|].
    + destruct Hn as [Hin Heq]. split; [exact Hin | left; now symmetry].
    + destruct (first_existing dir names) as [f|].
      * destruct IH as [Hin Hname]. split; [exact Hin | now right].
      * intros f Hin [Heq|Hrest]; [now apply (Hn f Hin) | now apply (IH f Hin)].
Qed.



(** *** [load_sources] *)

(** Primary keys are distinct and below the counter. *)
Definition keys_ok (db : DB) : Prop :=
  NoDup (map doc_id (documents db))
  /\ Forall (fun d => doc_id d < next_doc_id db) (documents db).

Definition titles_distinct (db : DB) : Prop :=
  NoDup (map title (documents db)).

Lemma NoDup_map_inj {A B : Type} (f : A -> B) (l : list A) (x y : A) :
  NoDup (map f l) -> In x l -> In y l -> f x = f y -> x = y.
Proof.
  induction l as [|a l IH]; intros Hnd Hx Hy Hf; [contradiction|].
  cbn in Hnd. inversion Hnd as [|? ? Hnotin Hnd']; subst.
  destruct Hx as [->|Hx], Hy as [->|Hy]; auto.
  - exfalso. apply Hnotin. rewrite Hf. now apply in_map.
  - exfalso. apply Hnotin. rewrite <- Hf. now apply in_map.
Qed.

Lemma filter_title_unique (t : str) (docs : list Document) :
  NoDup (map title docs) ->
  length (filter (fun d => str_eqb (title d) t) docs) <= 1.
Proof.
  induction docs as [|d docs IH]; intro Hnd; cbn; [lia|].
  inversion Hnd as [|? ? Hnotin Hnd']; subst.
  destruct (str_eqb (title d) t) eqn:E; [|now apply IH].
  apply TokenFacts.str_eqb_eq in E. cbn.
  rewrite ViewsFacts.filter_none; [cbn; lia|].
  intros x Hx. destruct (str_eqb (title x) t) eqn:Ex; [|reflexivity].
  apply TokenFacts.str_eqb_eq in Ex. exfalso. apply Hnotin.
  rewrite E, <- Ex. now apply in_map.
Qed.

(** The body of [for source in sources]. *)
Definition load_one (source : Source) : M unit :=
  bind (get_or_create (src_title source) (src_url source)) (fun r =>
    let '(doc, created) := r in
    if created then ret tt
    else save (mk_Document (doc_id doc) (title doc) (src_url source) false)).

Lemma load_sources_unfold (sources : list Source) :
  load_sources (Some sources)
  = bind (try_ (for_each sources load_one)) (fun _ => all_documents).
Proof. reflexivity. Qed.

(** The facts kept from one source to the next: [t] names a source
    already seen. *)
Definition loaded (db : DB) (t : str) : Prop :=
  exists d, In d (documents db) /\ title d = t /\ processed d = false.

Lemma load_one_spec (source : Source) (db : DB) :
  keys_ok db -> titles_distinct db ->
  exists db',
    load_one source db = (Return tt, db')
    /\ keys_ok db' /\ titles_distinct db'
    /\ doc_chunks db' = doc_chunks db
    /\ loaded db' (src_title source)
    /\ (forall t, loaded db t -> loaded db' t)
    /\ (forall d, In d (documents db) -> title d <> src_title source ->
                  In d (documents db'))
    /\ (forall d', In d' (documents db') ->
          title d' = src_title source
          \/ In d' (documents db)).
Proof.
  intros [Hids Hlt] Htitles. unfold load_one, bind, get_or_create.
  pose proof (filter_title_unique (src_title source) _ Htitles) as Hone.
  destruct (filter (fun d => str_eqb (title d) (src_title source))
                   (documents db)) as [|d [|d2 ds]] eqn:Ef;
    [| |cbn in Hone; lia].
  - (* created *)
    set (dnew := mk_Document (next_doc_id db) (src_title source)
                             (src_url source) false).
    eexists. split; [reflexivity|].
    unfold keys_ok, titles_distinct. cbn [documents doc_chunks next_doc_id].
    assert (Hfresh : ~ In (src_title source) (map title (documents db))).
    { intro Hin. apply in_map_iff in Hin. destruct Hin as [x [Hx Hin]].
      assert (Hf : In x (filter (fun d => str_eqb (title d) (src_title source))
                                (documents db))).
      { apply filter_In. split; [exact Hin | now apply TokenFacts.str_eqb_eq]. }
      rewrite Ef in Hf. exact Hf. }
    repeat split.
    + rewrite map_app. cbn [map].
      apply (Permutation_NoDup (Permutation_cons_append _ _)).
      constructor; [|exact Hids].
      intro Hin. apply in_map_iff in Hin. destruct Hin as [x [Hx Hin]].
      rewrite Forall_forall in Hlt. specialize (Hlt x Hin). cbn in Hx. lia.
    + apply Forall_app. split.
      * eapply Forall_impl; [|exact Hlt]. intros x Hx. cbn in *. lia.
      * constructor; [cbn; lia | constructor].
    + rewrite map_app. cbn [map].
      apply (Permutation_NoDup (Permutation_cons_append _ _)).
      now constructor.
    + exists dnew. split; [apply in_or_app; right; now left|]. now split.
    + intros t [x [Hx Ht]]. exists x. split; [apply in_or_app; now left|exact Ht].
    + intros x Hx _. apply in_or_app. now left.
    + intros x Hx. apply in_app_or in Hx. destruct Hx as [Hx|[<-|[]]];
        [now right | now left].
  - (* found *)
    assert (Hd : In d (documents db) /\ title d = src_title source).
    { assert (Hf : In d (filter (fun d => str_eqb (title d) (src_title source))
                                (documents db))) by (rewrite Ef; now left).
      apply filter_In in Hf. destruct Hf as [Hin Heq].
      split; [exact Hin | now apply TokenFacts.str_eqb_eq]. }
    destruct Hd as [Hdin Hdt].
    set (dnew := mk_Document (doc_id d) (title d) (src_url source) false).
    set (upd := fun d' : Document =>
                  if Nat.eqb (doc_id d') (doc_id dnew) then dnew else d').
    assert (Hupd : forall x, In x (documents db) ->
              (x = d /\ upd x = dnew) \/ (x <> d /\ upd x = x)).
    { intros x Hx. unfold upd. cbn [doc_id dnew].
      destruct (Nat.eqb (doc_id x) (doc_id d)) eqn:E.
      - apply Nat.eqb_eq in E. left.
        split; [now apply (NoDup_map_inj doc_id (documents db)) | reflexivity].
      - right. split; [|reflexivity]. intros ->.
        rewrite Nat.eqb_refl in E. discriminate. }
    assert (Hid : map doc_id (map upd (documents db))
                  = map doc_id (documents db)).
    { rewrite map_map. apply map_ext_in. intros x Hx.
      destruct (Hupd x Hx) as [[-> ->]|[_ ->]]; reflexivity. }
    assert (Htt : map title (map upd (documents db))
                  = map title (documents db)).
    { rewrite map_map. apply map_ext_in. intros x Hx.
      destruct (Hupd x Hx) as [[-> ->]|[_ ->]]; reflexivity. }
    eexists. split; [reflexivity|].
    unfold keys_ok, titles_distinct.
    cbn [snd documents doc_chunks next_doc_id]. fold upd.
    repeat split.
    + now rewrite Hid.
    + apply Forall_forall. intros x Hx. apply in_map_iff in Hx.
      destruct Hx as [y [<- Hy]]. rewrite Forall_forall in Hlt.
      destruct (Hupd y Hy) as [[-> ->]|[_ ->]]; [apply (Hlt d Hdin) | now apply Hlt].
    + now rewrite Htt.
    + exists dnew. split; [|now split].
      apply in_map_iff. exists d. split; [|exact Hdin].
      destruct (Hupd d Hdin) as [[_ H]|[H _]]; [exact H | congruence].
    + intros t [x [Hx [Ht Hp]]].
      destruct (Hupd x Hx) as [[-> Hu]|[_ Hu]].
      * exists dnew. split; [apply in_map_iff; exists d; now split|].
        split; [exact Ht | reflexivity].
      * exists x. split; [apply in_map_iff; exists x; now split|]. now split.
    + intros x Hx Hne. apply in_map_iff. exists x. split; [|exact Hx].
      destruct (Hupd x Hx) as [[-> _]|[_ Hu]]; [congruence | exact Hu].
    + intros x Hx. apply in_map_iff in Hx. destruct Hx as [y [<- Hy]].
      destruct (Hupd y Hy) as [[-> ->]|[_ ->]]; [left; exact Hdt | now right].
Qed.

Lemma load_all_spec (sources : list Source) (db : DB) :
  keys_ok db -> titles_distinct db ->
  exists db',
    for_each sources load_one db = (Return tt, db')
    /\ keys_ok db' /\ titles_distinct db'
    /\ doc_chunks db' = doc_chunks db
    /\ (forall source, In source sources -> loaded db' (src_title source))
    /\ (forall d, In d (documents db) ->
          (forall source, In source sources -> src_title source <> title d) ->
          In d (documents db'))
    /\ (forall d', In d' (documents db') ->
          (exists source, In source sources /\ title d' = src_title source)
          \/ In d' (documents db)).
Proof.
  revert db. induction sources as [|src sources IH]; intros db Hk Ht.
  - exists db. cbn. split; [reflexivity|]. split; [exact Hk|].
    split; [exact Ht|]. split; [reflexivity|]. split; [intros ? []|].
    split; [auto | intros d' Hd'; now right].
  - destruct (load_one_spec src db Hk Ht)
      as [db1 [E1 [Hk1 [Ht1 [Hc1 [Hl1 [Hkeep1 [Hother1 Hfrom1]]]]]]]].
    destruct (IH db1 Hk1 Ht1)
      as [db2 [E2 [Hk2 [Ht2 [Hc2 [Hl2 [Hother2 Hfrom2]]]]]]].
    exists db2. cbn [for_each]. unfold bind at 1. rewrite E1.
    split; [exact E2|]. split; [exact Hk2|]. split; [exact Ht2|].
    split; [congruence|]. split; [|split].
    + intros source [<-|Hin]; [|now apply Hl2].
      (* a later source leaves an earlier one loaded *)
      clear - Hl1 E2 Hk1 Ht1.
      revert db1 db2 Hl1 E2 Hk1 Ht1.
      induction sources as [|s2 sources IHs]; intros db1 db2 Hl1 E2 Hk1 Ht1.
      * cbn in E2. inversion E2; subst. exact Hl1.
      * cbn [for_each] in E2. unfold bind at 1 in E2.
        destruct (load_one_spec s2 db1 Hk1 Ht1)
          as [db1' [E1' [Hk1' [Ht1' [_ [_ [Hkeep _]]]]]]].
        rewrite E1' in E2.
        apply (IHs db1' db2); auto.
    + intros d Hd Hnone. apply Hother2.
      * apply Hother1; [exact Hd|]. intro E. apply (Hnone src); [now left|].
        now symmetry.
      * intros source Hin. apply Hnone. now right.
    + intros d' Hd'. destruct (Hfrom2 d' Hd') as [[source [Hin Heq]]|Hin1].
      * left. exists source. split; [now right | exact Heq].
      * destruct (Hfrom1 d' Hin1) as [Heq|Hin0]; [|now right].
        left. exists src. split; [now left | exact Heq].
Qed.

(** X16. On a store whose documents have distinct keys and distinct
    titles, [load_sources] returns normally with the documents of the
    store, keeps keys and titles distinct and leaves the chunk table
    alone; every source of the file then has its document, marked
    unprocessed; a document that no source names is kept as it is, and
    every document comes from a source or was there before. *)
Theorem load_sources_effect (sources : list Source) (db : DB) :
  keys_ok db -> titles_distinct db ->
  exists db',
    load_sources (Some sources) db = (Return (documents db'), db')
    /\ keys_ok db' /\ titles_distinct db'
    /\ doc_chunks db' = doc_chunks db
    /\ (forall source, In source sources ->
          exists d, In d (documents db') /\ title d = src_title source
                    /\ processed d = false)
    /\ (forall d, In d (documents db) ->
          (forall source, In source sources -> src_title source <> title d) ->
          In d (documents db'))
    /\ (forall d', In d' (documents db') ->
          (exists source, In source sources /\ title d' = src_title source)
          \/ In d' (documents db)).
Proof.
  intros Hk Ht.
  destruct (load_all_spec sources db Hk Ht) as [db' [E H]].
  exists db'. split; [|exact H].
  rewrite load_sources_unfold. unfold bind, try_. now rewrite E.
Qed.

Lemma load_sources_effect_witness :
  exists db',
    load_sources (Some [manual; manual]) empty_db
    = (Return (documents db'), db')
    /\ map title (documents db') = [lit "Manual"].
Proof.
  destruct (load_sources_effect [manual; manual] empty_db) as [db' [E _]].
  - split; constructor.
  - constructor.
  - exists db'. split; [exact E|].
    assert (Hdb : snd (load_sources (Some [manual; manual]) empty_db) = db')
      by now rewrite E.
    rewrite <- Hdb. reflexivity.
Defined.

(** *** When processing cannot fail *)

Lemma same_key_false (r c : DocumentChunk) :
  chunk_key c <> chunk_key r -> same_key r c = false.
Proof.
  intro H. unfold same_key.
  destruct (Nat.eqb (document r) (document c)) eqn:E1; [|reflexivity].
  destruct (Nat.eqb (Models.chunk_index r) (Models.chunk_index c)) eqn:E2;
    [|reflexivity].
  apply Nat.eqb_eq in E1, E2. exfalso. apply H. unfold chunk_key. congruence.
Qed.

Lemma for_each_create_fresh (rows : list DocumentChunk) (db : DB) :
  NoDup (map chunk_key rows) ->
  (forall r c, In r rows -> In c (doc_chunks db) -> chunk_key c <> chunk_key r) ->
  for_each rows create_chunk db
  = (Return tt, mk_DB (documents db) (doc_chunks db ++ rows) (next_doc_id db)).
Proof.
  revert db. induction rows as [|r rows IH]; intros db Hnd Hfresh.
  - cbn. rewrite app_nil_r. now destruct db.
  - cbn [for_each]. unfold bind, create_chunk.
    assert (E : existsb (same_key r) (doc_chunks db) = false).
    { destruct (existsb (same_key r) (doc_chunks db)) eqn:E; [|reflexivity].
      apply existsb_exists in E. destruct E as [c [Hc Hk]].
      rewrite same_key_false in Hk; [discriminate|].
      apply Hfresh; [now left | exact Hc]. }
    rewrite E. inversion Hnd as [|? ? Hnotin Hnd']; subst.
    rewrite IH; cbn [documents doc_chunks next_doc_id].
    + now rewrite <- app_assoc.
    + exact Hnd'.
    + intros r' c Hr' Hc. apply in_app_or in Hc. destruct Hc as [Hc|[<-|[]]].
      * apply Hfresh; [now right | exact Hc].
      * intro Heq. apply Hnotin. rewrite Heq. now apply in_map.
Qed.

Lemma chunk_rows_keys_NoDup (doc : Document) (chunks : list str) :
  NoDup (map chunk_key (chunk_rows doc chunks)).
Proof.
  pose proof (chunk_rows_NoDup doc chunks) as H.
  assert (E : map chunk_key (chunk_rows doc chunks)
              = map (fun i => (doc_id doc, i))
                    (map Models.chunk_index (chunk_rows doc chunks))).
  { rewrite map_map. apply map_ext_in. intros r Hr.
    destruct (chunk_rows_spec _ _ _ Hr) as [Hd _].
    unfold chunk_key. now rewrite Hd. }
  rewrite E. clear E. induction H as [|i l Hnotin Hnd IH]; cbn; constructor.
  - intro Hin. apply in_map_iff in Hin. destruct Hin as [j [Hj Hin]].
    inversion Hj; subst. contradiction.
  - exact IH.
Qed.

Lemma process_document_ok (dir : list PdfFile) (doc : Document) (db : DB) :
  (forall c, In c (doc_chunks db) -> document c <> doc_id doc) ->
  exists db',
    process_document dir doc db = (Return tt, db')
    /\ (forall c, In c (doc_chunks db') ->
          In c (doc_chunks db) \/ document c = doc_id doc).
Proof.
  intro Hfresh. unfold process_document.
  destruct (find_pdf dir (title doc)) as [pdf|];
    [|exists db; split; [reflexivity | auto]].
  destruct (extract_text_from_pdf pdf) as [|c text];
    [exists db; split; [reflexivity | auto]|].
  destruct (word_count (c :: text) <? 50);
    [exists db; split; [reflexivity | auto]|].
  set (rows := chunk_rows doc (chunk_text_default (c :: text))).
  unfold bind. rewrite for_each_create_fresh.
  - eexists. split; [reflexivity|]. cbn [snd save doc_chunks].
    intros x Hx. apply in_app_or in Hx. destruct Hx as [Hx|Hx]; [now left|].
    right. now destruct (chunk_rows_spec _ _ _ Hx).
  - apply chunk_rows_keys_NoDup.
  - intros r x Hr Hx Heq. destruct (chunk_rows_spec _ _ _ Hr) as [Hd _].
    apply (Hfresh x Hx). unfold chunk_key in Heq. inversion Heq. congruence.
Qed.

Lemma for_each_process_ok (dir : list PdfFile) (docs : list Document) (db : DB) :
  NoDup (map doc_id docs) ->
  (forall c d, In c (doc_chunks db) -> In d docs -> document c <> doc_id d) ->
  exists db', for_each docs (process_document dir) db = (Return tt, db').
Proof.
  revert db. induction docs as [|d docs IH]; intros db Hnd Hfresh.
  - exists db. reflexivity.
  - inversion Hnd as [|? ? Hnotin Hnd']; subst.
    destruct (process_document_ok dir d db) as [db1 [E1 Hc1]].
    { intros c Hc. apply Hfresh; [exact Hc | now left]. }
    destruct (IH db1 Hnd') as [db2 E2].
    { intros c d' Hc Hd'. destruct (Hc1 c Hc) as [Hold|Hnew].
      - apply Hfresh; [exact Hold | now right].
      - rewrite Hnew. intro Heq. apply Hnotin. rewrite Heq. now apply in_map. }
    exists db2. cbn [for_each]. unfold bind. now rewrite E1.
Qed.

Lemma process_documents_ok (dir : list PdfFile) (db : DB) :
  NoDup (map doc_id (documents db)) ->
  (forall c d, In c (doc_chunks db) -> In d (documents db) ->
               processed d = false -> document c <> doc_id d) ->
  fst (process_documents dir db) = Return tt.
Proof.
  intros Hids Hfresh. unfold process_documents, bind, unprocessed_documents.
  destruct (for_each_process_ok dir
              (filter (fun d => negb (processed d)) (documents db)) db)
    as [db' E].
  - now apply NoDup_map_filter.
  - intros c d Hc Hd. apply filter_In in Hd. destruct Hd as [Hd Hp].
    apply negb_true_iff in Hp. now apply Hfresh.
  - now rewrite E.
Qed.

(** X17. [process_documents] runs to the end without an exception on a
    store whose documents have distinct keys and where no stored chunk
    belongs to an unprocessed document. *)
Theorem process_documents_succeeds (dir : list PdfFile) (db : DB) :
  NoDup (map doc_id (documents db)) ->
  (forall c d, In c (doc_chunks db) -> In d (documents db) ->
               processed d = false -> document c <> doc_id d) ->
  fst (process_documents dir db) = Return tt.
Proof. apply process_documents_ok. Qed.

Lemma process_documents_succeeds_witness :
  fst (process_documents manual_dir
         (snd (load_sources (Some [manual]) empty_db))) = Return tt.
Proof.
  apply process_documents_succeeds.
  - repeat constructor. intros [].
  - intros c d [].
Defined.

(** X18. The store part of [initialize_system] never ends in an
    exception, whatever the store held before, and it leaves the chunk
    table with the (document, position) pairs distinct. *)
Theorem initialize_system_succeeds
    (sources : option (list Source)) (dir : list PdfFile) (db : DB) :
  fst (Views.initialize_system sources dir db) = Return tt
  /\ unique_together (snd (Views.initialize_system sources dir db)).
Proof.
  unfold Views.initialize_system.
  set (db0 := mk_DB [] [] (next_doc_id db)).
  assert (Hk0 : keys_ok db0) by (split; constructor).
  assert (Ht0 : titles_distinct db0) by constructor.
  assert (Hu0 : unique_together db0) by constructor.
  assert (Hload : exists db1,
            snd (load_sources sources db0) = db1
            /\ (exists docs, fst (load_sources sources db0) = Return docs)
            /\ keys_ok db1 /\ doc_chunks db1 = []).
  { destruct sources as [srcs|].
    - destruct (load_all_spec srcs db0 Hk0 Ht0)
        as [db1 [E0 [Hk1 [_ [Hc1 _]]]]].
      assert (E : load_sources (Some srcs) db0 = (Return (documents db1), db1)).
      { rewrite load_sources_unfold. unfold bind, try_. now rewrite E0. }
      exists db1. rewrite E. split; [reflexivity|].
      split; [eexists; reflexivity|]. split; [exact Hk1 | exact Hc1].
    - exists db0. split; [reflexivity|].
      split; [eexists; reflexivity|]. split; [exact Hk0 | reflexivity]. }
  destruct Hload as [db1 [E1 [[docs E1'] [Hk1 Hc1]]]].
  assert (Hu1 : unique_together db1).
  { unfold unique_together. rewrite Hc1. constructor. }
  assert (Hrun : Views.initialize_system sources dir db
                 = match filter (fun f => ends_with dot_pdf (name f)) dir with
                   | [] => ret tt
                   | _ => process_documents dir
                   end db1).
  { unfold Views.initialize_system, bind.
    cbn [delete_all_documents delete_all_chunks documents next_doc_id].
    fold db0. destruct (load_sources sources db0) as [o db1'].
    cbn [fst snd] in E1, E1'. now subst o db1'. }
  fold (Views.initialize_system sources dir db). rewrite Hrun.
  destruct (filter _ dir).
  - cbn. split; [reflexivity | exact Hu1].
  - split.
    + apply process_documents_ok; [apply Hk1|].
      intros c d Hc. rewrite Hc1 in Hc. contradiction.
    + now apply process_documents_unique.
Qed.

End StoreFacts.

(** ** rename_pdfs.py *)


Module RenameFacts.
Import Py Utils RenamePdfs.

Lemma replace_char_app (c : ascii) (new a b : str) :
  replace_char c new (a ++ b) = replace_char c new a ++ replace_char c new b.
Proof. unfold replace_char. now rewrite map_app, concat_app. Qed.

Lemma replace_char_absent (c : ascii) (new s : str) :
  ~ In c s -> replace_char c new s = s.
Proof.
  unfold replace_char. induction s as [|x s IH]; intro H; [reflexivity|].
  cbn [map concat]. destruct (Ascii.eqb x c) eqn:E.
  - apply Ascii.eqb_eq in E. exfalso. apply H. now left.
  - cbn. f_equal. apply IH. intro Hin. apply H. now right.
Qed.

Lemma replace_char_In (c : ascii) (new s : str) (x : ascii) :
  In x (replace_char c new s) -> In x new \/ (In x s /\ x <> c).
Proof.
  unfold replace_char. induction s as [|y s IH]; cbn [map concat];
    [intros []|].
  intro H. apply in_app_or in H. destruct H as [H|H].
  - destruct (Ascii.eqb y c) eqn:E; [now left|].
    apply Ascii.eqb_neq in E. destruct H as [<-|[]]. right. split; [now left|exact E].
  - destruct (IH H) as [Hn|[Hs Hne]]; [now left|]. right. split; [now right|exact Hne].
Qed.

Lemma exists_in_spec (dir : list PdfFile) (n : str) :
  exists_in dir n = true <-> In n (map name dir).
Proof.
  unfold exists_in. rewrite existsb_exists, in_map_iff. split.
  - intros [f [Hin Heq]]. apply TokenFacts.str_eqb_eq in Heq. eauto.
  - intros [f [Heq Hin]]. exists f. split; [exact Hin|].
    now apply TokenFacts.str_eqb_eq.
Qed.

Lemma rename_pages (old new : str) (dir : list PdfFile) :
  map pages (rename old new dir) = map pages dir.
Proof.
  unfold rename. rewrite map_map. apply map_ext. intro f.
  now destruct (str_eqb (name f) old).
Qed.

Lemma rename_names (old new : str) (dir : list PdfFile) :
  NoDup (map name dir) -> ~ In new (map name dir) ->
  NoDup (map name (rename old new dir))
  /\ forall n, In n (map name (rename old new dir)) ->
               n = new \/ In n (map name dir).
Proof.
  unfold rename. induction dir as [|f dir IH]; intros Hnd Hnew; cbn [map].
  - split; [constructor | intros n []].
  - inversion Hnd as [|? ? Hnotin Hnd']; subst.
    destruct IH as [IH1 IH2]; [exact Hnd' | intro H; apply Hnew; now right|].
    destruct (str_eqb (name f) old) eqn:E.
    + apply TokenFacts.str_eqb_eq in E. cbn [name]. split.
      * constructor; [|exact IH1]. intro Hin.
        (* no other file is called [old], so the tail is unchanged *)
        assert (Hsame : map (fun f0 => if str_eqb (name f0) old
                                       then mk_PdfFile new (pages f0) else f0)
                            dir = dir).
        { rewrite <- (map_id dir) at 2. apply map_ext_in. intros g Hg.
          destruct (str_eqb (name g) old) eqn:Eg; [|reflexivity].
          apply TokenFacts.str_eqb_eq in Eg. exfalso. apply Hnotin.
          rewrite E, <- Eg. now apply in_map. }
        rewrite Hsame in Hin. apply Hnew. now right.
      * intros n [<-|Hn]; [now left|].
        destruct (IH2 n Hn) as [->|H]; [now left | right; now right].
    + split.
      * constructor; [|exact IH1]. intro Hin.
        destruct (IH2 _ Hin) as [Heq|H]; [|contradiction].
        apply Hnew. left. exact Heq.
      * intros n [<-|Hn]; [right; now left|].
        destruct (IH2 n Hn) as [->|H]; [now left | right; now right].
Qed.

(** What one step keeps. *)
Lemma rename_one_keeps (pdf_files dir : list PdfFile) (source : Source) :
  NoDup (map name dir) ->
  map pages (rename_one pdf_files dir source) = map pages dir
  /\ NoDup (map name (rename_one pdf_files dir source))
  /\ forall n, In n (map name (rename_one pdf_files dir source)) ->
               n = expected_filename (src_title source) \/ In n (map name dir).
Proof.
  intro Hnd. unfold rename_one.
  destruct (find _ pdf_files) as [pdf_file|]; [|auto].
  destruct (exists_in dir (expected_filename (src_title source))) eqn:E; [auto|].
  destruct (exists_in dir (name pdf_file)); [|auto].
  assert (Hnew : ~ In (expected_filename (src_title source)) (map name dir)).
  { intro H. apply exists_in_spec in H. congruence. }
  split; [apply rename_pages | now apply rename_names].
Qed.

(** X19. Renaming never removes, adds or overwrites a file: the
    directory keeps its files with their contents, in the same order,
    and the names stay distinct; every name afterwards is a name from
    before or the expected name of a source, and an expected name has no
    space, slash or colon. *)
Theorem rename_pdfs_keeps_files (sources : list Source) (dir : list PdfFile) :
  NoDup (map name dir) ->
  let dir' := rename_pdfs_to_match_titles sources dir in
  map pages dir' = map pages dir
  /\ NoDup (map name dir')
  /\ (forall n, In n (map name dir') ->
        In n (map name dir)
        \/ exists source, In source sources
                          /\ n = expected_filename (src_title source))
  /\ (forall title c, In c (expected_filename title) ->
        c <> " "%char /\ c <> "/"%char /\ c <> ":"%char).
Proof.
  intros Hnd dir'. subst dir'. unfold rename_pdfs_to_match_titles.
  set (pdf_files := filter _ dir). clearbody pdf_files.
  assert (Hfold : forall srcs d,
            NoDup (map name d) ->
            map pages (fold_left (rename_one pdf_files) srcs d) = map pages d
            /\ NoDup (map name (fold_left (rename_one pdf_files) srcs d))
            /\ (forall n,
                  In n (map name (fold_left (rename_one pdf_files) srcs d)) ->
                  In n (map name d)
                  \/ exists source, In source srcs
                       /\ n = expected_filename (src_title source))).
  { induction srcs as [|src srcs IH]; intros d Hd; cbn [fold_left].
    - repeat split; auto.
    - destruct (rename_one_keeps pdf_files d src Hd) as [K1 [K2 K3]].
      destruct (IH _ K2) as [I1 [I2 I3]].
      split; [congruence|]. split; [exact I2|].
      intros n Hn. destruct (I3 n Hn) as [H|[source [Hs Heq]]].
      + destruct (K3 n H) as [->|H']; [|now left].
        right. exists src. split; [now left | reflexivity].
      + right. exists source. split; [now right | exact Heq]. }
  destruct (Hfold sources dir Hnd) as [F1 [F2 F3]].
  split; [exact F1|]. split; [exact F2|]. split; [exact F3|].
  intros title c Hc. unfold expected_filename in Hc.
  apply replace_char_In in Hc. destruct Hc as [[<-|[]]|[Hc Hdash]].
  { repeat split; discriminate. }
  apply replace_char_In in Hc. destruct Hc as [[]|[Hc Hcolon]].
  apply replace_char_In in Hc. destruct Hc as [[<-|[]]|[Hc Hslash]].
  { repeat split; discriminate. }
  apply replace_char_In in Hc. destruct Hc as [[<-|[]]|[Hc Hspace]].
  { repeat split; discriminate. }
  auto.
Qed.

Definition scanned : list PdfFile :=
  [ mk_PdfFile (lit "lockout_scan.pdf") (Some [Some (lit "Lock out.")]);
    mk_PdfFile (lit "notes.txt") None ].

Lemma rename_pdfs_keeps_files_witness :
  let dir' := rename_pdfs_to_match_titles
                [mk_Source (lit "Lockout Tagout") (lit "https://example.org/l")]
                scanned in
  map name dir' = [lit "Lockout_Tagout.pdf"; lit "notes.txt"]
  /\ map pages dir' = map pages scanned
  /\ NoDup (map name dir').
Proof.
  split; [vm_compute; reflexivity|].
  pose proof (rename_pdfs_keeps_files
                [mk_Source (lit "Lockout Tagout") (lit "https://example.org/l")]
                scanned) as H.
  assert (Hnd : NoDup (map name scanned)).
  { repeat constructor; cbn; intuition discriminate. }
  destruct (H Hnd) as [H1 [H2 _]]. split; assumption.
Defined.

(** With a space and a colon in the title the renamed file has none of
    the names the search tries, and is not found. *)
Example renamed_file_not_found :
  find_pdf [mk_PdfFile (expected_filename (lit "Lockout: Tagout")) None]
           (lit "Lockout: Tagout") = None.
Proof. vm_compute. reflexivity. Qed.

(** The same with a space and an em dash: the script replaces both, each
    name the search tries replaces one of them. *)
Example renamed_em_dash_file_not_found :
  let title := lit "Lockout Tagout" ++ em_dash :: lit "Basics" in
  expected_filename title = lit "Lockout_Tagout_Basics.pdf"
  /\ ~ In (expected_filename title) (pdf_filename_patterns title)
  /\ find_pdf [mk_PdfFile (expected_filename title) None] title = None.
Proof.
  split; [vm_compute; reflexivity|]. split; [|vm_compute; reflexivity].
  vm_compute. intuition discriminate.
Qed.

(** X20. For a title without slash, colon and em dash the name the
    renaming script gives a file is the second of the names
    [process_documents] looks for, so a file with that name makes the
    search succeed on a pattern name. *)
Theorem expected_filename_is_pattern (title : str) (dir : list PdfFile) :
  (forall c, In c title ->
             c <> "/"%char /\ c <> ":"%char /\ c <> em_dash) ->
  expected_filename title = replace_char " "%char (lit "_") title ++ dot_pdf
  /\ In (expected_filename title) (pdf_filename_patterns title)
  /\ (forall f0, In f0 dir -> name f0 = expected_filename title ->
        exists f, find_pdf dir title = Some f /\ In f dir
                  /\ In (name f) (pdf_filename_patterns title)).
Proof.
  intro Hclean.
  assert (E : expected_filename title
              = replace_char " "%char (lit "_") title ++ dot_pdf).
  { unfold expected_filename. rewrite replace_char_app.
    rewrite (replace_char_absent " "%char (lit "_") dot_pdf)
      by (cbn; intuition discriminate).
    assert (Hno : forall c,
              In c (replace_char " "%char (lit "_") title ++ dot_pdf) ->
              c <> "/"%char /\ c <> ":"%char /\ c <> em_dash).
    { intros c Hc. apply in_app_or in Hc. destruct Hc as [Hc|Hc].
      - apply replace_char_In in Hc. destruct Hc as [[<-|[]]|[Hc _]];
          [repeat split; discriminate | now apply Hclean].
      - cbn in Hc. intuition (subst; discriminate). }
    rewrite (replace_char_absent "/"%char), (replace_char_absent ":"%char),
      (replace_char_absent em_dash);
      [reflexivity | | |]; intro Hin; destruct (Hno _ Hin) as [H1 [H2 H3]];
      congruence. }
  split; [exact E|].
  assert (Hpat : In (expected_filename title) (pdf_filename_patterns title)).
  { rewrite E. cbn [pdf_filename_patterns]. right. now left. }
  split; [exact Hpat|].
  intros f0 Hin Hname. unfold find_pdf.
  pose proof (StoreFacts.first_existing_spec dir (pdf_filename_patterns title))
    as Hs.
  destruct (first_existing dir (pdf_filename_patterns title)) as [g|].
  - exists g. split; [reflexivity | exact Hs].
  - exfalso. apply (Hs f0 Hin). now rewrite Hname.
Qed.

Lemma expected_filename_is_pattern_witness :
  exists f,
    find_pdf (rename_pdfs_to_match_titles
                [mk_Source (lit "Lockout Tagout") (lit "https://example.org/l")]
                scanned)
             (lit "Lockout Tagout") = Some f
    /\ In (name f) (pdf_filename_patterns (lit "Lockout Tagout")).
Proof.
  destruct (expected_filename_is_pattern
              (lit "Lockout Tagout")
              (rename_pdfs_to_match_titles
                 [mk_Source (lit "Lockout Tagout") (lit "https://example.org/l")]
                 scanned))
    as [_ [_ H]].
  - intros c Hc. cbn in Hc.
    repeat (destruct Hc as [<-|Hc]; [repeat split; discriminate|]).
    contradiction.
  - destruct (H (mk_PdfFile (lit "Lockout_Tagout.pdf")
                            (Some [Some (lit "Lock out.")])))
      as [f [Hf [_ Hn]]].
    + vm_compute. now left.
    + vm_compute. reflexivity.
    + exists f. split; assumption.
Defined.

End RenameFacts.

(** ** embeddings.py: [generate_embeddings] *)


Module GenerateFacts.
Import Py Embeddings GenerateEmbeddings.

Lemma digits_only (d : Decimal.uint) (c : ascii) :
  In c (list_ascii_of_string (DecimalString.NilEmpty.string_of_uint d)) ->
  is_digit c = true.
Proof.
  induction d; cbn; intros H; try contradiction;
    (destruct H as [<-|H]; [reflexivity | now apply IHd]).
Qed.

Lemma str_of_nat_digits (n : nat) (c : ascii) :
  In c (str_of_nat n) -> is_digit c = true.
Proof. apply digits_only. Qed.

Lemma str_of_nat_inj (n m : nat) : str_of_nat n = str_of_nat m -> n = m.
Proof.
  unfold str_of_nat. intro H.
  apply (f_equal string_of_list_ascii) in H.
  rewrite !string_of_list_ascii_of_string in H.
  apply (f_equal DecimalString.NilEmpty.uint_of_string) in H.
  rewrite !DecimalString.NilEmpty.usu in H. inversion H as [H'].
  apply (f_equal Nat.of_uint) in H'.
  now rewrite !DecimalNat.Unsigned.of_to in H'.
Qed.

Lemma split_at_separator (a a' b b' : str) (sep : ascii) :
  ~ In sep a -> ~ In sep a' ->
  a ++ sep :: b = a' ++ sep :: b' -> a = a' /\ b = b'.
Proof.
  revert a'. induction a as [|x a IH]; intros [|y a'] Ha Ha' H; cbn in H.
  - inversion H. auto.
  - inversion H; subst. exfalso. apply Ha'. now left.
  - inversion H; subst. exfalso. apply Ha. now left.
  - inversion H; subst. destruct (IH a') as [-> ->]; auto.
    + intro Hin. apply Ha. now right.
    + intro Hin. apply Ha'. now right.
Qed.

Lemma chunk_id_inj (d i d' i' : nat) :
  chunk_id d i = chunk_id d' i' -> d = d' /\ i = i'.
Proof.
  unfold chunk_id. cbn [lit list_ascii_of_string app]. intro H.
  apply split_at_separator in H.
  - destruct H as [H1 H2]. split; now apply str_of_nat_inj.
  - intro Hin. apply str_of_nat_digits in Hin. discriminate.
  - intro Hin. apply str_of_nat_digits in Hin. discriminate.
Qed.

(** A chunk that gets a record: its cleaned text has five words or more. *)
Definition eligible (chunk : Models.DocumentChunk) : bool :=
  negb (match clean_chunk_text (Models.chunk_text chunk) with
        | [] => true
        | _ => false
        end
        || (word_count (clean_chunk_text (Models.chunk_text chunk)) <? 5)).

(** The record of [chunk], a chunk of the document [doc]. *)
Definition record_of (encode : str -> list Q) (doc : Models.Document)
    (chunk : Models.DocumentChunk) (r : EmbeddingRecord) : Prop :=
  Models.doc_id doc = Models.document chunk
  /\ rec_id r = chunk_id (Models.document chunk) (Models.chunk_index chunk)
  /\ rec_document r = clean_chunk_text (Models.chunk_text chunk)
  /\ rec_embedding r = encode (rec_document r)
  /\ 5 <= word_count (rec_document r)
  /\ rec_metadata r
     = mk_Metadata (Models.document chunk) (Models.chunk_index chunk)
                   (Models.title doc) (Models.url doc)
                   (Models.chunk_text chunk).

Lemma document_of_spec (db : Models.DB) (chunk : Models.DocumentChunk)
    (doc : Models.Document) :
  document_of db chunk = Some doc ->
  In doc (Models.documents db) /\ Models.doc_id doc = Models.document chunk.
Proof.
  unfold document_of. intro H. apply find_some in H.
  destruct H as [Hin Heq]. split; [exact Hin | now apply Nat.eqb_eq].
Qed.

Lemma prepare_spec (encode : str -> list Q) (db : Models.DB)
    (chunks : list Models.DocumentChunk) (records : list EmbeddingRecord) :
  prepare encode db chunks = Some records ->
  Forall2 (fun chunk r =>
             exists doc, In doc (Models.documents db)
                         /\ record_of encode doc chunk r)
          (filter eligible chunks) records.
Proof.
  revert records. induction chunks as [|chunk chunks IH]; intros records H;
    cbn [prepare] in H.
  - inversion H. constructor.
  - cbn [filter]. unfold eligible at 1.
    destruct (match clean_chunk_text (Models.chunk_text chunk) with
              | [] => true | _ => false end
              || (word_count (clean_chunk_text (Models.chunk_text chunk)) <? 5))%bool
      eqn:E; cbn [negb].
    + now apply IH.
    + destruct (document_of db chunk) as [doc|] eqn:Ed; [|discriminate].
      destruct (prepare encode db chunks) as [rs|]; [|discriminate].
      inversion H; subst records. constructor; [|now apply IH].
      apply document_of_spec in Ed. destruct Ed as [Hin Hid].
      exists doc. split; [exact Hin|].
      apply orb_false_iff in E. destruct E as [_ E]. apply Nat.ltb_ge in E.
      unfold record_of. cbn [rec_id rec_document rec_embedding rec_metadata].
      rewrite Hid. repeat split; auto.
Qed.

(** X21. When the preparation loop of [generate_embeddings] ends
    normally on a store with unique (document, position) pairs, it has
    made one record for each chunk whose cleaned text has at least five
    words, in table order, and none for the others; the record holds the
    cleaned text, its embedding and, as metadata, the document's title
    and URL and the original chunk text; the record ids are pairwise
    distinct. *)
Theorem prepare_records (encode : str -> list Q) (db : Models.DB)
    (records : list EmbeddingRecord) :
  Models.unique_together db ->
  prepare encode db (Models.doc_chunks db) = Some records ->
  Forall2 (fun chunk r =>
             exists doc, In doc (Models.documents db)
                         /\ record_of encode doc chunk r)
          (filter eligible (Models.doc_chunks db)) records
  /\ NoDup (map rec_id records).
Proof.
  intros Hu H. pose proof (prepare_spec _ _ _ _ H) as Hall.
  split; [exact Hall|].
  assert (Hkeys : NoDup (map Models.chunk_key
                             (filter eligible (Models.doc_chunks db))))
    by now apply IngestFacts.NoDup_map_filter.
  clear H Hu. induction Hall as [|chunk r chunks rs Hr Hall IH];
    cbn [map]; [constructor|].
  cbn [map] in Hkeys. inversion Hkeys as [|? ? Hnotin Hnd]; subst.
  constructor; [|now apply IH].
  intro Hin. apply Hnotin. clear IH Hnd Hnotin Hkeys.
  destruct Hr as [doc [_ [_ [Hid _]]]].
  induction Hall as [|c2 r2 cs2 rs2 Hr2 Hall2 IH2]; [contradiction|].
  cbn [map] in *. destruct Hin as [Heq|Hin]; [left | right; now apply IH2].
  destruct Hr2 as [doc2 [_ [_ [Hid2 _]]]].
  rewrite Hid, Hid2 in Heq. apply chunk_id_inj in Heq.
  unfold Models.chunk_key. destruct Heq as [-> ->]. reflexivity.
Qed.

(** *** Batches *)

Lemma skipn_skipn_add {A : Type} (x y : nat) (l : list A) :
  skipn x (skipn y l) = skipn (y + x) l.
Proof.
  revert l. induction y as [|y IH]; intro l; [reflexivity|].
  destruct l as [|a l]; [now rewrite !skipn_nil|]. cbn. apply IH.
Qed.

Lemma batches_concat_aux {A : Type} (b k : nat) (l : list A) :
  length l <= k * b ->
  concat (map (fun j => firstn b (skipn (j * b) l)) (seq 0 k)) = l.
Proof.
  revert l. induction k as [|k IH]; intros l Hlen.
  - destruct l; [reflexivity | simpl in Hlen; lia].
  - cbn [seq map concat]. rewrite <- seq_shift, map_map.
    cbn [Nat.mul skipn].
    rewrite (map_ext _ (fun j => firstn b (skipn (j * b) (skipn b l))))
      by (intro j; now rewrite skipn_skipn_add).
    rewrite IH by (rewrite length_skipn; lia).
    apply firstn_skipn.
Qed.

(** X22. The batches cut the list into consecutive pieces: put end to
    end they give the list back, none is empty and none has more than
    [batch_size] elements (50 in [generate_embeddings]); the calls of
    [generate_embeddings] are one delete followed by one add per batch. *)
Theorem batches_partition {A : Type} (batch_size : nat) (l : list A) :
  1 <= batch_size ->
  concat (batches batch_size l) = l
  /\ Forall (fun batch => 1 <= length batch <= batch_size)
            (batches batch_size l)
  /\ (forall encode db calls,
        generate_embeddings encode true db = Some calls ->
        exists records,
          prepare encode db (Models.doc_chunks db) = Some records
          /\ calls = Delete :: map Add (batches 50 records)).
Proof.
  intro Hb. unfold batches.
  set (n := length l). set (k := (n + (batch_size - 1)) / batch_size).
  pose proof (Nat.div_mod_eq (n + (batch_size - 1)) batch_size) as Hdm.
  pose proof (Nat.mod_upper_bound (n + (batch_size - 1)) batch_size
                ltac:(lia)) as Hr.
  fold k in Hdm.
  set (r := (n + (batch_size - 1)) mod batch_size) in *.
  split; [apply batches_concat_aux; fold n; nia|]. split.
  - apply Forall_forall. intros batch Hin. apply in_map_iff in Hin.
    destruct Hin as [j [<- Hj]]. apply in_seq in Hj.
    rewrite length_firstn, length_skipn. fold n.
    assert (j * batch_size < n) by nia. lia.
  - intros encode db calls H. unfold generate_embeddings in H.
    destruct (prepare encode db (Models.doc_chunks db)) as [records|];
      [|discriminate].
    exists records. inversion H. auto.
Qed.

Lemma batches_partition_witness :
  concat (batches 50 (seq 0 120)) = seq 0 120
  /\ map (@length nat) (batches 50 (seq 0 120)) = [50; 50; 20].
Proof.
  split; [|vm_compute; reflexivity].
  apply (proj1 (batches_partition 50 (seq 0 120) ltac:(lia))).
Defined.

Definition ingested : Models.DB :=
  snd (IngestFacts.ingest (Some [IngestFacts.manual]) IngestFacts.manual_dir
                          Models.empty_db).

Lemma prepare_records_witness :
  exists records,
    prepare (fun _ => [1; 0]%Q) ingested (Models.doc_chunks ingested)
    = Some records
    /\ map rec_id records = [lit "1_0"]
    /\ NoDup (map rec_id records).
Proof.
  eexists. split; [vm_compute; reflexivity|].
  split; [reflexivity|].
  apply (prepare_records (fun _ => [1; 0]%Q) ingested).
  - apply IngestFacts.ingest_unique. constructor.
  - vm_compute. reflexivity.
Defined.

(** *** From ingestion to retrieval *)

(** The store answers a query with records it was given: the hits, with
    their distances. *)
Definition answers_from (records : list EmbeddingRecord) (r : QueryResult)
  : Prop :=
  exists hits : list (EmbeddingRecord * Q),
    Forall (fun h => In (fst h) records) hits
    /\ ids r = [map (fun h => rec_id (fst h)) hits]
    /\ documents r = [map (fun h => rec_document (fst h)) hits]
    /\ metadatas r = [map (fun h => rec_metadata (fst h)) hits]
    /\ distances r = Some [map snd hits].

Lemma format_all_In (r : QueryResult) (ps : list nat)
    (out : list Candidate) (c : Candidate) :
  format_all r ps = Some out -> In c out ->
  exists i, format_one r i = Some c.
Proof.
  revert out. induction ps as [|p ps IH]; intros out H Hin; cbn in H.
  - inversion H; subst. contradiction.
  - destruct (format_one r p) as [c0|] eqn:E; [|discriminate].
    destruct (format_all r ps) as [cs|]; [|discriminate].
    inversion H; subst. destruct Hin as [<-|Hin]; [eauto|].
    now apply (IH cs).
Qed.

Lemma search_embeddings_In (encode : str -> list Q) (coll : Collection)
    (q : str) (k : Z) (c : Candidate) :
  In c (search_embeddings encode (Some coll) q k) ->
  exists r i, coll [encode (clean_chunk_text q)] (k * 2)%Z = Some r
              /\ format_one r i = Some c.
Proof.
  unfold search_embeddings.
  destruct (coll [encode (clean_chunk_text q)] (k * 2)%Z) as [r|];
    [|intros []].
  destruct (format_results r) as [out|] eqn:E; [|intros []].
  intro Hin. unfold format_results in E.
  destruct (ids r) as [|[|i0 ids0] rest];
    try (inversion E; subst; contradiction).
  destruct (format_all_In _ _ _ _ E Hin) as [i Hi]. eauto.
Qed.

Lemma Forall2_In_r {A B : Type} (P : A -> B -> Prop)
    (l : list A) (l' : list B) (y : B) :
  Forall2 P l l' -> In y l' -> exists x, In x l /\ P x y.
Proof.
  induction 1 as [|a b l l' Hab H IH]; intro Hin; [contradiction|].
  destruct Hin as [<-|Hin].
  - exists a. split; [now left | exact Hab].
  - destruct (IH Hin) as [x [Hx Hp]]. exists x. split; [now right | exact Hp].
Qed.

(** X23. What is retrieved is what was ingested.  When the store answers
    queries with records that [generate_embeddings] prepared from the
    chunk table, every candidate [search_embeddings] returns shows the
    text of a stored chunk with that chunk's position and the title and
    URL of its document, and carries, for scoring, the cleaned text of
    that chunk. *)
Theorem retrieved_is_ingested
    (encode : str -> list Q) (db : Models.DB)
    (records : list EmbeddingRecord) (coll : Collection)
    (q : str) (k : Z) (c : Candidate) :
  prepare encode db (Models.doc_chunks db) = Some records ->
  (forall embs n r, coll embs n = Some r -> answers_from records r) ->
  In c (search_embeddings encode (Some coll) q k) ->
  exists chunk doc,
    In chunk (Models.doc_chunks db) /\ In doc (Models.documents db)
    /\ Models.doc_id doc = Models.document chunk
    /\ chunk_text c = Models.chunk_text chunk
    /\ cleaned_text c = clean_chunk_text (Models.chunk_text chunk)
    /\ chunk_index c = Models.chunk_index chunk
    /\ document_title c = Models.title doc
    /\ document_url c = Models.url doc.
Proof.
  intros Hprep Hstore Hin.
  destruct (search_embeddings_In _ _ _ _ _ Hin) as [r [i [Hq Hone]]].
  destruct (Hstore _ _ _ Hq) as [hits [Hhits [_ [Hdocs [Hmds _]]]]].
  unfold format_one, at0 in Hone. rewrite Hmds, Hdocs in Hone.
  destruct (nth_error (map (fun h => rec_metadata (fst h)) hits) i)
    as [md|] eqn:Emd; [|discriminate].
  destruct (nth_error (map (fun h => rec_document (fst h)) hits) i)
    as [doc_text|] eqn:Edoc; [|discriminate].
  destruct (score_at r i) as [sc|]; [|discriminate].
  inversion Hone; subst c. clear Hone.
  rewrite nth_error_map in Emd, Edoc.
  destruct (nth_error hits i) as [h|] eqn:Eh; [|discriminate].
  cbn in Emd, Edoc. inversion Emd; subst md. inversion Edoc; subst doc_text.
  rewrite Forall_forall in Hhits.
  pose proof (Hhits h (nth_error_In _ _ Eh)) as Hrec.
  destruct (Forall2_In_r _ _ _ _ (prepare_spec _ _ _ _ Hprep) Hrec)
    as [chunk [Hchunk [doc [Hdoc [Hid [_ [Htext [_ [_ Hmd]]]]]]]]].
  apply filter_In in Hchunk. destruct Hchunk as [Hchunk _].
  exists chunk, doc.
  cbn [chunk_text cleaned_text chunk_index document_title document_url].
  rewrite Hmd, Htext. cbn. repeat split; auto.
Qed.

(** A store that answers with the first records it was given. *)
Definition replay_store (records : list EmbeddingRecord) : Collection :=
  fun _ n =>
    let hits := firstn (Z.to_nat n) records in
    Some (mk_QueryResult [map rec_id hits] [map rec_document hits]
                         [map rec_metadata hits]
                         (Some [map (fun _ => 1 # 4)%Q hits])).

Lemma replay_store_answers (records : list EmbeddingRecord) :
  forall embs n r,
    replay_store records embs n = Some r -> answers_from records r.
Proof.
  intros embs n r H. unfold replay_store in H. inversion H; subst r.
  exists (map (fun rec => (rec, (1 # 4)%Q)) (firstn (Z.to_nat n) records)).
  cbn [ids documents metadatas distances]. rewrite !map_map. cbn [fst snd].
  repeat split; auto.
  apply Forall_forall. intros h Hh. apply in_map_iff in Hh.
  destruct Hh as [rec [<- Hrec]]. cbn.
  rewrite <- (firstn_skipn (Z.to_nat n) records). apply in_or_app. now left.
Qed.

Lemma retrieved_is_ingested_witness :
  exists c records,
    prepare (fun _ => [1; 0]%Q) ingested (Models.doc_chunks ingested)
    = Some records
    /\ search_embeddings (fun _ => [1; 0]%Q) (Some (replay_store records))
                         (lit "guards") 1 = [c]
    /\ exists chunk doc,
         In chunk (Models.doc_chunks ingested)
         /\ In doc (Models.documents ingested)
         /\ Models.doc_id doc = Models.document chunk
         /\ chunk_text c = Models.chunk_text chunk
         /\ cleaned_text c = clean_chunk_text (Models.chunk_text chunk)
         /\ chunk_index c = Models.chunk_index chunk
         /\ document_title c = Models.title doc
         /\ document_url c = Models.url doc.
Proof.
  eexists. eexists. split; [vm_compute; reflexivity|].
  split; [vm_compute; reflexivity|].
  eapply (retrieved_is_ingested (fun _ => [1; 0]%Q) ingested _ _
            (lit "guards") 1).
  - vm_compute. reflexivity.
  - apply replay_store_answers.
  - vm_compute. now left.
Defined.

End GenerateFacts.

(** ** forms.py and the [ask] view *)


Module AskFacts.
Import Py Embeddings Views Forms AskView.

Lemma clean_query_spec (raw : option str) (q : str) :
  clean_query raw = Some q ->
  exists value, raw = Some value /\ q = strip value
                /\ 1 <= length q <= 500.
Proof.
  unfold clean_query. destruct raw as [value|]; [|discriminate].
  destruct (strip value) as [|c v] eqn:E; [discriminate|].
  destruct (existsb _ _); [discriminate|].
  destruct (length (c :: v) <=? 500) eqn:L; [|discriminate].
  intro H. inversion H; subst q. apply Nat.leb_le in L.
  exists value. repeat split; auto. simpl. lia.
Qed.

(** X24. The [ask] view shows results only for a POST whose form is
    valid: the query shown is the submitted one stripped of surrounding
    whitespace, between 1 and 500 characters long, the mode is one of the
    two choices, and the page shows at most 10 contexts and an answer of
    at most 503 characters. *)
Theorem ask_results_page
    (encode : str -> list Q) (collection : option Collection)
    (stop_words : list str)
    (BM25Okapi : list (list str) -> option (list str -> list Q))
    (argsort : list Q -> list nat)
    (method : str) (data : QueryData)
    (q : str) (a : option str) (cs : list Context) (used : bool) (m : str) :
  ask encode collection stop_words BM25Okapi argsort method data
  = Results q a cs used m ->
  method = lit "POST"
  /\ (exists value, raw_query data = Some value /\ q = strip value)
  /\ 1 <= length q <= 500
  /\ (m = lit "baseline" \/ m = lit "reranked")
  /\ length cs <= 10
  /\ (forall text, a = Some text -> length text <= 503).
Proof.
  unfold ask. destruct (str_eqb method (lit "POST")) eqn:Em; [|discriminate].
  apply TokenFacts.str_eqb_eq in Em.
  unfold is_valid.
  destruct (clean_query (raw_query data)) as [q0|] eqn:Eq; [|discriminate].
  destruct (clean_top_k (raw_top_k data)) as [k0|] eqn:Ek; [|discriminate].
  destruct (clean_mode (raw_mode data)) as [m0|] eqn:Emode; [|discriminate].
  cbn [cd_query cd_top_k cd_mode].
  destruct (clean_query_spec _ _ Eq) as [value [Hraw [Hq Hlen]]].
  assert (Hk : (1 <= k0 <= 10)%Z).
  { unfold clean_top_k in Ek. destruct (raw_top_k data) as [v|]; [|discriminate].
    destruct ((1 <=? v) && (v <=? 10))%Z eqn:E; [|discriminate].
    inversion Ek; subst. apply andb_prop in E. destruct E as [E1 E2].
    apply Z.leb_le in E1, E2. lia. }
  assert (Hm : m0 = lit "baseline" \/ m0 = lit "reranked").
  { unfold clean_mode in Emode. destruct (raw_mode data) as [v|]; [|discriminate].
    destruct (existsb (str_eqb v) mode_choices) eqn:E; [|discriminate].
    inversion Emode; subst. apply existsb_exists in E.
    destruct E as [x [Hx Heq]]. apply TokenFacts.str_eqb_eq in Heq. subst x.
    cbn in Hx. intuition. }
  destruct (ask_api encode collection stop_words BM25Okapi argsort
                    (lit "POST") q0 k0 m0) as [r|status] eqn:Eapi; intro H;
    inversion H; subst.
  - assert (H0 : (0 <= k0)%Z) by lia.
    destruct (AnswerFacts.ask_api_json _ _ _ _ _ _ _ _ _ _ H0 Eapi)
      as [Hc [Ha _]].
    repeat split; eauto; try lia.
  - repeat split; eauto; try (cbn; lia). intros text Ht. discriminate.
Qed.

Lemma ask_results_page_witness :
  exists a cs used,
    ask EmbeddingsFacts.demo_encode (Some EmbeddingsFacts.demo_store)
        [] ViewsFacts.no_bm25 Reranker.stable_argsort
        (lit "POST")
        (mk_QueryData (Some (lit "  guards ")) (Some 2%Z) (Some (lit "reranked")))
    = Results (lit "guards") a cs used (lit "reranked")
    /\ length cs <= 10.
Proof.
  eexists. eexists. eexists. split; [vm_compute; reflexivity|].
  match goal with
  | |- length ?cs <= 10 =>
      pose proof (ask_results_page
                    EmbeddingsFacts.demo_encode
                    (Some EmbeddingsFacts.demo_store)
                    [] ViewsFacts.no_bm25 Reranker.stable_argsort
                    (lit "POST")
                    (mk_QueryData (Some (lit "  guards ")) (Some 2%Z)
                                  (Some (lit "reranked")))
                    (lit "guards") _ cs _ (lit "reranked")
                    ltac:(vm_compute; reflexivity)) as H
  end.
  apply H.
Defined.

End AskFacts.

(** ** [search_embeddings]: all or nothing *)

Module SearchFacts.
Import Py Embeddings.

Lemma format_all_defined (r : QueryResult) (ps : list nat)
    (out : list Candidate) :
  format_all r ps = Some out ->
  forall i, In i ps -> exists c, format_one r i = Some c.
Proof.
  revert out. induction ps as [|p ps IH]; intros out H i Hin.
  - destruct Hin.
  - cbn [format_all] in H.
    destruct (format_one r p) as [c0|] eqn:E; [|discriminate].
    destruct (format_all r ps) as [cs|]; [|discriminate].
    destruct Hin as [<-|Hin]; [eauto|]. now apply (IH cs).
Qed.

Lemma at0_defined {A : Type} (xs : list (list A)) (i : nat) (x : A) :
  at0 xs i = Some x -> i < length (hd [] xs).
Proof.
  unfold at0. destruct xs as [|x0 xs]; [discriminate|].
  intro H. cbn [hd]. apply nth_error_Some. congruence.
Qed.

(** X25. [search_embeddings] never returns a part of the store's answer:
    it returns either nothing, or one candidate for every id of the
    answer, and then the answer's metadata and document lists are at
    least as long as its id list.  An answer with a missing entry gives
    the empty list. *)
Theorem search_embeddings_all_or_nothing
    (encode : str -> list Q) (coll : Collection) (query : str) (k : Z)
    (r : QueryResult) :
  coll [encode (clean_chunk_text query)] (k * 2)%Z = Some r ->
  search_embeddings encode (Some coll) query k = []
  \/ exists ids0 rest,
       ids r = ids0 :: rest
       /\ length (search_embeddings encode (Some coll) query k) = length ids0
       /\ length ids0 <= length (hd [] (metadatas r))
       /\ length ids0 <= length (hd [] (documents r)).
Proof.
  intro Hr. unfold search_embeddings. rewrite Hr.
  destruct (format_results r) as [out|] eqn:Hf; [|now left].
  unfold format_results in Hf.
  destruct (ids r) as [|[|i0 ids0] rest] eqn:Hids.
  - inversion Hf. now left.
  - inversion Hf. now left.
  - right. exists (i0 :: ids0), rest. split; [reflexivity|].
    pose proof (EmbeddingsFacts.format_all_length _ _ _ Hf) as Hl.
    rewrite length_seq in Hl. split; [exact Hl|].
    destruct (format_all_defined _ _ _ Hf (length ids0)) as [c Hc].
    { apply in_seq. cbn [length]. lia. }
    unfold format_one in Hc.
    destruct (at0 (metadatas r) (length ids0)) as [md|] eqn:Emd;
      [|discriminate].
    destruct (at0 (documents r) (length ids0)) as [doc|] eqn:Edoc;
      [|discriminate].
    apply at0_defined in Emd, Edoc. cbn [length]. lia.
Qed.

(** A store that answers with two ids but one document and no metadata. *)
Definition partial_answer : QueryResult :=
  mk_QueryResult [[lit "1_0"; lit "1_1"]] [[lit "a"]] [] None.

Definition partial_store : Collection := fun _ _ => Some partial_answer.

Lemma search_embeddings_all_or_nothing_witness :
  search_embeddings EmbeddingsFacts.demo_encode (Some partial_store)
                    (lit "guards") 1 = []
  \/ exists ids0 rest,
       ids partial_answer = ids0 :: rest
       /\ length (search_embeddings EmbeddingsFacts.demo_encode
                    (Some partial_store) (lit "guards") 1) = length ids0
       /\ length ids0 <= length (hd [] (metadatas partial_answer))
       /\ length ids0 <= length (hd [] (documents partial_answer)).
Proof.
  apply (search_embeddings_all_or_nothing
           EmbeddingsFacts.demo_encode partial_store (lit "guards") 1
           partial_answer).
  reflexivity.
Defined.

End SearchFacts.
